(** * tvm: src/lang/ir_operator.cc

    Expression construction and algebraic simplification for the tensor IR:
    type promotion ([BinaryOpMatchTypes]), [cast], the constant-folding
    operators and the reduction builders, embedded as Rocq functions, with
    the properties of the specification stated over them.

    Fatal diagnostics ([CHECK], [LOG(FATAL)]) are values of an error monad;
    the allocation of the fresh variables of a reduction is explicit state
    passing over a supply of node identities. *)

From Stdlib Require Import ZArith Lia Bool List String.
From Stdlib Require Import PrimFloat FloatOps SpecFloat.
From Stdlib Require FloatAxioms FloatLemmas Uint63.
Import ListNotations.
Local Open Scope Z_scope.
Set Warnings "-register-all".

(* ================================================================== *)
(** * Fatal diagnostics *)

(** The taxonomy of the specification (section 7). [CHECK(lanes equal)] and
    [LOG(FATAL) << "Cannot match type"] raise [TypeMismatch];
    [CHECK_NE(value, 0) << "Divide by zero"] raises [DivideByZero];
    [CHECK(is_int || is_uint)] of [operator~] raises [UnsupportedOperand]. *)
Inductive Fatal : Set :=
| TypeMismatch
| DivideByZero
| UnsupportedOperand
| InvariantViolation.

Inductive Result (A : Type) : Type :=
| Ok (a : A)
| Error (e : Fatal).

Arguments Ok {A} a.
Arguments Error {A} e.

Definition bind {A B : Type} (m : Result A) (k : A -> Result B) : Result B :=
  match m with
  | Ok a => k a
  | Error e => Error e
  end.

Notation "x <- m ;; k" := (bind m (fun x => k))
  (at level 61, m at next level, right associativity).
Notation "' pat <- m ;; k" := (bind m (fun x => match x with pat => k end))
  (at level 61, pat pattern, m at next level, right associativity).

(* ================================================================== *)
(** * Machine numbers *)

(** Two's complement reading of the low [w] bits of [v]. *)
Definition wrap_signed (w v : Z) : Z := (v + 2 ^ (w - 1)) mod 2 ^ w - 2 ^ (w - 1).
Definition wrap_unsigned (w v : Z) : Z := v mod 2 ^ w.

(** [int64_t] arithmetic as the folding rules use it ([pa->value + pb->value]
    and the like). A shift by a count outside [0, 63] has no defined result
    in C++; the model fixes what the x86-64 shift instructions do, which
    read the low six bits of the count. *)
Module int64.
Definition add (a b : Z) : Z := wrap_signed 64 (a + b).
Definition sub (a b : Z) : Z := wrap_signed 64 (a - b).
Definition mul (a b : Z) : Z := wrap_signed 64 (a * b).
Definition neg (a : Z) : Z := wrap_signed 64 (- a).
Definition div (a b : Z) : Z := wrap_signed 64 (Z.quot a b).
Definition rem (a b : Z) : Z := Z.rem a b.
Definition shr (a b : Z) : Z := Z.shiftr a (b mod 64).
Definition shl (a b : Z) : Z := wrap_signed 64 (Z.shiftl a (b mod 64)).
Definition and (a b : Z) : Z := Z.land a b.
Definition or (a b : Z) : Z := Z.lor a b.
Definition xor (a b : Z) : Z := Z.lxor a b.
End int64.

(** [double] values are binary64 floats. The conversions are the native C++
    ones: integer to double rounds to nearest even, double to integer
    truncates toward zero. A double outside the target range has no defined
    conversion in C++; the model fixes the value x86-64 produces
    (the sign bit alone). *)
Definition double_of_Z (z : Z) : float :=
  SF2Prim (binary_normalize prec emax z 0 false).

Definition trunc_double (f : float) : option Z :=
  match Prim2SF f with
  | S754_zero _ => Some 0
  | S754_finite s m e =>
      let v := if 0 <=? e then Z.shiftl (Zpos m) e else Z.shiftr (Zpos m) (- e) in
      Some (if s then - v else v)
  | S754_infinity _ => None
  | S754_nan => None
  end.

Definition int64_of_double (f : float) : Z :=
  match trunc_double f with
  | Some z => if (- 2 ^ 63 <=? z) && (z <? 2 ^ 63) then z else - 2 ^ 63
  | None => - 2 ^ 63
  end.

(** [(uint64_t)f] as GCC compiles it for x86-64: below [2^63] (and for a
    NaN) the signed conversion, read as unsigned; from [2^63] on the signed
    conversion of [f - 2^63] with the top bit flipped, which is 0 from
    [2^64] on. *)
Definition two63 : float := 9223372036854775808%float.

Definition uint64_of_double (f : float) : Z :=
  if (two63 <=? f)%float then
    Z.lxor (wrap_unsigned 64 (int64_of_double (f - two63)%float)) (2 ^ 63)
  else wrap_unsigned 64 (int64_of_double f).

(** Rounding of a double to the nearest value of a narrower binary format
    with [p] bits of precision and maximal exponent [e]
    ([(float)value] is [round_to 24 128]). *)
Definition round_to (p e : Z) (f : float) : float :=
  match Prim2SF f with
  | S754_finite s m ex => SF2Prim (binary_round p e s m ex)
  | _ => f
  end.

(* ================================================================== *)
(** * Types *)

(** Modelled from the spec: the type descriptor {kind, bit width, lane count}
    of section 3, declared in the IR headers and not in this file, with the
    three numeric kinds. The boolean type is the one-bit unsigned type: the
    source builds its boolean literals as [UIntImm::make(UInt(1), ...)] and
    [make_const(Bool(1), true)], and reads them back with [as<UIntImm>]
    under [is_bool]. *)
Inductive TypeCode : Set := TInt | TUInt | TFloat.

Record Type_ : Set := mkType { code : TypeCode; bits : Z; lanes : Z }.

Definition Int (b l : Z) : Type_ := mkType TInt b l.
Definition UInt (b l : Z) : Type_ := mkType TUInt b l.
Definition Float (b l : Z) : Type_ := mkType TFloat b l.
Definition Bool (l : Z) : Type_ := UInt 1 l.

Definition TypeCode_eqb (c d : TypeCode) : bool :=
  match c, d with
  | TInt, TInt | TUInt, TUInt | TFloat, TFloat => true
  | _, _ => false
  end.

Definition is_int (t : Type_) : bool := TypeCode_eqb (code t) TInt.
Definition is_uint (t : Type_) : bool := TypeCode_eqb (code t) TUInt.
Definition is_float (t : Type_) : bool := TypeCode_eqb (code t) TFloat.
Definition is_bool (t : Type_) : bool := is_uint t && (bits t =? 1).
Definition with_lanes (t : Type_) (l : Z) : Type_ := mkType (code t) (bits t) l.
Definition element_of (t : Type_) : Type_ := with_lanes t 1.

(** [operator==] on types: all three fields equal. *)
Definition Type_eqb (s t : Type_) : bool :=
  TypeCode_eqb (code s) (code t) && (bits s =? bits t) && (lanes s =? lanes t).

(** Line 21. *)
Definition IsIndexType (type : Type_) : bool :=
  is_int type && (lanes type =? 1) && ((bits type =? 32) || (bits type =? 64)).

(* ================================================================== *)
(** * IR nodes *)

(** Modelled from the spec: the node kinds this file builds (sections 3 and
    6); the node hierarchy is declared in the IR headers. A node factory
    [ir::X::make] is the constructor [X]; the three literal factories also
    reduce the value to the width of the type (below). A factory validates
    its own arguments; where an operator of this file can hand it arguments
    it refuses, the refusal is modelled ([Cast_make], and [And_make],
    [Or_make], [Not_make] with the logical operators); elsewhere the
    operators establish what the factory asks for (two operands of one type
    after promotion) and the factory is the constructor. *)
Module ir.

(** A variable node has an identity of its own: two [Var x("x", t)] are
    two different nodes. [var_id] is that identity. *)
Record Var : Set := mkVar { name_hint : string; var_type : Type_; var_id : nat }.

Inductive CallType : Set := Extern | PureExtern | Halide | Intrinsic | PureIntrinsic.

(** The nodes. A commutative reducer holds its formals, its combining
    expressions and its identity elements; an iteration variable is a bound
    variable with its range, which this file only passes on. *)
Inductive Expr : Set :=
| IntImm (type : Type_) (value : Z)
| UIntImm (type : Type_) (value : Z)
| FloatImm (type : Type_) (value : float)
| VarExpr (v : Var)
| Cast (type : Type_) (value : Expr)
| Broadcast (value : Expr) (lanes : Z)
| Add (a b : Expr)
| Sub (a b : Expr)
| Mul (a b : Expr)
| Div (a b : Expr)
| Mod (a b : Expr)
| Min (a b : Expr)
| Max (a b : Expr)
| Call (type : Type_) (name : string) (args : list Expr) (call_type : CallType)
| Reduce (type : Type_) (combiner : CommReducer) (source : list Expr)
         (axis : list IterVar) (condition : Expr) (value_index : Z)
with CommReducer : Set :=
| CommReducerNode (lhs rhs : list Var) (result identity_element : list Expr)
with IterVar : Set :=
| IterVarNode (var : Var) (dom_min dom_extent : Expr).

(** [e.type()] *)
Fixpoint type_of (e : Expr) : Type_ :=
  match e with
  | IntImm t _ | UIntImm t _ | FloatImm t _ => t
  | VarExpr v => var_type v
  | Cast t _ => t
  | Broadcast v l => with_lanes (type_of v) l
  | Add a _ | Sub a _ | Mul a _ | Div a _ | Mod a _ | Min a _ | Max a _ => type_of a
  | Call t _ _ _ => t
  | Reduce t _ _ _ _ _ => t
  end.

(** The literal factories: the value is kept to the width of the type. *)
Definition IntImm_make (t : Type_) (value : Z) : Expr :=
  IntImm t (wrap_signed (bits t) value).

Definition UIntImm_make (t : Type_) (value : Z) : Expr :=
  UIntImm t (wrap_unsigned (bits t) value).

Definition FloatImm_make (t : Type_) (value : float) : Expr :=
  FloatImm t (if bits t =? 32 then round_to 24 128 value
              else if bits t =? 16 then round_to 11 16 value
              else value).

(** [Reduce::make]: the node takes the type of [source[value_index]]. *)
Definition Reduce_make (combiner : CommReducer) (source : list Expr)
    (axis : list IterVar) (condition : Expr) (value_index : Z) : Expr :=
  Reduce (type_of (nth (Z.to_nat value_index) source condition))
         combiner source axis condition value_index.

(** [e.as<IntImm>()], [e.as<UIntImm>()], [e.as<FloatImm>()]: the node when
    it is of that kind (its value is all the callers read), else null. *)
Definition as_IntImm (e : Expr) : option Z :=
  match e with IntImm _ v => Some v | _ => None end.
Definition as_UIntImm (e : Expr) : option Z :=
  match e with UIntImm _ v => Some v | _ => None end.
Definition as_FloatImm (e : Expr) : option float :=
  match e with FloatImm _ v => Some v | _ => None end.

(** Modelled from the spec: the intrinsic tags of section 6
    ([ir::Call::shift_right] and the like). *)
Definition Call_reinterpret : string := "reinterpret".
Definition Call_shift_right : string := "shift_right".
Definition Call_shift_left : string := "shift_left".
Definition Call_bitwise_and : string := "bitwise_and".
Definition Call_bitwise_or : string := "bitwise_or".
Definition Call_bitwise_xor : string := "bitwise_xor".
Definition Call_bitwise_not : string := "bitwise_not".

End ir.
Import ir.

(** A literal node. *)
Definition is_literal (e : Expr) : bool :=
  match e with
  | IntImm _ _ | UIntImm _ _ | FloatImm _ _ => true
  | _ => false
  end.

(** What the factories guarantee of a literal: its kind is that of its type,
    it is scalar, and an integer value lies in the range of its width. *)
Definition wf_literal (e : Expr) : bool :=
  match e with
  | IntImm t v =>
      is_int t && (lanes t =? 1) && (1 <=? bits t) && (bits t <=? 64)
      && (- 2 ^ (bits t - 1) <=? v) && (v <? 2 ^ (bits t - 1))
  | UIntImm t v =>
      is_uint t && (lanes t =? 1) && (1 <=? bits t) && (bits t <=? 64)
      && (0 <=? v) && (v <? 2 ^ bits t)
  | FloatImm t _ => is_float t && (lanes t =? 1)
  | _ => true
  end.

(* ================================================================== *)
(** * Constants *)

(** The value types [make_const] is instantiated at, with the native
    conversions ([static_cast]) to the three literal payloads. *)
Class ConstValue (V : Type) : Type := {
  to_int64 : V -> Z;
  to_uint64 : V -> Z;
  to_double : V -> float
}.

#[export] Instance int_ConstValue : ConstValue Z := {
  to_int64 v := wrap_signed 64 v;
  to_uint64 v := wrap_unsigned 64 v;
  to_double v := double_of_Z v
}.

#[export] Instance double_ConstValue : ConstValue float := {
  to_int64 f := int64_of_double f;
  to_uint64 f := uint64_of_double f;
  to_double f := f
}.

#[export] Instance bool_ConstValue : ConstValue bool := {
  to_int64 b := if b then 1 else 0;
  to_uint64 b := if b then 1 else 0;
  to_double b := if b then 1%float else 0%float
}.

(** Modelled from the spec: [make_const] and [make_zero] are declared in the
    operator header and not in this file. Section 4.3: a literal of the
    target type by native numeric conversion (truncation or widening per the
    kind and width of the target); a vector target is the broadcast of the
    scalar literal. *)
Definition MakeConstScalar {V : Type} `{ConstValue V} (t : Type_) (value : V) : Expr :=
  match code t with
  | TInt => IntImm_make t (to_int64 value)
  | TUInt => UIntImm_make t (to_uint64 value)
  | TFloat => FloatImm_make t (to_double value)
  end.

Definition make_const {V : Type} `{ConstValue V} (t : Type_) (value : V) : Expr :=
  if lanes t =? 1 then MakeConstScalar t value
  else Broadcast (MakeConstScalar (element_of t) value) (lanes t).

Definition make_zero (t : Type_) : Expr := make_const t 0.

(* ================================================================== *)
(** * Casts and type promotion *)

(** Modelled from the spec: [ir::Cast::make] validates its arguments
    (section 6) and refuses a change of the lane count, a violated
    invariant of section 7. *)
Definition Cast_make (t : Type_) (value : Expr) : Result Expr :=
  if lanes t =? lanes (type_of value) then Ok (Cast t value)
  else Error InvariantViolation.

(** Line 27. The file calls it with a type of the lane count of [value]
    only (on index types, on a promoted pair, and in line 67), where the
    factory accepts. *)
Definition SimpleCast (t : Type_) (value : Expr) : Expr :=
  if Type_eqb (type_of value) t then value else Cast t value.

(** Line 100. The two literal tests read [IntImm] first, then [FloatImm]. *)
Definition cast (t : Type_) (value : Expr) : Result Expr :=
  if Type_eqb (type_of value) t then Ok value
  else if lanes t =? 1 then
    match value with
    | IntImm _ v => Ok (make_const t v)
    | FloatImm _ v => Ok (make_const t v)
    | _ => Cast_make t value
    end
  else if lanes (type_of value) =? 1 then
    let vtype := element_of t in
    value <-
      (if negb (Type_eqb (type_of value) vtype) then
         match value with
         | IntImm _ v => Ok (make_const vtype v)
         | FloatImm _ v => Ok (make_const vtype v)
         | _ => Cast_make vtype value
         end
       else Ok value) ;;
    Ok (Broadcast value (lanes t))
  else if lanes (type_of value) =? lanes t then Cast_make t value
  else Error TypeMismatch.

(** Line 133. *)
Definition reinterpret (t : Type_) (value : Expr) : Expr :=
  if Type_eqb (type_of value) t then value
  else Call t Call_reinterpret [value] PureIntrinsic.

(** Line 33. The two operands are passed by reference and updated in place;
    the function returns the updated pair. *)
Definition BinaryOpMatchTypes (lhs rhs : Expr) : Result (Expr * Expr) :=
  if Type_eqb (type_of lhs) (type_of rhs) then Ok (lhs, rhs) else
  let ltype := type_of lhs in
  let rtype := type_of rhs in
  '(lhs, rhs) <-
    (if (lanes ltype =? 1) && negb (lanes rtype =? 1) then
       Ok (Broadcast lhs (lanes rtype), rhs)
     else if (lanes rtype =? 1) && negb (lanes ltype =? 1) then
       Ok (lhs, Broadcast rhs (lanes ltype))
     else if lanes ltype =? lanes rtype then Ok (lhs, rhs)
     else Error TypeMismatch) ;;
  if Type_eqb (type_of lhs) (type_of rhs) then Ok (lhs, rhs) else
  if negb (is_float (type_of lhs)) && is_float (type_of rhs) then
    lhs <- cast (type_of rhs) lhs ;; Ok (lhs, rhs)
  else if is_float (type_of lhs) && negb (is_float (type_of rhs)) then
    rhs <- cast (type_of lhs) rhs ;; Ok (lhs, rhs)
  else if (is_int (type_of lhs) && is_int (type_of rhs))
          || (is_uint (type_of lhs) && is_uint (type_of rhs)) then
    if bits (type_of lhs) <? bits (type_of rhs) then
      lhs <- cast (type_of rhs) lhs ;; Ok (lhs, rhs)
    else
      rhs <- cast (type_of lhs) rhs ;; Ok (lhs, rhs)
  else if (is_int (type_of lhs) && is_uint (type_of rhs))
          || (is_uint (type_of lhs) && is_int (type_of rhs)) then
    let bits := Z.max (bits (type_of lhs)) (bits (type_of rhs)) in
    let lhs := SimpleCast (Int bits (lanes (type_of lhs))) lhs in
    let rhs := SimpleCast (Int bits (lanes (type_of rhs))) rhs in
    Ok (lhs, rhs)
  else Error TypeMismatch.

(* ================================================================== *)
(** * The two constant-propagation macros *)

(** A macro body runs a sequence of [if (c) return e;] and checks:
    [Some r] is a return (or a failed check), [None] reaches the statement
    after the macro. *)
Notation "'when' c 'ret' e ;; k" := (if c then Some (Ok e) else k)
  (at level 10, c at level 99, e at level 99, k at level 200).
Notation "'check' c 'or_fail' e ;; k" := (if c then k else Some (Error e))
  (at level 10, c at level 99, e at level 99, k at level 200).

(** [p] as a condition, and [p->value] under it. *)
Definition has {A : Type} (p : option A) : bool :=
  match p with Some _ => true | None => false end.
Definition ival (p : option Z) : Z :=
  match p with Some v => v | None => 0 end.
Definition fval (p : option float) : float :=
  match p with Some v => v | None => 0%float end.

(** Line 150: promote first, then look for literals. [BODY] reads the
    promoted operands; [rest] is the statement after the macro. *)
Definition TVM_ARITH_CONST_PROPAGATION
    (BODY : Expr -> Expr -> option Z -> option Z -> option float -> option float
            -> option (Result Expr))
    (rest : Expr -> Expr -> Expr) (a b : Expr) : Result Expr :=
  '(a, b) <- BinaryOpMatchTypes a b ;;
  let pa := as_IntImm a in
  let pb := as_IntImm b in
  let fa := as_FloatImm a in
  let fb := as_FloatImm b in
  match BODY a b pa pb fa fb with
  | Some r => r
  | None => Ok (rest a b)
  end.

(** Line 138: the body runs on the operands as given, and only when both
    types are index types; promotion comes after it. *)
Definition TVM_INDEX_CONST_PROPAGATION
    (BODY : Expr -> Expr -> option Z -> option Z -> Type_ -> Type_
            -> option (Result Expr))
    (rest : Expr -> Expr -> Expr) (a b : Expr) : Result Expr :=
  let pa := as_IntImm a in
  let pb := as_IntImm b in
  let ta := type_of a in
  let tb := type_of b in
  match (if IsIndexType ta && IsIndexType tb then BODY a b pa pb ta tb else None) with
  | Some r => r
  | None => '(a, b) <- BinaryOpMatchTypes a b ;; Ok (rest a b)
  end.

(** [ta.bits() >= tb.bits() ? ta : tb] *)
Definition wider (ta tb : Type_) : Type_ := if bits ta >=? bits tb then ta else tb.

(* ================================================================== *)
(** * Arithmetic operators *)

Local Open Scope bool_scope.

(** Line 162, [operator+]. *)
Definition operator_add : Expr -> Expr -> Result Expr :=
  TVM_ARITH_CONST_PROPAGATION (fun a b pa pb fa fb =>
    let rtype := wider (type_of a) (type_of b) in
    when has pa && has pb ret IntImm_make rtype (int64.add (ival pa) (ival pb)) ;;
    when has pa && (ival pa =? 0) ret SimpleCast rtype b ;;
    when has pb && (ival pb =? 0) ret SimpleCast rtype a ;;
    when has fa && has fb ret FloatImm_make rtype (fval fa + fval fb)%float ;;
    when has fa && (fval fa =? 0)%float ret SimpleCast rtype b ;;
    when has fb && (fval fb =? 0)%float ret SimpleCast rtype a ;;
    None)
  Add.

(** Line 187, binary [operator-]. *)
Definition operator_sub : Expr -> Expr -> Result Expr :=
  TVM_ARITH_CONST_PROPAGATION (fun a b pa pb fa fb =>
    let rtype := wider (type_of a) (type_of b) in
    when has pa && has pb ret IntImm_make rtype (int64.sub (ival pa) (ival pb)) ;;
    when has pb && (ival pb =? 0) ret SimpleCast rtype a ;;
    when has fa && has fb ret FloatImm_make rtype (fval fa - fval fb)%float ;;
    when has fb && (fval fb =? 0)%float ret SimpleCast rtype a ;;
    None)
  Sub.

(** Line 177, unary [operator-]. *)
Definition operator_neg (a : Expr) : Result Expr :=
  let pa := as_IntImm a in
  let fa := as_FloatImm a in
  if has pa then Ok (IntImm_make (type_of a) (int64.neg (ival pa)))
  else if has fa then Ok (FloatImm_make (type_of a) (- fval fa)%float)
  else operator_sub (make_zero (type_of a)) a.

(** Line 200, [operator*]. *)
Definition operator_mul : Expr -> Expr -> Result Expr :=
  TVM_ARITH_CONST_PROPAGATION (fun a b pa pb fa fb =>
    let rtype := wider (type_of a) (type_of b) in
    when has pa && has pb ret IntImm_make rtype (int64.mul (ival pa) (ival pb)) ;;
    when has pa && (ival pa =? 1) ret SimpleCast rtype b ;;
    when has pa && (ival pa =? 0) ret SimpleCast rtype a ;;
    when has pb && (ival pb =? 1) ret SimpleCast rtype a ;;
    when has pb && (ival pb =? 0) ret SimpleCast rtype b ;;
    when has fa && has fb ret FloatImm_make rtype (fval fa * fval fb)%float ;;
    when has fa && (fval fa =? 1)%float ret SimpleCast rtype b ;;
    when has fa && (fval fa =? 0)%float ret SimpleCast rtype a ;;
    when has fb && (fval fb =? 1)%float ret SimpleCast rtype a ;;
    when has fb && (fval fb =? 0)%float ret SimpleCast rtype b ;;
    None)
  Mul.

(** Line 227, [operator/]. *)
Definition operator_div : Expr -> Expr -> Result Expr :=
  TVM_ARITH_CONST_PROPAGATION (fun a b pa pb fa fb =>
    let rtype := wider (type_of a) (type_of b) in
    when has pa && has pb && (ival pa >=? 0) && (ival pb >? 0)
      ret IntImm_make rtype (int64.div (ival pa) (ival pb)) ;;
    when has pa && (ival pa =? 0) ret SimpleCast rtype a ;;
    when has pb && (ival pb =? 1) ret SimpleCast rtype a ;;
    check negb (has pb && (ival pb =? 0)) or_fail DivideByZero ;;
    when has fa && has fb && negb (fval fb =? 0)%float
      ret FloatImm_make rtype (fval fa / fval fb)%float ;;
    when has fa && (fval fa =? 0)%float ret SimpleCast rtype a ;;
    when has fb && (fval fb =? 1)%float ret SimpleCast rtype a ;;
    check negb (has fb && (fval fb =? 0)%float) or_fail DivideByZero ;;
    None)
  Div.

(** Line 258, [operator%]. *)
Definition operator_mod : Expr -> Expr -> Result Expr :=
  TVM_INDEX_CONST_PROPAGATION (fun a b pa pb ta tb =>
    let rtype := wider ta tb in
    when has pa && has pb && (ival pa >=? 0) && (ival pb >? 0)
      ret IntImm_make rtype (int64.rem (ival pa) (ival pb)) ;;
    when has pa && (ival pa =? 0) ret SimpleCast rtype a ;;
    when has pb && (ival pb =? 1) ret make_zero rtype ;;
    check negb (has pb && (ival pb =? 0)) or_fail DivideByZero ;;
    None)
  Mod.

(* ================================================================== *)
(** * Shifts and bitwise operators *)

Definition intrinsic (name : string) (a b : Expr) : Expr :=
  Call (type_of a) name [a; b] PureIntrinsic.

(** Line 413, [operator>>]. *)
Definition operator_shr : Expr -> Expr -> Result Expr :=
  TVM_INDEX_CONST_PROPAGATION (fun a b pa pb ta tb =>
    let rtype := wider ta tb in
    when has pa && has pb ret IntImm_make rtype (int64.shr (ival pa) (ival pb)) ;;
    when has pb && (ival pb =? 0) ret SimpleCast rtype a ;;
    None)
  (intrinsic Call_shift_right).

(** Line 424, [operator<<]. *)
Definition operator_shl : Expr -> Expr -> Result Expr :=
  TVM_INDEX_CONST_PROPAGATION (fun a b pa pb ta tb =>
    let rtype := wider ta tb in
    when has pa && has pb ret IntImm_make rtype (int64.shl (ival pa) (ival pb)) ;;
    when has pb && (ival pb =? 0) ret SimpleCast rtype a ;;
    None)
  (intrinsic Call_shift_left).

(** Line 435, [operator&]. *)
Definition operator_bitand : Expr -> Expr -> Result Expr :=
  TVM_INDEX_CONST_PROPAGATION (fun a b pa pb ta tb =>
    let rtype := wider ta tb in
    when has pa && has pb ret IntImm_make rtype (int64.and (ival pa) (ival pb)) ;;
    None)
  (intrinsic Call_bitwise_and).

(** Line 443, [operator|]. *)
Definition operator_bitor : Expr -> Expr -> Result Expr :=
  TVM_INDEX_CONST_PROPAGATION (fun a b pa pb ta tb =>
    let rtype := wider ta tb in
    when has pa && has pb ret IntImm_make rtype (int64.or (ival pa) (ival pb)) ;;
    None)
  (intrinsic Call_bitwise_or).

(** Line 451, [operator^]. *)
Definition operator_bitxor : Expr -> Expr -> Result Expr :=
  TVM_INDEX_CONST_PROPAGATION (fun a b pa pb ta tb =>
    let rtype := wider ta tb in
    when has pa && has pb ret IntImm_make rtype (int64.xor (ival pa) (ival pb)) ;;
    None)
  (intrinsic Call_bitwise_xor).

(** Line 459, [operator~]. *)
Definition operator_bitnot (a : Expr) : Result Expr :=
  if is_int (type_of a) || is_uint (type_of a) then
    Ok (Call (type_of a) Call_bitwise_not [a] PureIntrinsic)
  else Error UnsupportedOperand.

(* ================================================================== *)
(** * Powers of two *)

(** Line 76. The loop of [ConstPowerHelper]: each round tests the low bit
    and halves [val], so it ends within [log2 val + 1] rounds; [fuel] counts
    the rounds left, and [None] is a loop cut short. [shift] is the cell the
    caller passes by pointer. *)
Fixpoint ConstPowerHelper_loop (fuel : nat) (val shift : Z) : option (bool * Z) :=
  match fuel with
  | O => None
  | S fuel =>
      if negb (val =? 0) then
        if negb (Z.land val 1 =? 0) then Some (val =? 1, shift)
        else ConstPowerHelper_loop fuel (Z.shiftr val 1) (shift + 1)
      else Some (true, shift)
  end.

Definition ConstPowerHelper (val shift : Z) : option (bool * Z) :=
  if val <=? 0 then Some (false, shift)
  else ConstPowerHelper_loop (S (Z.to_nat (Z.log2 val))) val 0.

(** Line 90. *)
Definition is_const_power_of_two_integer (x : Expr) (shift : Z) : option (bool * Z) :=
  match x with
  | IntImm _ value => ConstPowerHelper value shift
  | UIntImm _ value => ConstPowerHelper value shift
  | _ => Some (false, shift)
  end.

(* ================================================================== *)
(** * Reductions *)

(** Node identities come from a supply: the next unused identity is threaded
    through every builder that allocates variables. *)
Definition Fresh (A : Type) : Type := nat -> A * nat.

(** [Var x(name, t)] *)
Definition Var_make (name : string) (t : Type_) : Fresh Var :=
  fun next => (mkVar name t next, S next).

(** Modelled from the spec: [t.max()] and [t.min()], the greatest and the
    least representable value of a type (section 6), declared with the type
    descriptor and not in this file. A signed type of width [w] has the
    extremes [2^(w-1) - 1] and [- 2^(w-1)], an unsigned one [2^w - 1] and 0,
    a float type the greatest finite value of its format and its negation;
    the extreme of a vector type is the broadcast of that of its element
    type. *)
Definition float_max (bits : Z) : float :=
  if bits =? 16 then 65504%float
  else if bits =? 32 then 0x1.fffffep+127%float
  else 0x1.fffffffffffffp+1023%float.

Definition max_scalar (t : Type_) : Expr :=
  match code t with
  | TInt => IntImm_make t (2 ^ (bits t - 1) - 1)
  | TUInt => UIntImm_make t (2 ^ bits t - 1)
  | TFloat => FloatImm_make t (float_max (bits t))
  end.

Definition min_scalar (t : Type_) : Expr :=
  match code t with
  | TInt => IntImm_make t (- 2 ^ (bits t - 1))
  | TUInt => UIntImm_make t 0
  | TFloat => FloatImm_make t (- float_max (bits t))%float
  end.

Definition Type_max (t : Type_) : Expr :=
  if lanes t =? 1 then max_scalar t
  else Broadcast (max_scalar (element_of t)) (lanes t).

Definition Type_min (t : Type_) : Expr :=
  if lanes t =? 1 then min_scalar t
  else Broadcast (min_scalar (element_of t)) (lanes t).

(** Line 494. *)
Definition sum (source : Expr) (rdom : list IterVar) : Fresh Expr :=
  fun next =>
    let '(x, next) := Var_make "x" (type_of source) next in
    let '(y, next) := Var_make "y" (type_of source) next in
    let result := Add (VarExpr x) (VarExpr y) in
    let identity_element := make_zero (type_of source) in
    let combiner := CommReducerNode [x] [y] [result] [identity_element] in
    (Reduce_make combiner [source] rdom (make_const (Bool 1) true) 0, next).

(** Line 503, [max(Expr source, Array<IterVar> rdom)]: the identity element
    is [source.type().min()]. *)
Definition max (source : Expr) (rdom : list IterVar) : Fresh Expr :=
  fun next =>
    let '(x, next) := Var_make "x" (type_of source) next in
    let '(y, next) := Var_make "y" (type_of source) next in
    let result := Max (VarExpr x) (VarExpr y) in
    let identity_element := Type_min (type_of source) in
    let combiner := CommReducerNode [x] [y] [result] [identity_element] in
    (Reduce_make combiner [source] rdom (make_const (Bool 1) true) 0, next).

(** Line 512, [min(Expr source, Array<IterVar> rdom)]: the identity element
    is [source.type().max()]. *)
Definition min (source : Expr) (rdom : list IterVar) : Fresh Expr :=
  fun next =>
    let '(x, next) := Var_make "x" (type_of source) next in
    let '(y, next) := Var_make "y" (type_of source) next in
    let result := Min (VarExpr x) (VarExpr y) in
    let identity_element := Type_max (type_of source) in
    let combiner := CommReducerNode [x] [y] [result] [identity_element] in
    (Reduce_make combiner [source] rdom (make_const (Bool 1) true) 0, next).

(** Line 521. *)
Definition prod (source : Expr) (rdom : list IterVar) : Fresh Expr :=
  fun next =>
    let '(x, next) := Var_make "x" (type_of source) next in
    let '(y, next) := Var_make "y" (type_of source) next in
    let result := Mul (VarExpr x) (VarExpr y) in
    let identity_element := make_const (type_of source) 1 in
    let combiner := CommReducerNode [x] [y] [result] [identity_element] in
    (Reduce_make combiner [source] rdom (make_const (Bool 1) true) 0, next).

(* ================================================================== *)
(** * Named types and predicates of the statements *)

Definition i8 : Type_ := Int 8 1.
Definition i32 : Type_ := Int 32 1.
Definition i64 : Type_ := Int 64 1.
Definition u32 : Type_ := UInt 32 1.
Definition f32 : Type_ := Float 32 1.
Definition f64 : Type_ := Float 64 1.
Definition i32x4 : Type_ := Int 32 4.
Definition f64x4 : Type_ := Float 64 4.

(** An operand after one reconciliation step: the operand itself or a cast
    node over it. *)
Definition kept_or_cast (e e' : Expr) : Prop := e' = e \/ exists t, e' = Cast t e.

(** Two float operands of different widths: the kind combination that the
    last branch of [BinaryOpMatchTypes] refuses. *)
Definition float_width_clash (s t : Type_) : bool :=
  is_float s && is_float t && negb (bits s =? bits t).

(** A literal whose value is zero: [pa->value == 0] or [fa->value == 0]. *)
Definition zero_literal (e : Expr) : bool :=
  match e with
  | IntImm _ v => v =? 0
  | FloatImm _ f => (f =? 0)%float
  | _ => false
  end.

(** The value of a signed or unsigned integer literal. *)
Definition int_literal_value (x : Expr) : option Z :=
  match x with
  | IntImm _ v | UIntImm _ v => Some v
  | _ => None
  end.

(** The constant [z] of some type: a literal of value [z], or the broadcast
    of one. *)
Definition literal_value_is (z : Z) (e : Expr) : bool :=
  match e with
  | IntImm _ v | UIntImm _ v => v =? z
  | FloatImm _ f => (f =? double_of_Z z)%float
  | _ => false
  end.

Definition const_is (z : Z) (e : Expr) : bool :=
  match e with
  | Broadcast v _ => literal_value_is z v
  | _ => literal_value_is z e
  end.

(** The reduction node of a source over a domain, given the two formals, the
    combining node and the identity element: the shape all four builders
    share. *)
Definition reduction_of (source : Expr) (rdom : list IterVar) (x y : Var)
    (combine : Expr -> Expr -> Expr) (identity_element : Expr) : Expr :=
  Reduce (type_of source)
         (CommReducerNode [x] [y] [combine (VarExpr x) (VarExpr y)] [identity_element])
         [source] rdom (UIntImm (Bool 1) 1) 0.

(** The five binary operators of lines 413 to 457, by name, with the
    intrinsic each one calls. *)
Inductive BitOp : Set := Shr | Shl | BitAnd | BitOr | BitXor.

Definition bitop_apply (o : BitOp) : Expr -> Expr -> Result Expr :=
  match o with
  | Shr => operator_shr
  | Shl => operator_shl
  | BitAnd => operator_bitand
  | BitOr => operator_bitor
  | BitXor => operator_bitxor
  end.

Definition bitop_name (o : BitOp) : string :=
  match o with
  | Shr => Call_shift_right
  | Shl => Call_shift_left
  | BitAnd => Call_bitwise_and
  | BitOr => Call_bitwise_or
  | BitXor => Call_bitwise_xor
  end.

Definition is_shift (o : BitOp) : bool :=
  match o with
  | Shr | Shl => true
  | _ => false
  end.

(** The unfolded result of such an operator: the intrinsic call on the
    promoted operands. *)
Definition promoted_call (name : string) (a b : Expr) : Result Expr :=
  '(a, b) <- BinaryOpMatchTypes a b ;; Ok (intrinsic name a b).

(* ================================================================== *)
(** * Proof steps *)

(** Case analysis on every integer comparison in sight. *)
Ltac sign_cases :=
  repeat match goal with
    | |- context [?x >=? ?y] => rewrite (Z.geb_leb x y)
    | |- context [?x >? ?y] => rewrite (Z.gtb_ltb x y)
    | H : context [?x >=? ?y] |- _ => rewrite (Z.geb_leb x y) in H
    | H : context [?x >? ?y] |- _ => rewrite (Z.gtb_ltb x y) in H
    end;
  repeat match goal with
    | |- context [?x <=? ?y] => destruct (Z.leb_spec x y)
    | |- context [?x <? ?y] => destruct (Z.ltb_spec x y)
    | |- context [?x =? ?y] => destruct (Z.eqb_spec x y)
    | H : context [?x <=? ?y] |- _ => destruct (Z.leb_spec x y)
    | H : context [?x <? ?y] |- _ => destruct (Z.ltb_spec x y)
    | H : context [?x =? ?y] |- _ => destruct (Z.eqb_spec x y)
    end; cbn [andb] in *.

(* ================================================================== *)
(** * Further operators of the file *)

(** Line 277, [min(Expr a, Expr b)], and line 288, [max(Expr a, Expr b)]:
    the binary overloads of the two names, the reductions above being the
    other ones. [std::min(x, y)] is [y < x ? y : x] and [std::max(x, y)] is
    [x < y ? y : x]. *)
Definition min_expr : Expr -> Expr -> Result Expr :=
  TVM_ARITH_CONST_PROPAGATION (fun a b pa pb fa fb =>
    let rtype := wider (type_of a) (type_of b) in
    when has pa && has pb ret IntImm_make rtype (Z.min (ival pa) (ival pb)) ;;
    when has fa && has fb
      ret FloatImm_make rtype (if (fval fb <? fval fa)%float then fval fb else fval fa) ;;
    None)
  Min.

Definition max_expr : Expr -> Expr -> Result Expr :=
  TVM_ARITH_CONST_PROPAGATION (fun a b pa pb fa fb =>
    let rtype := wider (type_of a) (type_of b) in
    when has pa && has pb ret IntImm_make rtype (Z.max (ival pa) (ival pb)) ;;
    when has fa && has fb
      ret FloatImm_make rtype (if (fval fa <? fval fb)%float then fval fb else fval fa) ;;
    None)
  Max.

(** Modelled from the spec: the tag for if-then-else of section 6
    ([ir::intrinsic::tvm_if_then_else]). *)
Definition intrinsic_tvm_if_then_else : string := "tvm_if_then_else".

(** Line 299. [CHECK(cond.type() == Bool(1))] raises [UnsupportedOperand];
    the two values are promoted before the condition is read. *)
Definition if_then_else (cond true_value false_value : Expr) : Result Expr :=
  if negb (Type_eqb (type_of cond) (Bool 1)) then Error UnsupportedOperand else
  '(true_value, false_value) <- BinaryOpMatchTypes true_value false_value ;;
  match cond with
  | UIntImm _ value => if negb (value =? 0) then Ok true_value else Ok false_value
  | IntImm _ value => if negb (value =? 0) then Ok true_value else Ok false_value
  | _ => Ok (Call (type_of true_value) intrinsic_tvm_if_then_else
               [cond; true_value; false_value] PureIntrinsic)
  end.

(** Line 464. [CHECK(x.type().is_float())] raises [UnsupportedOperand]. *)
Definition pow (x y : Expr) : Result Expr :=
  '(x, y) <- BinaryOpMatchTypes x y ;;
  if is_float (type_of x) then Ok (Call (type_of x) "pow" [x; y] PureIntrinsic)
  else Error UnsupportedOperand.

(** Line 530. *)
Definition fmod (x y : Expr) : Result Expr :=
  '(x, y) <- BinaryOpMatchTypes x y ;;
  if is_float (type_of x) then Ok (Call (type_of x) "fmod" [x; y] PureIntrinsic)
  else Error UnsupportedOperand.

(* ================================================================== *)
(** * Promotion read off the types *)

(** The kind and width reconciliation of lines 51 to 72 on two types of one
    lane count: the type both operands end with, [None] for the last
    branch. *)
Definition reconciled_type (s t : Type_) : option Type_ :=
  if Type_eqb s t then Some s
  else if negb (is_float s) && is_float t then Some t
  else if is_float s && negb (is_float t) then Some s
  else if (is_int s && is_int t) || (is_uint s && is_uint t) then
    (if bits s <? bits t then Some t else Some s)
  else if (is_int s && is_uint t) || (is_uint s && is_int t) then
    Some (Int (Z.max (bits s) (bits t)) (lanes s))
  else None.

(** The lane reconciliation of lines 37 to 44: the common lane count, [None]
    for the failed check. *)
Definition reconciled_lanes (s t : Type_) : option Z :=
  if (lanes s =? 1) && negb (lanes t =? 1) then Some (lanes t)
  else if (lanes t =? 1) && negb (lanes s =? 1) then Some (lanes s)
  else if lanes s =? lanes t then Some (lanes s)
  else None.

(** The type two operands of types [s] and [t] are promoted to, [None]
    where promotion fails. *)
Definition promoted_type (s t : Type_) : option Type_ :=
  if Type_eqb s t then Some s
  else match reconciled_lanes s t with
       | Some L => reconciled_type (with_lanes s L) (with_lanes t L)
       | None => None
       end.

(* ================================================================== *)
(** * The operators by name *)

(** The six operators built on the arithmetic macro. *)
Inductive ArithOp : Set := OpAdd | OpSub | OpMul | OpDiv | OpMin | OpMax.

Definition arith_apply (o : ArithOp) : Expr -> Expr -> Result Expr :=
  match o with
  | OpAdd => operator_add
  | OpSub => operator_sub
  | OpMul => operator_mul
  | OpDiv => operator_div
  | OpMin => min_expr
  | OpMax => max_expr
  end.

(** The node each of the six builds when nothing folds. *)
Definition arith_node (o : ArithOp) : Expr -> Expr -> Expr :=
  match o with
  | OpAdd => Add
  | OpSub => Sub
  | OpMul => Mul
  | OpDiv => Div
  | OpMin => Min
  | OpMax => Max
  end.

(** The literals the two macros look for: [as<IntImm>()] and
    [as<FloatImm>()]. An unsigned literal is none of them. *)
Definition foldable (e : Expr) : bool := has (as_IntImm e) || has (as_FloatImm e).

(* ================================================================== *)
(** * Comparisons, logical operators and absolute value *)

(** [UIntImm::make(UInt(1), c)] on a C++ [bool]. *)
Definition bool_literal (c : bool) : Expr := UIntImm_make (UInt 1 1) (if c then 1 else 0).

Section Comparisons.

(** The factories of the six comparison nodes ([ir::GT::make] and the like)
    are the collaborator's and are taken as given. On doubles [x > y] is
    [y < x] and [x >= y] is [y <= x]. *)
Variables GT_make GE_make LT_make LE_make EQ_make NE_make : Expr -> Expr -> Expr.

(** Line 330, [operator>]. *)
Definition operator_gt : Expr -> Expr -> Result Expr :=
  TVM_ARITH_CONST_PROPAGATION (fun a b pa pb fa fb =>
    when has pa && has pb ret bool_literal (ival pa >? ival pb) ;;
    when has fa && has fb ret bool_literal (fval fb <? fval fa)%float ;;
    None)
  GT_make.

(** Line 338, [operator>=]. *)
Definition operator_ge : Expr -> Expr -> Result Expr :=
  TVM_ARITH_CONST_PROPAGATION (fun a b pa pb fa fb =>
    when has pa && has pb ret bool_literal (ival pa >=? ival pb) ;;
    when has fa && has fb ret bool_literal (fval fb <=? fval fa)%float ;;
    None)
  GE_make.

(** Line 346, [operator<]. *)
Definition operator_lt : Expr -> Expr -> Result Expr :=
  TVM_ARITH_CONST_PROPAGATION (fun a b pa pb fa fb =>
    when has pa && has pb ret bool_literal (ival pa <? ival pb) ;;
    when has fa && has fb ret bool_literal (fval fa <? fval fb)%float ;;
    None)
  LT_make.

(** Line 354, [operator<=]. *)
Definition operator_le : Expr -> Expr -> Result Expr :=
  TVM_ARITH_CONST_PROPAGATION (fun a b pa pb fa fb =>
    when has pa && has pb ret bool_literal (ival pa <=? ival pb) ;;
    when has fa && has fb ret bool_literal (fval fa <=? fval fb)%float ;;
    None)
  LE_make.

(** Line 362, [operator==]. *)
Definition operator_eq : Expr -> Expr -> Result Expr :=
  TVM_ARITH_CONST_PROPAGATION (fun a b pa pb fa fb =>
    when has pa && has pb ret bool_literal (ival pa =? ival pb) ;;
    when has fa && has fb ret bool_literal (fval fa =? fval fb)%float ;;
    None)
  EQ_make.

(** Line 370, [operator!=]. *)
Definition operator_ne : Expr -> Expr -> Result Expr :=
  TVM_ARITH_CONST_PROPAGATION (fun a b pa pb fa fb =>
    when has pa && has pb ret bool_literal (negb (ival pa =? ival pb)) ;;
    when has fa && has fb ret bool_literal (negb (fval fa =? fval fb)%float) ;;
    None)
  NE_make.

End Comparisons.

Section Logical.

(** The nodes [And], [Or] and [Not] are taken as given. Modelled from the
    spec: their factories validate their arguments (section 6), [And] and
    [Or] wanting two boolean operands of one type and [Not] a boolean
    operand; a refused argument is a violated invariant of section 7. *)
Variables And_node Or_node : Expr -> Expr -> Expr.
Variable Not_node : Expr -> Expr.


Definition Or_make (a b : Expr) : Result Expr :=
  if is_bool (type_of a) && is_bool (type_of b) && Type_eqb (type_of a) (type_of b)
  then Ok (Or_node a b) else Error InvariantViolation.

Definition Not_make (a : Expr) : Result Expr :=
  if is_bool (type_of a) then Ok (Not_node a) else Error InvariantViolation.


(** Line 391, [operator||]. *)
Definition operator_or (a b : Expr) : Result Expr :=
  match
    (if is_bool (type_of a) && is_bool (type_of b) then
       let pa := as_UIntImm a in
       let pb := as_UIntImm b in
       if has pa && negb (ival pa =? 0) then Some a
       else if has pa && (ival pa =? 0) then Some b
       else if has pb && negb (ival pb =? 0) then Some b
       else if has pb && (ival pb =? 0) then Some a
       else None
     else None)
  with
  | Some r => Ok r
  | None => Or_make a b
  end.

(** Line 404, [operator!]. *)
Definition operator_not (a : Expr) : Result Expr :=
  let pa := as_UIntImm a in
  if has pa then Ok (bool_literal (ival pa =? 0))
  else Not_make a.

End Logical.

(** [std::abs] on an [int64_t]. *)
Definition int64_abs (a : Z) : Z := wrap_signed 64 (Z.abs a).

Section Abs.

(** [ir::GE::make] and [ir::Select::make], taken as given. *)
Variable GE_make : Expr -> Expr -> Expr.
Variable Select_make : Expr -> Expr -> Expr -> Expr.

(** Line 470. The last branch, for a type that is neither signed, float nor
    unsigned, logs a fatal diagnostic. *)
Definition abs (x : Expr) : Result Expr :=
  if is_int (type_of x) then
    let px := as_IntImm x in
    if has px then Ok (IntImm_make (type_of x) (int64_abs (ival px)))
    else
      c <- operator_ge GE_make x (make_zero (type_of x)) ;;
      n <- operator_neg x ;;
      Ok (Select_make c x n)
  else if is_float (type_of x) then
    let fx := as_FloatImm x in
    if has fx then Ok (FloatImm_make (type_of x) (PrimFloat.abs (fval fx)))
    else Ok (Call (type_of x) "fabs" [x] PureIntrinsic)
  else if is_uint (type_of x) then Ok x
  else Error UnsupportedOperand.

End Abs.

(** The six comparisons by name, with the relation each one decides on two
    integers. *)
Inductive CmpOp : Set := CmpGT | CmpGE | CmpLT | CmpLE | CmpEQ | CmpNE.

Definition cmp_apply (node : Expr -> Expr -> Expr) (o : CmpOp)
    : Expr -> Expr -> Result Expr :=
  match o with
  | CmpGT => operator_gt node
  | CmpGE => operator_ge node
  | CmpLT => operator_lt node
  | CmpLE => operator_le node
  | CmpEQ => operator_eq node
  | CmpNE => operator_ne node
  end.

Definition cmp_holds (o : CmpOp) (a b : Z) : bool :=
  match o with
  | CmpGT => a >? b
  | CmpGE => a >=? b
  | CmpLT => a <? b
  | CmpLE => a <=? b
  | CmpEQ => a =? b
  | CmpNE => negb (a =? b)
  end.

(** A stand-in for a comparison or logical node in the instances below: a
    call of boolean type on the operands. *)
Definition node_call (name : string) (a b : Expr) : Expr :=
  Call (Bool (lanes (type_of a))) name [a; b] PureIntrinsic.

(* ================================================================== *)
(** * Reference arithmetic of the conversions *)

(** The notions the conversions of literals are stated against: plain
    integer arithmetic on the sign, mantissa and exponent of a double
    ([Prim2SF]), not the conversion functions above. *)

(** The binary64 representation of an integer of at most 53 digits: the
    mantissa shifted to 53 digits. *)
Definition exact53 (s : bool) (m : positive) : spec_float :=
  let d := 53 - Zpos (digits2_pos m) in
  S754_finite s (Pos.shiftl m (Z.to_N d)) (- d).

(** [a] rounded to a multiple of [2^n]: the nearest one, and of two equally
    near the one whose quotient by [2^n] is even. *)
Definition nearest_even (n a : Z) : Z :=
  let q := a / 2 ^ n in
  let r := a mod 2 ^ n in
  (if (2 * r <? 2 ^ n) || ((2 * r =? 2 ^ n) && Z.even q) then q else q + 1) * 2 ^ n.

(** [f] is the finite double of sign [s] and magnitude [a * 2^e]. *)
Definition float_is (f : float) (s : bool) (a e : Z) : Prop :=
  exists m e', Prim2SF f = S754_finite s m e'
    /\ Zpos m * 2 ^ (e' - Z.min e e') = a * 2 ^ (e - Z.min e e').

(** The integer part of the number of sign [s] and magnitude [m * 2^e]. *)
Definition integer_part (s : bool) (m : positive) (e : Z) : Z :=
  let a := if 0 <=? e then Zpos m * 2 ^ e else Zpos m / 2 ^ (- e) in
  if s then - a else a.

(** The digits of the significand that [FloatImm::make] keeps for a type:
    those of [float], of the half-precision type, or of [double]. *)
Definition float_digits (t : Type_) : Z :=
  if bits t =? 32 then 24 else if bits t =? 16 then 11 else 53.

(* ================================================================== *)
(** * Basic facts *)

Lemma TypeCode_eqb_eq (c d : TypeCode) : TypeCode_eqb c d = true <-> c = d.
Proof. destruct c, d; simpl; split; congruence. Qed.

Lemma Type_eqb_eq (s t : Type_) : Type_eqb s t = true <-> s = t.
Proof.
  destruct s as [c1 b1 l1], t as [c2 b2 l2]; unfold Type_eqb; simpl.
  rewrite !andb_true_iff, TypeCode_eqb_eq, !Z.eqb_eq.
  split.
  - intros [[-> ->] ->]; reflexivity.
  - intros E; injection E as -> -> ->; auto.
Qed.

Lemma Type_eqb_refl (t : Type_) : Type_eqb t t = true.
Proof. apply Type_eqb_eq; reflexivity. Qed.

Lemma Type_eqb_neq (s t : Type_) : Type_eqb s t = false <-> s <> t.
Proof.
  rewrite <- Type_eqb_eq. destruct (Type_eqb s t); split; congruence.
Qed.

Lemma SimpleCast_same (t : Type_) (e : Expr) : type_of e = t -> SimpleCast t e = e.
Proof. intros <-; unfold SimpleCast; now rewrite Type_eqb_refl. Qed.

Lemma type_of_SimpleCast (t : Type_) (e : Expr) : type_of (SimpleCast t e) = t.
Proof.
  unfold SimpleCast; destruct (Type_eqb (type_of e) t) eqn:E; [|reflexivity].
  now apply Type_eqb_eq.
Qed.

Lemma wider_same (t : Type_) : wider t t = t.
Proof. unfold wider; now destruct (bits t >=? bits t). Qed.

Lemma BinaryOpMatchTypes_same (a b : Expr) :
  type_of a = type_of b -> BinaryOpMatchTypes a b = Ok (a, b).
Proof.
  intros E; unfold BinaryOpMatchTypes; now rewrite E, Type_eqb_refl.
Qed.

(** The cast factory accepts a value of the lane count of the type. *)
Lemma Cast_make_lanes (t : Type_) (v : Expr) :
  lanes (type_of v) = lanes t -> Cast_make t v = Ok (Cast t v).
Proof. intros H; unfold Cast_make; now rewrite H, Z.eqb_refl. Qed.

(** A cast between two different vector types of equal lane count builds a
    cast node. *)
Lemma cast_vector (t : Type_) (v : Expr) :
  type_of v <> t -> lanes t <> 1 -> lanes (type_of v) = lanes t ->
  cast t v = Ok (Cast t v).
Proof.
  intros Hne Hl Hv; unfold cast.
  apply Type_eqb_neq in Hne; rewrite Hne.
  apply Z.eqb_neq in Hl; rewrite Hl, Hv, Hl, Z.eqb_refl.
  now apply Cast_make_lanes.
Qed.

(* ================================================================== *)
(** * Type promotion *)

(** In the mixed signed and unsigned case the kinds differ, so the types
    do. *)
Lemma mixed_sign_types_differ (s t : Type_) :
  (is_int s = true /\ is_uint t = true) \/ (is_uint s = true /\ is_int t = true) ->
  Type_eqb s t = false.
Proof.
  unfold Type_eqb, is_int, is_uint.
  destruct (code s), (code t); simpl; intuition congruence.
Qed.

(** C4. Promoting a signed-int operand with an unsigned-int operand of the
    same lane count, in either order, casts both to the signed-int type of
    the larger of the two widths and of that lane count; the common type is
    signed, never unsigned. *)
Theorem promote_int_uint_signed (a b : Expr) :
  (is_int (type_of a) = true /\ is_uint (type_of b) = true)
  \/ (is_uint (type_of a) = true /\ is_int (type_of b) = true) ->
  lanes (type_of a) = lanes (type_of b) ->
  let t := Int (Z.max (bits (type_of a)) (bits (type_of b))) (lanes (type_of a)) in
  BinaryOpMatchTypes a b = Ok (SimpleCast t a, SimpleCast t b)
  /\ type_of (SimpleCast t a) = t
  /\ type_of (SimpleCast t b) = t
  /\ is_int t = true /\ is_uint t = false
  /\ bits t = Z.max (bits (type_of a)) (bits (type_of b))
  /\ lanes t = lanes (type_of a).
Proof.
  intros Hk Hl t.
  pose proof (mixed_sign_types_differ _ _ Hk) as Hne.
  repeat split; try apply type_of_SimpleCast.
  unfold BinaryOpMatchTypes.
  rewrite Hne, Hl, Z.eqb_refl, andb_negb_r; simpl.
  rewrite Hne.
  subst t; rewrite Hl.
  unfold is_int, is_uint, is_float in *.
  destruct (code (type_of a)), (code (type_of b)); simpl in *; intuition congruence.
Qed.

(** The instance of the specification: [int32] met with [uint32] gives
    [int32] on both sides. *)
Lemma promote_int_uint_signed_witness :
  is_int (type_of (IntImm i32 5)) = true
  /\ is_uint (type_of (UIntImm u32 7)) = true
  /\ lanes (type_of (IntImm i32 5)) = lanes (type_of (UIntImm u32 7))
  /\ BinaryOpMatchTypes (IntImm i32 5) (UIntImm u32 7)
     = Ok (IntImm i32 5, Cast i32 (UIntImm u32 7))
  /\ type_of (Cast i32 (UIntImm u32 7)) = i32.
Proof.
  split; [reflexivity|]. split; [reflexivity|]. split; [reflexivity|].
  destruct (promote_int_uint_signed (IntImm i32 5) (UIntImm u32 7)
              (or_introl (conj eq_refl eq_refl)) eq_refl) as (E & _ & Hb & _).
  split; [exact E | exact Hb].
Defined.

Lemma SimpleCast_cases (t : Type_) (e : Expr) : kept_or_cast e (SimpleCast t e).
Proof.
  unfold SimpleCast, kept_or_cast.
  destruct (Type_eqb (type_of e) t); [left | right; exists t]; reflexivity.
Qed.

Lemma kept_or_cast_refl (e : Expr) : kept_or_cast e e.
Proof. now left. Qed.

Lemma kept_or_cast_Cast (t : Type_) (e : Expr) : kept_or_cast e (Cast t e).
Proof. right; now exists t. Qed.

Create HintDb promote.
#[local] Hint Resolve SimpleCast_cases kept_or_cast_refl kept_or_cast_Cast : promote.

(** Types of one kind and one lane count differ in their widths. *)
Lemma same_kind_bits_differ (s t : Type_) :
  s <> t -> code s = code t -> lanes s = lanes t -> bits s <> bits t.
Proof.
  destruct s, t; simpl; intros Hne -> -> ->; now apply Hne.
Qed.

(** Promotion of two vectors of equal lane count: only the kinds and widths
    are reconciled, by cast nodes. *)
Lemma promote_vectors (a b : Expr) :
  lanes (type_of a) = lanes (type_of b) -> lanes (type_of a) <> 1 ->
  if float_width_clash (type_of a) (type_of b)
  then BinaryOpMatchTypes a b = Error TypeMismatch
  else exists a' b',
      BinaryOpMatchTypes a b = Ok (a', b')
      /\ kept_or_cast a a' /\ kept_or_cast b b'
      /\ type_of a' = type_of b'
      /\ lanes (type_of a') = lanes (type_of a).
Proof.
  intros Hl Hv.
  assert (Hv' : lanes (type_of b) <> 1) by congruence.
  unfold BinaryOpMatchTypes, float_width_clash.
  destruct (Type_eqb (type_of a) (type_of b)) eqn:E.
  - apply Type_eqb_eq in E. rewrite <- E, Z.eqb_refl, andb_false_r.
    exists a, b; repeat split; auto with promote.
  - rewrite Hl, Z.eqb_refl.
    apply Z.eqb_neq in Hv'. rewrite Hv'; simpl. rewrite E.
    apply Z.eqb_neq in Hv'.
    pose proof E as Hne; apply Type_eqb_neq in Hne.
    assert (Hne' : type_of b <> type_of a) by congruence.
    pose proof (same_kind_bits_differ _ _ Hne) as Hbits.
    assert (Hca : cast (type_of b) a = Ok (Cast (type_of b) a))
      by (apply cast_vector; auto).
    assert (Hcb : cast (type_of a) b = Ok (Cast (type_of a) b))
      by (apply cast_vector; auto; congruence).
    unfold is_float, is_int, is_uint.
    destruct (code (type_of a)) eqn:Ca, (code (type_of b)) eqn:Cb; simpl.
    all: try (destruct (bits (type_of a) <? bits (type_of b))).
    all: try (rewrite Hca; simpl; exists (Cast (type_of b) a), b;
              repeat split; simpl; auto with promote; congruence).
    all: try (rewrite Hcb; simpl; exists a, (Cast (type_of a) b);
              repeat split; simpl; auto with promote; congruence).
    all: try (eexists _, _; split; [reflexivity|];
              rewrite !type_of_SimpleCast; repeat split; auto with promote;
              simpl; congruence).
    all: specialize (Hbits eq_refl Hl); apply Z.eqb_neq in Hbits.
    all: rewrite Hbits; reflexivity.
Qed.

(** A scalar met with a vector is broadcast first; the rest of the promotion
    is that of the two vectors. *)
Lemma promote_broadcast_l (a b : Expr) (L : Z) :
  lanes (type_of a) = 1 -> lanes (type_of b) = L -> L <> 1 ->
  BinaryOpMatchTypes a b = BinaryOpMatchTypes (Broadcast a L) b.
Proof.
  intros Ha Hb HL.
  assert (E : Type_eqb (type_of a) (type_of b) = false).
  { apply Type_eqb_neq; intros E; rewrite E in Ha; congruence. }
  apply Z.eqb_neq in HL.
  unfold BinaryOpMatchTypes at 1; rewrite E, Ha, Hb, HL; simpl.
  unfold BinaryOpMatchTypes; simpl.
  destruct (Type_eqb (with_lanes (type_of a) L) (type_of b)) eqn:E'; [reflexivity|].
  rewrite Hb, HL, Z.eqb_refl; simpl. now rewrite E', Hb.
Qed.

Lemma promote_broadcast_r (a b : Expr) (L : Z) :
  lanes (type_of b) = 1 -> lanes (type_of a) = L -> L <> 1 ->
  BinaryOpMatchTypes a b = BinaryOpMatchTypes a (Broadcast b L).
Proof.
  intros Hb Ha HL.
  assert (E : Type_eqb (type_of a) (type_of b) = false).
  { apply Type_eqb_neq; intros E; rewrite <- E in Hb; congruence. }
  apply Z.eqb_neq in HL.
  unfold BinaryOpMatchTypes at 1; rewrite E, Ha, Hb, HL; simpl.
  unfold BinaryOpMatchTypes; simpl.
  destruct (Type_eqb (type_of a) (with_lanes (type_of b) L)) eqn:E'; [reflexivity|].
  rewrite Ha, HL, Z.eqb_refl; simpl. now rewrite E', Ha.
Qed.

(** C8, as amended. Promotion leaves two operands of equal types as they
    are. A scalar met with an operand of [L > 1] lanes is broadcast to [L]
    lanes; promotion then fails with TypeMismatch when the two are floats of
    different widths, and otherwise returns two operands of one type with
    [L] lanes each, the broadcast and the vector, each as it is or under a
    cast node. Two vectors of different lane counts fail with
    TypeMismatch. *)
Theorem promote_lanes (a b : Expr) :
  (type_of a = type_of b -> BinaryOpMatchTypes a b = Ok (a, b))
  /\ (forall L, 1 < L -> lanes (type_of a) = 1 -> lanes (type_of b) = L ->
      if float_width_clash (type_of a) (type_of b)
      then BinaryOpMatchTypes a b = Error TypeMismatch
      else exists a' b',
          BinaryOpMatchTypes a b = Ok (a', b')
          /\ kept_or_cast (Broadcast a L) a' /\ kept_or_cast b b'
          /\ type_of a' = type_of b'
          /\ lanes (type_of a') = L /\ lanes (type_of b') = L)
  /\ (forall L, 1 < L -> lanes (type_of b) = 1 -> lanes (type_of a) = L ->
      if float_width_clash (type_of a) (type_of b)
      then BinaryOpMatchTypes a b = Error TypeMismatch
      else exists a' b',
          BinaryOpMatchTypes a b = Ok (a', b')
          /\ kept_or_cast a a' /\ kept_or_cast (Broadcast b L) b'
          /\ type_of a' = type_of b'
          /\ lanes (type_of a') = L /\ lanes (type_of b') = L)
  /\ (1 < lanes (type_of a) -> 1 < lanes (type_of b) ->
      lanes (type_of a) <> lanes (type_of b) ->
      BinaryOpMatchTypes a b = Error TypeMismatch).
Proof.
  split; [apply BinaryOpMatchTypes_same|].
  split; [|split].
  - intros L HL Ha Hb.
    rewrite (promote_broadcast_l a b L) by (auto; lia).
    pose proof (promote_vectors (Broadcast a L) b) as H.
    simpl in H. specialize (H (eq_sym Hb) ltac:(lia)).
    change (float_width_clash (with_lanes (type_of a) L) (type_of b))
      with (float_width_clash (type_of a) (type_of b)) in H.
    destruct (float_width_clash (type_of a) (type_of b)); [exact H|].
    destruct H as (a' & b' & E & Ka & Kb & Ht & Hl).
    exists a', b'; repeat split; auto; congruence.
  - intros L HL Hb Ha.
    rewrite (promote_broadcast_r a b L) by (auto; lia).
    pose proof (promote_vectors a (Broadcast b L)) as H.
    simpl in H. specialize (H Ha ltac:(lia)).
    change (float_width_clash (type_of a) (with_lanes (type_of b) L))
      with (float_width_clash (type_of a) (type_of b)) in H.
    destruct (float_width_clash (type_of a) (type_of b)); [exact H|].
    destruct H as (a' & b' & E & Ka & Kb & Ht & Hl).
    exists a', b'; repeat split; auto; congruence.
  - intros Ha Hb Hne.
    unfold BinaryOpMatchTypes.
    assert (E : Type_eqb (type_of a) (type_of b) = false).
    { apply Type_eqb_neq; intros E; apply Hne; now rewrite E. }
    rewrite E.
    replace (lanes (type_of a) =? 1) with false by (symmetry; apply Z.eqb_neq; lia).
    replace (lanes (type_of b) =? 1) with false by (symmetry; apply Z.eqb_neq; lia).
    apply Z.eqb_neq in Hne; rewrite Hne; reflexivity.
Qed.

(** The instance of the specification: a scalar [int32] literal met with a
    4-lane [int32] variable. *)
Lemma promote_lanes_witness :
  exists a' b',
    BinaryOpMatchTypes (IntImm i32 3) (VarExpr (mkVar "v" i32x4 0)) = Ok (a', b')
    /\ kept_or_cast (Broadcast (IntImm i32 3) 4) a'
    /\ kept_or_cast (VarExpr (mkVar "v" i32x4 0)) b'
    /\ type_of a' = type_of b'
    /\ lanes (type_of a') = 4 /\ lanes (type_of b') = 4.
Proof.
  exact (proj1 (proj2 (promote_lanes (IntImm i32 3) (VarExpr (mkVar "v" i32x4 0))))
               4 eq_refl eq_refl eq_refl).
Defined.

(** C8, the claim as stated fails: a scalar [float32] met with a 4-lane
    [float64] has no promoted pair, promotion fails after the broadcast. *)
Lemma promote_lanes_counterexample :
  lanes (type_of (VarExpr (mkVar "x" f32 0))) = 1
  /\ lanes (type_of (VarExpr (mkVar "y" f64x4 1))) = 4
  /\ BinaryOpMatchTypes (VarExpr (mkVar "x" f32 0)) (VarExpr (mkVar "y" f64x4 1))
     = Error TypeMismatch.
Proof. repeat split. Qed.

(* ================================================================== *)
(** * Literals and the macros *)

Lemma as_IntImm_Some (x : Expr) (v : Z) :
  as_IntImm x = Some v -> x = IntImm (type_of x) v.
Proof. destruct x; simpl; congruence. Qed.

Lemma pow2_le_pow2 (m n : Z) : 0 <= m <= n -> 2 ^ m <= 2 ^ n.
Proof. intros; apply Z.pow_le_mono_r; lia. Qed.

(** A value in the range of a width is its own two's complement reading. *)
Lemma wrap_signed_id (w v : Z) :
  1 <= w -> - 2 ^ (w - 1) <= v < 2 ^ (w - 1) -> wrap_signed w v = v.
Proof.
  intros Hw Hv; unfold wrap_signed.
  assert (E : 2 ^ w = 2 * 2 ^ (w - 1)).
  { replace w with (Z.succ (w - 1)) at 1 by lia. apply Z.pow_succ_r; lia. }
  rewrite Z.mod_small by lia. lia.
Qed.

Lemma wrap_signed_0 (w : Z) : wrap_signed w 0 = 0.
Proof.
  unfold wrap_signed; simpl.
  destruct (Z.le_gt_cases 1 w) as [Hw | Hw].
  - assert (E : 2 ^ w = 2 * 2 ^ (w - 1)).
    { replace w with (Z.succ (w - 1)) at 1 by lia. apply Z.pow_succ_r; lia. }
    assert (0 < 2 ^ (w - 1)) by (apply Z.pow_pos_nonneg; lia).
    rewrite Z.mod_small by lia. lia.
  - rewrite (Z.pow_neg_r 2 (w - 1)) by lia. rewrite Zmod_0_l. reflexivity.
Qed.

Lemma wf_IntImm (t : Type_) (v : Z) :
  wf_literal (IntImm t v) = true ->
  is_int t = true /\ lanes t = 1 /\ 1 <= bits t <= 64
  /\ - 2 ^ (bits t - 1) <= v < 2 ^ (bits t - 1).
Proof.
  simpl; rewrite !andb_true_iff, Z.eqb_eq, !Z.leb_le, Z.ltb_lt; tauto.
Qed.

(** A literal in range is what either factory rebuilds from its value, also
    after a turn through [int64_t]. *)
Lemma IntImm_make_wf (t : Type_) (v : Z) :
  wf_literal (IntImm t v) = true -> IntImm_make t (wrap_signed 64 v) = IntImm t v.
Proof.
  intros H; apply wf_IntImm in H; destruct H as (_ & _ & Hb & Hv).
  unfold IntImm_make.
  assert (2 ^ (bits t - 1) <= 2 ^ 63) by (apply (pow2_le_pow2 (bits t - 1) 63); lia).
  rewrite (wrap_signed_id 64) by (simpl; lia).
  now rewrite wrap_signed_id by lia.
Qed.

Lemma IntImm_make_0 (t : Type_) : IntImm_make t 0 = IntImm t 0.
Proof. unfold IntImm_make; now rewrite wrap_signed_0. Qed.

(** With operands of one type the arithmetic macro runs its body on them as
    they are. *)
Lemma arith_same_type BODY rest (a b : Expr) :
  type_of a = type_of b ->
  TVM_ARITH_CONST_PROPAGATION BODY rest a b
  = match BODY a b (as_IntImm a) (as_IntImm b) (as_FloatImm a) (as_FloatImm b) with
    | Some r => r
    | None => Ok (rest a b)
    end.
Proof.
  intros E; unfold TVM_ARITH_CONST_PROPAGATION.
  now rewrite (BinaryOpMatchTypes_same _ _ E).
Qed.

(** With two index types the index macro runs its body on the operands as
    given; with any other pair of types it goes straight to promotion. *)
Lemma index_body BODY rest (a b : Expr) :
  IsIndexType (type_of a) && IsIndexType (type_of b) = true ->
  TVM_INDEX_CONST_PROPAGATION BODY rest a b
  = match BODY a b (as_IntImm a) (as_IntImm b) (type_of a) (type_of b) with
    | Some r => r
    | None => '(a, b) <- BinaryOpMatchTypes a b ;; Ok (rest a b)
    end.
Proof. intros E; unfold TVM_INDEX_CONST_PROPAGATION; now rewrite E. Qed.

Lemma index_skip BODY rest (a b : Expr) :
  IsIndexType (type_of a) && IsIndexType (type_of b) = false ->
  TVM_INDEX_CONST_PROPAGATION BODY rest a b
  = '(a, b) <- BinaryOpMatchTypes a b ;; Ok (rest a b).
Proof. intros E; unfold TVM_INDEX_CONST_PROPAGATION; now rewrite E. Qed.

Lemma make_zero_int (t : Type_) :
  is_int t = true -> lanes t = 1 -> make_zero t = IntImm t 0.
Proof.
  intros Hi Hl; unfold make_zero, make_const, MakeConstScalar.
  rewrite Hl; simpl.
  unfold is_int in Hi; apply TypeCode_eqb_eq in Hi; rewrite Hi.
  apply IntImm_make_0.
Qed.

Lemma IsIndexType_inv (t : Type_) :
  IsIndexType t = true -> is_int t = true /\ lanes t = 1 /\ (bits t = 32 \/ bits t = 64).
Proof.
  unfold IsIndexType; rewrite !andb_true_iff, orb_true_iff, !Z.eqb_eq; tauto.
Qed.

(* ================================================================== *)
(** * Identity laws *)

(** The laws on a scalar [x] and the literals 0 and 1 of its own type:
    signed, literal (in range) or symbolic; and float, symbolic. *)
Lemma identity_same_type (x : Expr) (t : Type_) :
  type_of x = t -> lanes t = 1 -> wf_literal x = true ->
  (is_int t = true ->
     operator_add x (IntImm t 0) = Ok x
     /\ operator_mul x (IntImm t 1) = Ok x
     /\ operator_mul x (IntImm t 0) = Ok (IntImm t 0)
     /\ operator_div x (IntImm t 1) = Ok x
     /\ (IsIndexType t = true -> operator_mod x (IntImm t 1) = Ok (IntImm t 0)))
  /\ (is_float t = true -> as_FloatImm x = None ->
     operator_add x (FloatImm t 0) = Ok x
     /\ operator_mul x (FloatImm t 1) = Ok x
     /\ operator_mul x (FloatImm t 0) = Ok (FloatImm t 0)
     /\ operator_div x (FloatImm t 1) = Ok x).
Proof.
  intros Ht Hl Hwf; subst t.
  unfold operator_add, operator_mul, operator_div, operator_mod.
  rewrite !arith_same_type by reflexivity.
  cbn [as_IntImm as_FloatImm type_of has ival fval].
  rewrite ?wider_same, ?SimpleCast_same by reflexivity.
  split.
  - intros Hi.
    destruct (as_IntImm x) as [v|] eqn:Hx.
    + (* an int literal: the fold rebuilds it *)
      pose proof (as_IntImm_Some _ _ Hx) as Ex.
      rewrite Ex in Hwf.
      pose proof (IntImm_make_wf _ _ Hwf) as Hmk.
      cbn [has ival andb].
      repeat split.
      * unfold int64.add; rewrite Z.add_0_r, Hmk; f_equal; now symmetry.
      * unfold int64.mul; rewrite Z.mul_1_r, Hmk; f_equal; now symmetry.
      * unfold int64.mul; rewrite Z.mul_0_r, wrap_signed_0; now rewrite IntImm_make_0.
      * change (1 >? 0) with true; rewrite andb_true_r.
        destruct (v >=? 0) eqn:Hv; cbn [andb].
        -- unfold int64.div; rewrite Z.quot_1_r, Hmk; f_equal; now symmetry.
        -- destruct (v =? 0) eqn:Hz; [rewrite Z.eqb_eq in Hz; lia|].
           reflexivity.
      * intros Hix; rewrite index_body by (cbn [type_of]; now rewrite Hix).
        cbn [as_IntImm type_of]; rewrite Hx; cbn [has ival andb].
        rewrite ?wider_same.
        change (1 >? 0) with true; rewrite andb_true_r.
        destruct (v >=? 0) eqn:Hv; cbn [andb].
        -- unfold int64.rem; rewrite Z.rem_1_r; now rewrite IntImm_make_0.
        -- destruct (v =? 0) eqn:Hz; [rewrite Z.eqb_eq in Hz; lia|].
           cbn [Z.eqb Pos.eqb]. now rewrite make_zero_int.
    + (* not an int literal *)
      cbn [has ival andb].
      repeat split; try reflexivity.
      intros Hix; rewrite index_body by (cbn [type_of]; now rewrite Hix).
      cbn [as_IntImm type_of]; rewrite Hx; cbn [has ival andb].
      rewrite wider_same. now rewrite make_zero_int.
  - intros Hf Hfx.
    assert (Hx : as_IntImm x = None).
    { destruct (as_IntImm x) as [v|] eqn:Hx; [|reflexivity].
      apply as_IntImm_Some in Hx; rewrite Hx in Hwf.
      apply wf_IntImm in Hwf; destruct Hwf as (Hi & _).
      unfold is_int, is_float in *; destruct (code (type_of x)); discriminate. }
    rewrite Hx, Hfx; cbn [has ival fval andb].
    repeat split; reflexivity.
Qed.

(* ================================================================== *)
(** * The contract of promotion: one type on both sides *)

Lemma type_of_MakeConstScalar {V : Type} `{ConstValue V} (t : Type_) (v : V) :
  type_of (MakeConstScalar t v) = t.
Proof. unfold MakeConstScalar; now destruct (code t). Qed.

Lemma with_lanes_element_of (t : Type_) : with_lanes (element_of t) (lanes t) = t.
Proof. now destruct t. Qed.

Lemma type_of_make_const {V : Type} `{ConstValue V} (t : Type_) (v : V) :
  type_of (make_const t v) = t.
Proof.
  unfold make_const; destruct (lanes t =? 1).
  - apply type_of_MakeConstScalar.
  - simpl; rewrite type_of_MakeConstScalar; apply with_lanes_element_of.
Qed.

Lemma type_of_Cast_make (t : Type_) (v e : Expr) :
  Cast_make t v = Ok e -> type_of e = t.
Proof.
  unfold Cast_make; destruct (lanes t =? lanes (type_of v)); [|discriminate].
  now intros [= <-].
Qed.

(** A cast that returns, returns an expression of the target type. *)
Lemma type_of_cast (t : Type_) (v e : Expr) : cast t v = Ok e -> type_of e = t.
Proof.
  unfold cast.
  destruct (Type_eqb (type_of v) t) eqn:E.
  { intros [= <-]; now apply Type_eqb_eq. }
  destruct (lanes t =? 1).
  { destruct v; try apply type_of_Cast_make; intros [= <-]; apply type_of_make_const. }
  destruct (lanes (type_of v) =? 1).
  { destruct (Type_eqb (type_of v) (element_of t)) eqn:E'; cbn [negb bind].
    - intros [= <-]; cbn [type_of].
      apply Type_eqb_eq in E'; rewrite E'; apply with_lanes_element_of.
    - destruct v; cbn [bind];
        try (intros [= <-]; cbn [type_of]; rewrite type_of_make_const;
             apply with_lanes_element_of);
        (match goal with
         | |- (x <- Cast_make ?u ?w ;; _) = _ -> _ =>
             destruct (Cast_make u w) as [c|] eqn:Ec; cbn [bind]; [|discriminate];
             intros [= <-]; cbn [type_of];
             rewrite (type_of_Cast_make _ _ _ Ec); apply with_lanes_element_of
         end). }
  destruct (lanes (type_of v) =? lanes t); [|discriminate].
  apply type_of_Cast_make.
Qed.

Lemma promote_equal_lanes_types (a b a' b' : Expr) :
  lanes (type_of a) = lanes (type_of b) ->
  BinaryOpMatchTypes a b = Ok (a', b') -> type_of a' = type_of b'.
Proof.
  intros Hl; unfold BinaryOpMatchTypes.
  destruct (Type_eqb (type_of a) (type_of b)) eqn:E.
  { intros [= <- <-]; now apply Type_eqb_eq. }
  rewrite Hl, Z.eqb_refl, andb_negb_r; cbn [bind andb]; rewrite E.
  repeat match goal with
         | |- (if ?c then _ else _) = _ -> _ => destruct c
         | |- bind (cast ?t ?v) _ = _ -> _ =>
             let C := fresh "C" in
             destruct (cast t v) eqn:C; cbn [bind];
             [apply type_of_cast in C|]
         end;
    try discriminate; intros [= <- <-]; auto.
  now rewrite !type_of_SimpleCast, Hl.
Qed.

(** Section 4.1: promotion returns two expressions of identical type, or
    fails. *)
Lemma promote_types_equal (a b a' b' : Expr) :
  BinaryOpMatchTypes a b = Ok (a', b') -> type_of a' = type_of b'.
Proof.
  destruct (Z.eq_dec (lanes (type_of a)) (lanes (type_of b))) as [Hl | Hl].
  { now apply promote_equal_lanes_types. }
  destruct (Z.eq_dec (lanes (type_of a)) 1) as [Ha | Ha].
  { rewrite (promote_broadcast_l a b (lanes (type_of b))) by congruence.
    apply promote_equal_lanes_types; reflexivity. }
  destruct (Z.eq_dec (lanes (type_of b)) 1) as [Hb | Hb].
  { rewrite (promote_broadcast_r a b (lanes (type_of a))) by congruence.
    apply promote_equal_lanes_types; reflexivity. }
  unfold BinaryOpMatchTypes.
  replace (Type_eqb (type_of a) (type_of b)) with false
    by (symmetry; apply Type_eqb_neq; congruence).
  apply Z.eqb_neq in Hl, Ha, Hb; rewrite Hl, Ha, Hb; discriminate.
Qed.

(** An arithmetic operator on two operands is the operator on the promoted
    pair. *)
Lemma arith_promoted BODY rest (a b a' b' : Expr) :
  BinaryOpMatchTypes a b = Ok (a', b') ->
  TVM_ARITH_CONST_PROPAGATION BODY rest a b
  = TVM_ARITH_CONST_PROPAGATION BODY rest a' b'.
Proof.
  intros E.
  rewrite (arith_same_type BODY rest a' b') by (eapply promote_types_equal; eauto).
  unfold TVM_ARITH_CONST_PROPAGATION; now rewrite E.
Qed.

(* ================================================================== *)
(** * Division and modulo by a literal zero *)

Lemma FloatImm_make_0 (t : Type_) : FloatImm_make t 0%float = FloatImm t 0%float.
Proof.
  unfold FloatImm_make.
  destruct (bits t =? 32); [reflexivity|].
  destruct (bits t =? 16); reflexivity.
Qed.

Lemma Type_eqb_sym (s t : Type_) : Type_eqb s t = Type_eqb t s.
Proof.
  destruct (Type_eqb t s) eqn:E.
  - apply Type_eqb_eq in E; subst; apply Type_eqb_refl.
  - apply Type_eqb_neq; apply Type_eqb_neq in E; congruence.
Qed.

(** The scalar cast of an expression of another type: a literal is folded,
    anything else goes under a cast node. *)
Lemma cast_scalar (t : Type_) (x : Expr) :
  Type_eqb (type_of x) t = false -> lanes t = 1 -> lanes (type_of x) = 1 ->
  cast t x = Ok match x with
                | IntImm _ v => make_const t v
                | FloatImm _ f => make_const t f
                | _ => Cast t x
                end.
Proof.
  intros E Hl Hx; unfold cast, Cast_make; rewrite E, Hl, Hx; simpl.
  destruct x; reflexivity.
Qed.

Lemma make_const_int (t : Type_) (v : Z) :
  is_int t = true -> lanes t = 1 ->
  make_const t v = IntImm_make t (wrap_signed 64 v).
Proof.
  intros Hi Hl; unfold make_const, MakeConstScalar; rewrite Hl; simpl.
  unfold is_int in Hi; apply TypeCode_eqb_eq in Hi; now rewrite Hi.
Qed.

Lemma make_zero_float (t : Type_) :
  is_float t = true -> lanes t = 1 -> make_zero t = FloatImm t 0%float.
Proof.
  intros Hf Hl; unfold make_zero, make_const, MakeConstScalar; rewrite Hl; simpl.
  unfold is_float in Hf; apply TypeCode_eqb_eq in Hf; rewrite Hf.
  apply FloatImm_make_0.
Qed.

(** Widening a signed literal in range keeps its value. *)
Lemma widen_wf_literal (t t' : Type_) (v : Z) :
  wf_literal (IntImm t v) = true -> bits t <= bits t' ->
  IntImm_make t' (wrap_signed 64 v) = IntImm t' v.
Proof.
  intros H Hb; apply wf_IntImm in H; destruct H as (_ & _ & Hw & Hv).
  unfold IntImm_make.
  assert (2 ^ (bits t - 1) <= 2 ^ 63) by (apply (pow2_le_pow2 (bits t - 1) 63); lia).
  assert (2 ^ (bits t - 1) <= 2 ^ (bits t' - 1)) by (apply pow2_le_pow2; lia).
  rewrite (wrap_signed_id 64) by (simpl; lia).
  now rewrite wrap_signed_id by lia.
Qed.

(** On a promoted pair whose divisor is the literal 0 and whose dividend is
    no zero literal, the division body fails its check. *)
Lemma div_zero_divisor (a b : Expr) :
  type_of a = type_of b -> zero_literal a = false ->
  (exists t, b = IntImm t 0 \/ b = FloatImm t 0%float) ->
  operator_div a b = Error DivideByZero.
Proof.
  intros Ht Hz (t & [-> | ->]); unfold operator_div;
    rewrite arith_same_type by exact Ht;
    cbn [as_IntImm as_FloatImm has ival fval andb].
  - destruct a; cbn [as_IntImm has ival andb]; try reflexivity.
    simpl in Hz; rewrite Hz, andb_false_r; reflexivity.
  - destruct a; cbn [as_IntImm as_FloatImm has ival fval andb]; try reflexivity.
    + simpl in Hz; rewrite Hz; reflexivity.
    + simpl in Hz; rewrite Hz; reflexivity.
Qed.

(** Promotion of a scalar dividend against the signed literal 0 leaves a zero
    literal on the right and no zero literal on the left. *)
Lemma promote_int_zero (x : Expr) (t0 : Type_) :
  wf_literal x = true -> zero_literal x = false ->
  lanes (type_of x) = 1 -> lanes t0 = 1 -> is_int t0 = true ->
  (is_uint (type_of x) = true -> bits (type_of x) <= bits t0) ->
  exists x' c',
    BinaryOpMatchTypes x (IntImm t0 0) = Ok (x', c')
    /\ zero_literal x' = false
    /\ (exists t, c' = IntImm t 0 \/ c' = FloatImm t 0%float).
Proof.
  intros Hwf Hz Hlx Hl0 Hi0 Hu.
  unfold BinaryOpMatchTypes; cbn [type_of].
  destruct (Type_eqb (type_of x) t0) eqn:E.
  { exists x, (IntImm t0 0); repeat split; auto. exists t0; now left. }
  rewrite Hlx, Hl0; cbn [Z.eqb Pos.eqb andb negb bind type_of]. rewrite E.
  assert (E' : Type_eqb (type_of (IntImm t0 0)) (type_of x) = false)
    by (cbn [type_of]; now rewrite Type_eqb_sym).
  pose proof Hi0 as Hc0; unfold is_int in Hc0; apply TypeCode_eqb_eq in Hc0.
  unfold is_float, is_int, is_uint in *; rewrite Hc0.
  destruct (code (type_of x)) eqn:Cx; cbn [TypeCode_eqb andb orb negb].
  - destruct (bits (type_of x) <? bits t0) eqn:Hb.
    + rewrite cast_scalar by (cbn [type_of]; assumption); cbn [bind].
      eexists _, _; split; [reflexivity|]. split; [|exists t0; now left].
      destruct x; try reflexivity.
      * cbn [type_of] in *. rewrite make_const_int by (unfold is_int; now rewrite ?Hc0).
        rewrite (widen_wf_literal type) by (auto; apply Z.ltb_lt in Hb; lia).
        exact Hz.
      * simpl in Hwf. cbn [type_of] in Cx. unfold is_float in Hwf. rewrite Cx in Hwf. discriminate.
    + rewrite cast_scalar by (cbn [type_of]; assumption); cbn [bind].
      rewrite make_const_int by (unfold is_int; now rewrite ?Cx).
      change (wrap_signed 64 0) with 0. rewrite IntImm_make_0.
      exists x, (IntImm (type_of x) 0); repeat split; auto. eexists; now left.
  - rewrite Z.max_r by (apply Hu; reflexivity).
    rewrite (SimpleCast_same _ (IntImm t0 0))
      by (destruct t0; simpl in *; now subst).
    eexists _, _; split; [reflexivity|]. split; [|exists t0; now left].
    destruct (SimpleCast_cases (Int (bits t0) (lanes (type_of x))) x) as [-> | [t ->]];
      [exact Hz | reflexivity].
  - rewrite cast_scalar by (cbn [type_of]; assumption); cbn [bind].
    fold (make_zero (type_of x)).
    rewrite make_zero_float by (unfold is_float; now rewrite ?Cx).
    exists x, (FloatImm (type_of x) 0%float); repeat split; auto. eexists; now right.
Qed.

Lemma mod_zero_divisor (x : Expr) (t0 : Type_) :
  IsIndexType (type_of x) = true -> IsIndexType t0 = true ->
  zero_literal x = false ->
  operator_mod x (IntImm t0 0) = Error DivideByZero.
Proof.
  intros Hx H0 Hz; unfold operator_mod.
  rewrite index_body by (cbn [type_of]; now rewrite Hx, H0).
  cbn [as_IntImm has ival andb].
  destruct x; cbn [as_IntImm has ival andb]; try reflexivity.
  simpl in Hz; rewrite Hz, andb_false_r; reflexivity.
Qed.

(** The zero divisors that are found: the signed literal 0 under a scalar
    dividend, the float literal 0 of the dividend's type, and the signed
    literal 0 of [%] on index types. *)
Lemma zero_divisor_fails (x : Expr) :
  wf_literal x = true -> zero_literal x = false ->
  (forall t0, is_int t0 = true -> lanes t0 = 1 -> lanes (type_of x) = 1 ->
     (is_uint (type_of x) = true -> bits (type_of x) <= bits t0) ->
     operator_div x (IntImm t0 0) = Error DivideByZero)
  /\ (is_float (type_of x) = true ->
      operator_div x (FloatImm (type_of x) 0) = Error DivideByZero)
  /\ (forall t0, IsIndexType (type_of x) = true -> IsIndexType t0 = true ->
      operator_mod x (IntImm t0 0) = Error DivideByZero).
Proof.
  intros Hwf Hz; repeat split.
  - intros t0 Hi0 Hl0 Hlx Hu.
    destruct (promote_int_zero x t0 Hwf Hz Hlx Hl0 Hi0 Hu) as (x' & c' & E & Hz' & Hc).
    unfold operator_div; rewrite (arith_promoted _ _ _ _ _ _ E).
    apply div_zero_divisor; auto.
    now apply (promote_types_equal _ _ _ _ E).
  - intros _. apply div_zero_divisor; auto. eexists; now right.
  - intros t0 Hx H0. now apply mod_zero_divisor.
Qed.

(* ================================================================== *)
(** * Folding of literal division and modulo *)

(** The division of two signed literals of one type, case by case. *)
Lemma div_literals (t : Type_) (va vb : Z) :
  operator_div (IntImm t va) (IntImm t vb)
  = if (va >=? 0) && (vb >? 0) then Ok (IntImm_make t (int64.div va vb))
    else if va =? 0 then Ok (IntImm t va)
    else if vb =? 1 then Ok (IntImm t va)
    else if vb =? 0 then Error DivideByZero
    else Ok (Div (IntImm t va) (IntImm t vb)).
Proof.
  unfold operator_div; rewrite arith_same_type by reflexivity.
  cbn [as_IntImm as_FloatImm type_of has ival fval andb negb].
  rewrite wider_same, !SimpleCast_same by reflexivity.
  destruct ((va >=? 0) && (vb >? 0)); [reflexivity|].
  destruct (va =? 0); [reflexivity|].
  destruct (vb =? 1); [reflexivity|].
  destruct (vb =? 0); reflexivity.
Qed.

(** The modulo of two signed literals of one index type, case by case. *)
Lemma mod_literals (t : Type_) (va vb : Z) :
  IsIndexType t = true ->
  operator_mod (IntImm t va) (IntImm t vb)
  = if (va >=? 0) && (vb >? 0) then Ok (IntImm_make t (int64.rem va vb))
    else if va =? 0 then Ok (IntImm t va)
    else if vb =? 1 then Ok (IntImm t 0)
    else if vb =? 0 then Error DivideByZero
    else Ok (Mod (IntImm t va) (IntImm t vb)).
Proof.
  intros Hix; unfold operator_mod.
  rewrite index_body by (cbn [type_of]; now rewrite Hix).
  cbn [as_IntImm as_FloatImm type_of has ival fval andb negb].
  rewrite wider_same, !SimpleCast_same by reflexivity.
  destruct (IsIndexType_inv _ Hix) as (Hi & Hl & _).
  rewrite make_zero_int by assumption.
  rewrite BinaryOpMatchTypes_same by reflexivity; cbn [bind].
  destruct ((va >=? 0) && (vb >? 0)); [reflexivity|].
  destruct (va =? 0); [reflexivity|].
  destruct (vb =? 1); [reflexivity|].
  destruct (vb =? 0); reflexivity.
Qed.

(** C2, as amended. For two signed-int literals of one type, division
    returns the quotient literal when the dividend is [>= 0] and the divisor
    [> 0]; it returns a generic division node when the dividend is negative
    and the divisor neither 0 nor 1, or the divisor negative and the
    dividend not 0; and whenever it returns a literal, either the signs are
    as above or the result is the dividend itself, returned by [0/x] or
    [x/1]. Modulo does the same on index types (with literal 0 for [x%1])
    and never folds on other types. Float literals are divided whatever
    their signs, for every divisor that is not zero. *)
Theorem div_mod_literal_fold (t : Type_) (va vb : Z) :
  let a := IntImm t va in
  let b := IntImm t vb in
  (0 <= va -> 0 < vb -> operator_div a b = Ok (IntImm_make t (int64.div va vb)))
  /\ ((va < 0 /\ vb <> 0 /\ vb <> 1) \/ (vb < 0 /\ va <> 0) -> operator_div a b = Ok (Div a b))
  /\ (forall r, operator_div a b = Ok r -> is_literal r = true ->
      (0 <= va /\ 0 < vb) \/ (r = a /\ (va = 0 \/ vb = 1)))
  /\ (IsIndexType t = true ->
      (0 <= va -> 0 < vb -> operator_mod a b = Ok (IntImm_make t (int64.rem va vb)))
      /\ ((va < 0 /\ vb <> 0 /\ vb <> 1) \/ (vb < 0 /\ va <> 0) ->
          operator_mod a b = Ok (Mod a b))
      /\ (forall r, operator_mod a b = Ok r -> is_literal r = true ->
          (0 <= va /\ 0 < vb) \/ (r = a /\ va = 0) \/ (r = IntImm t 0 /\ vb = 1)))
  /\ (IsIndexType t = false -> operator_mod a b = Ok (Mod a b))
  /\ (forall fa fb : float, (fb =? 0)%float = false ->
      operator_div (FloatImm t fa) (FloatImm t fb) = Ok (FloatImm_make t (fa / fb))).
Proof.
  intros a b; subst a b.
  rewrite div_literals.
  split; [|split; [|split; [|split; [|split]]]].
  - intros; sign_cases; try lia; reflexivity.
  - intros; sign_cases; try lia; reflexivity.
  - intros r; sign_cases; intros [= <-]; try discriminate; intros _; try (left; lia); right; split; auto.
  - intros Hix; rewrite mod_literals by assumption.
    split; [|split].
    + intros; sign_cases; try lia; reflexivity.
    + intros; sign_cases; try lia; reflexivity.
    + intros r; sign_cases; intros [= <-]; try discriminate; intros _; try (left; lia); right; auto.
  - intros Hix; unfold operator_mod. rewrite index_skip by (cbn [type_of]; now rewrite Hix).
    now rewrite BinaryOpMatchTypes_same.
  - intros fa fb Hfb; unfold operator_div; rewrite arith_same_type by reflexivity.
    cbn [as_IntImm as_FloatImm type_of has ival fval andb negb].
    now rewrite Hfb, wider_same.
Qed.

(** The instance of the specification: [(-6) / 2] and [(-6) % 2] on [int32]
    are generic nodes, not the literals [-3] and [0]. *)
Lemma div_mod_literal_fold_witness :
  operator_div (IntImm i32 (-6)) (IntImm i32 2)
  = Ok (Div (IntImm i32 (-6)) (IntImm i32 2))
  /\ operator_mod (IntImm i32 (-6)) (IntImm i32 2)
     = Ok (Mod (IntImm i32 (-6)) (IntImm i32 2))
  /\ operator_div (IntImm i32 6) (IntImm i32 2) = Ok (IntImm i32 3).
Proof.
  destruct (div_mod_literal_fold i32 (-6) 2) as (_ & Hd & _ & Hm & _).
  destruct (Hm eq_refl) as (_ & Hm' & _).
  destruct (div_mod_literal_fold i32 6 2) as (Hf & _).
  split; [|split].
  - apply Hd; left; lia.
  - apply Hm'; left; lia.
  - apply Hf; lia.
Defined.

(** C2, the claim as stated fails: the float literals [-6.0] and [2.0] fold
    to the literal [-3.0], and the signed literals [-6] and [1] return the
    literal [-6], each with a negative dividend. *)
Lemma div_mod_literal_fold_counterexample :
  operator_div (FloatImm f32 (-6)%float) (FloatImm f32 2%float)
  = Ok (FloatImm f32 (-3)%float)
  /\ operator_div (IntImm i32 (-6)) (IntImm i32 1) = Ok (IntImm i32 (-6))
  /\ is_literal (IntImm i32 (-6)) = true.
Proof. repeat split. Qed.

(* ================================================================== *)
(** * Modulo of floats *)

Lemma float_not_index (t : Type_) : is_float t = true -> IsIndexType t = false.
Proof.
  unfold IsIndexType, is_float, is_int; destruct (code t); simpl; congruence.
Qed.

(** C6. Modulo of two float-typed operands never folds: the operator is the
    promotion of the pair followed by the generic mod node, so every result
    it returns is a mod node and no literal, also when both operands are
    literals; with operands of one float type it returns the mod node of the
    operands themselves. *)
Theorem mod_float_never_folds (a b : Expr) :
  is_float (type_of a) = true -> is_float (type_of b) = true ->
  operator_mod a b = ('(a', b') <- BinaryOpMatchTypes a b ;; Ok (Mod a' b'))
  /\ (forall r, operator_mod a b = Ok r ->
      is_literal r = false /\ exists a' b', r = Mod a' b')
  /\ (type_of a = type_of b -> operator_mod a b = Ok (Mod a b)).
Proof.
  intros Ha Hb.
  assert (E : operator_mod a b = ('(a', b') <- BinaryOpMatchTypes a b ;; Ok (Mod a' b'))).
  { unfold operator_mod; apply index_skip.
    now rewrite (float_not_index _ Ha). }
  split; [exact E|split].
  - intros r; rewrite E.
    destruct (BinaryOpMatchTypes a b) as [[a' b']|e]; [|discriminate].
    intros [= <-]; split; [reflexivity|now exists a', b'].
  - intros Ht; now rewrite E, BinaryOpMatchTypes_same.
Qed.

(** The instance of the specification: [5.5 % 2.0] on [float32]. *)
Lemma mod_float_never_folds_witness :
  is_float (type_of (FloatImm f32 5.5%float)) = true
  /\ is_float (type_of (FloatImm f32 2%float)) = true
  /\ operator_mod (FloatImm f32 5.5%float) (FloatImm f32 2%float)
     = Ok (Mod (FloatImm f32 5.5%float) (FloatImm f32 2%float)).
Proof.
  split; [reflexivity|]. split; [reflexivity|].
  apply (mod_float_never_folds (FloatImm f32 5.5%float) (FloatImm f32 2%float));
    reflexivity.
Defined.

(* ================================================================== *)
(** * Constants are literals *)

Lemma is_literal_make_const {V : Type} `{ConstValue V} (t : Type_) (v : V) :
  lanes t = 1 -> is_literal (make_const t v) = true.
Proof.
  intros Hl; unfold make_const, MakeConstScalar; rewrite Hl; simpl.
  now destruct (code t).
Qed.

(* ================================================================== *)
(** * Powers of two: the loop and its result *)

Lemma land_1_mod (v : Z) : Z.land v 1 = v mod 2.
Proof. change 1 with (Z.ones 1) at 1. now rewrite Z.land_ones by lia. Qed.

Lemma shiftr_1_div (v : Z) : Z.shiftr v 1 = v / 2.
Proof. now rewrite Z.shiftr_div_pow2 by lia. Qed.

Lemma pow2_even (k : Z) : 0 < k -> (2 ^ k) mod 2 = 0.
Proof.
  intros Hk. replace k with (Z.succ (k - 1)) by lia.
  rewrite Z.pow_succ_r by lia. now rewrite Z.mul_comm, Z_mod_mult.
Qed.

Lemma pow2_half (k : Z) : 0 < k -> 2 ^ k / 2 = 2 ^ (k - 1).
Proof.
  intros Hk. replace k with (Z.succ (k - 1)) at 1 by lia.
  rewrite Z.pow_succ_r by lia. now rewrite Z.mul_comm, Z_div_mult by lia.
Qed.

(** The loop, given rounds enough for the bits of [val], ends; it answers
    true exactly on a power of two, having added its exponent to [shift]. *)
Lemma ConstPowerHelper_loop_spec (fuel : nat) :
  forall val shift, 0 < val -> (Z.to_nat (Z.log2 val) < fuel)%nat ->
  exists r s',
    ConstPowerHelper_loop fuel val shift = Some (r, s')
    /\ shift <= s'
    /\ (r = true -> val = 2 ^ (s' - shift))
    /\ (r = false -> forall k, 0 <= k -> val <> 2 ^ k).
Proof.
  induction fuel as [|fuel IH]; intros val shift Hpos Hfuel; [lia|].
  cbn [ConstPowerHelper_loop].
  replace (val =? 0) with false by (symmetry; apply Z.eqb_neq; lia).
  cbn [negb]. rewrite land_1_mod, shiftr_1_div.
  pose proof (Z.mod_pos_bound val 2 ltac:(lia)) as Hm.
  pose proof (Z.div_mod val 2 ltac:(lia)) as Hdm.
  destruct (val mod 2 =? 0) eqn:Hodd; cbn [negb].
  - apply Z.eqb_eq in Hodd.
    assert (Hhalf : 0 < val / 2) by lia.
    assert (Hlog : Z.log2 (val / 2) = Z.log2 val - 1).
    { rewrite <- shiftr_1_div, Z.log2_shiftr by lia.
      pose proof (Z.log2_le_mono 2 val ltac:(lia)) as H2. simpl in H2. lia. }
    assert (H1 : 1 <= Z.log2 val).
    { pose proof (Z.log2_le_mono 2 val ltac:(lia)) as H2. simpl in H2. lia. }
    destruct (IH (val / 2) (shift + 1) Hhalf ltac:(lia)) as (r & s' & E & Hs & Ht & Hf).
    exists r, s'; rewrite E; repeat split; try lia.
    + intros Hr. specialize (Ht Hr).
      replace (s' - shift) with (Z.succ (s' - (shift + 1))) by lia.
      rewrite Z.pow_succ_r by lia. lia.
    + intros Hr k Hk Hval. specialize (Hf Hr).
      destruct (Z.eq_dec k 0) as [-> | Hk0]; [simpl in Hval; lia|].
      apply (Hf (k - 1)); [lia|]. rewrite Hval. apply pow2_half; lia.
  - apply Z.eqb_neq in Hodd.
    exists (val =? 1), shift; repeat split; try lia.
    + intros Hv; apply Z.eqb_eq in Hv. now rewrite Hv, Z.sub_diag.
    + intros Hv k Hk Hval; apply Z.eqb_neq in Hv.
      destruct (Z.eq_dec k 0) as [-> | Hk0]; [simpl in Hval; lia|].
      apply Hodd. rewrite Hval. apply pow2_even; lia.
Qed.

(** [ConstPowerHelper] always returns: the rounds it grants the loop are
    enough. *)
Lemma ConstPowerHelper_spec (val shift : Z) :
  exists r s',
    ConstPowerHelper val shift = Some (r, s')
    /\ (r = true <-> exists k, 0 <= k /\ val = 2 ^ k)
    /\ (r = true -> 0 <= s' /\ val = 2 ^ s')
    /\ (val <= 0 -> r = false /\ s' = shift).
Proof.
  unfold ConstPowerHelper.
  destruct (val <=? 0) eqn:Hle.
  - apply Z.leb_le in Hle.
    exists false, shift; repeat split; try discriminate; auto.
    intros (k & Hk & Hv).
    pose proof (Z.pow_pos_nonneg 2 k ltac:(lia) Hk). lia.
  - apply Z.leb_gt in Hle.
    destruct (ConstPowerHelper_loop_spec (S (Z.to_nat (Z.log2 val))) val 0 Hle ltac:(lia))
      as (r & s' & E & Hs & Ht & Hf).
    assert (Hpow : r = true -> val = 2 ^ s').
    { intros Hr. rewrite (Ht Hr) at 1. f_equal; lia. }
    exists r, s'; rewrite E.
    split; [reflexivity|]. split; [split|split].
    + intros Hr; exists s'; split; [lia|auto].
    + intros (k & Hk & Hv). destruct r; [reflexivity|]. now elim (Hf eq_refl k Hk).
    + intros Hr; split; [lia|auto].
    + lia.
Qed.

(** C10. [is_const_power_of_two_integer x shift] returns, and returns true
    if and only if [x] is a signed or unsigned integer literal whose value
    is [2 ^ k] for some [k >= 0]; in that case the cell [shift] holds the
    exponent. It returns false, leaving the cell as it was, for every
    expression that is no integer literal and for every literal value
    [<= 0]. *)
Theorem is_const_power_of_two_integer_spec (x : Expr) (shift : Z) :
  exists r s',
    is_const_power_of_two_integer x shift = Some (r, s')
    /\ (r = true <-> exists v k, int_literal_value x = Some v /\ 0 <= k /\ v = 2 ^ k)
    /\ (r = true -> forall v, int_literal_value x = Some v ->
                   v = 2 ^ s' /\ s' = Z.log2 v)
    /\ (int_literal_value x = None -> r = false /\ s' = shift)
    /\ (forall v, int_literal_value x = Some v -> v <= 0 -> r = false /\ s' = shift).
Proof.
  destruct (int_literal_value x) as [v|] eqn:Hx.
  - assert (E : is_const_power_of_two_integer x shift = ConstPowerHelper v shift)
      by (destruct x; simpl in *; congruence).
    destruct (ConstPowerHelper_spec v shift) as (r & s' & Hc & Hiff & Ht & Hle).
    exists r, s'; rewrite E, Hc.
    split; [reflexivity|]. split; [split|split; [|split]].
    + intros Hr. apply Hiff in Hr. destruct Hr as (k & Hk & Hv). now exists v, k.
    + intros (v' & k & [= <-] & Hk & Hv). apply Hiff. now exists k.
    + intros Hr v' [= <-]. destruct (Ht Hr) as (Hs & Hv).
      split; [exact Hv|]. now rewrite Hv, Z.log2_pow2.
    + discriminate.
    + intros v' [= <-]. exact Hle.
  - assert (E : is_const_power_of_two_integer x shift = Some (false, shift))
      by (destruct x; simpl in *; congruence).
    exists false, shift; rewrite E.
    split; [reflexivity|]. split; [split|split; [|split]]; try discriminate; auto.
    intros (v & k & Hv & _); discriminate.
Qed.

(** The instances at the signed literal 1024, at the unsigned literal
    [2 ^ 63], at the negative literal -4 and at a variable. *)
Lemma is_const_power_of_two_integer_witness :
  is_const_power_of_two_integer (IntImm i32 1024) 0 = Some (true, 10)
  /\ is_const_power_of_two_integer (UIntImm (UInt 64 1) (2 ^ 63)) 0 = Some (true, 63)
  /\ is_const_power_of_two_integer (IntImm i32 (-4)) 7 = Some (false, 7)
  /\ is_const_power_of_two_integer (VarExpr (mkVar "x" i32 0)) 7 = Some (false, 7).
Proof.
  destruct (is_const_power_of_two_integer_spec (VarExpr (mkVar "x" i32 0)) 7)
    as (r & s' & E & _ & _ & Hn & _).
  destruct (Hn eq_refl) as [-> ->].
  split; [reflexivity|]. split; [reflexivity|]. split; [reflexivity|]. exact E.
Defined.

(* ================================================================== *)
(** * Reduction builders *)

Lemma literal_zero_MakeConstScalar (t : Type_) :
  literal_value_is 0 (MakeConstScalar t 0) = true.
Proof.
  unfold MakeConstScalar, IntImm_make, UIntImm_make, FloatImm_make.
  destruct (code t); cbn [literal_value_is to_int64 to_uint64 to_double int_ConstValue].
  - change (wrap_signed 64 0) with 0. now rewrite wrap_signed_0.
  - unfold wrap_unsigned. now rewrite !Zmod_0_l.
  - destruct (bits t =? 32); [reflexivity|]. destruct (bits t =? 16); reflexivity.
Qed.

Lemma literal_one_MakeConstScalar (t : Type_) :
  2 <= bits t -> literal_value_is 1 (MakeConstScalar t 1) = true.
Proof.
  intros Hb.
  assert (Hp : 2 <= 2 ^ (bits t - 1)).
  { change 2 with (2 ^ 1) at 1. apply pow2_le_pow2; lia. }
  assert (Hq : 2 < 2 ^ bits t).
  { replace (bits t) with (Z.succ (bits t - 1)) by lia.
    rewrite Z.pow_succ_r by lia. lia. }
  unfold MakeConstScalar, IntImm_make, UIntImm_make, FloatImm_make.
  destruct (code t); cbn [literal_value_is to_int64 to_uint64 to_double int_ConstValue].
  - change (wrap_signed 64 1) with 1. rewrite wrap_signed_id by lia. reflexivity.
  - change (wrap_unsigned 64 1) with 1. unfold wrap_unsigned.
    rewrite Z.mod_small by lia. reflexivity.
  - destruct (bits t =? 32); [reflexivity|]. destruct (bits t =? 16); reflexivity.
Qed.

(** The extremes of the scalar types. *)
Lemma Type_extremes_int (t : Type_) :
  is_int t = true -> lanes t = 1 -> 1 <= bits t <= 64 ->
  Type_max t = IntImm t (2 ^ (bits t - 1) - 1)
  /\ Type_min t = IntImm t (- 2 ^ (bits t - 1)).
Proof.
  intros Hi Hl Hb; unfold Type_max, Type_min, max_scalar, min_scalar, IntImm_make.
  unfold is_int in Hi; apply TypeCode_eqb_eq in Hi; rewrite Hi, Hl; cbn [Z.eqb Pos.eqb].
  assert (0 < 2 ^ (bits t - 1)) by (apply Z.pow_pos_nonneg; lia).
  now rewrite !wrap_signed_id by lia.
Qed.

Lemma Type_extremes_uint (t : Type_) :
  is_uint t = true -> lanes t = 1 -> 1 <= bits t <= 64 ->
  Type_max t = UIntImm t (2 ^ bits t - 1) /\ Type_min t = UIntImm t 0.
Proof.
  intros Hi Hl Hb; unfold Type_max, Type_min, max_scalar, min_scalar, UIntImm_make.
  unfold is_uint in Hi; apply TypeCode_eqb_eq in Hi; rewrite Hi, Hl; cbn [Z.eqb Pos.eqb].
  assert (0 < 2 ^ bits t) by (apply Z.pow_pos_nonneg; lia).
  unfold wrap_unsigned. now rewrite Z.mod_small, Z.mod_0_l by lia.
Qed.

Lemma Type_extremes_float (t : Type_) :
  is_float t = true -> lanes t = 1 ->
  Type_max t = FloatImm t (float_max (bits t))
  /\ Type_min t = FloatImm t (- float_max (bits t))%float
  /\ (0 <? float_max (bits t))%float = true
  /\ is_infinity (float_max (bits t)) = false.
Proof.
  intros Hi Hl; unfold Type_max, Type_min, max_scalar, min_scalar, FloatImm_make.
  unfold is_float in Hi; apply TypeCode_eqb_eq in Hi; rewrite Hi, Hl; cbn [Z.eqb Pos.eqb].
  unfold float_max.
  destruct (bits t =? 32) eqn:E32; destruct (bits t =? 16) eqn:E16;
    repeat split; reflexivity.
Qed.

(** C5. For every source expression and every iteration domain, the empty
    one included, each builder returns a reduction node of the type of the
    source over that domain: its combiner has two formals [x] and [y] of
    the type of the source, newly drawn from the supply of node identities,
    distinct from each other and from every variable drawn before; the
    combining expression is the generic node of the two formals; the
    identity element is the constant 0 for [sum], the constant 1 for
    [prod], the greatest value of the type for [min] and the least for
    [max]; the predicate is the boolean literal true and the value index 0.
    The two extremes are, for a scalar signed type of width [w], the
    literals [2^(w-1) - 1] and [- 2^(w-1)], which bound every literal in
    range and which the folds of binary [min] and [max] absorb; for a
    scalar unsigned type the literals [2^w - 1] and 0; for a scalar float
    type the literal of the greatest finite value of its format,
    [(2^24 - 1) * 2^104] for 32 bits, [(2^11 - 1) * 2^5] for 16 bits and
    [(2^53 - 1) * 2^971] otherwise, and its negation; and for a vector type
    the broadcasts of those of the element type. *)
Theorem reduction_builders (source : Expr) (rdom : list IterVar) (next : nat) :
  let t := type_of source in
  let x := mkVar "x" t next in
  let y := mkVar "y" t (S next) in
  sum source rdom next = (reduction_of source rdom x y Add (make_zero t), S (S next))
  /\ prod source rdom next
     = (reduction_of source rdom x y Mul (make_const t 1), S (S next))
  /\ min source rdom next
     = (reduction_of source rdom x y Min (Type_max t), S (S next))
  /\ max source rdom next
     = (reduction_of source rdom x y Max (Type_min t), S (S next))
  /\ var_id x <> var_id y /\ var_type x = t /\ var_type y = t
  /\ (forall v : Var, (var_id v < next)%nat -> v <> x /\ v <> y)
  /\ const_is 0 (make_zero t) = true
  /\ (2 <= bits t -> const_is 1 (make_const t 1) = true)
  /\ make_const (Bool 1) true = UIntImm (Bool 1) 1
  /\ (lanes t <> 1 ->
      Type_max t = Broadcast (Type_max (element_of t)) (lanes t)
      /\ Type_min t = Broadcast (Type_min (element_of t)) (lanes t))
  /\ (lanes t = 1 -> 1 <= bits t <= 64 ->
      match code t with
      | TInt =>
          Type_max t = IntImm t (2 ^ (bits t - 1) - 1)
          /\ Type_min t = IntImm t (- 2 ^ (bits t - 1))
          /\ (forall v, wf_literal (IntImm t v) = true ->
               - 2 ^ (bits t - 1) <= v <= 2 ^ (bits t - 1) - 1
               /\ min_expr (Type_max t) (IntImm t v) = Ok (IntImm t v)
               /\ max_expr (Type_min t) (IntImm t v) = Ok (IntImm t v))
      | TUInt =>
          Type_max t = UIntImm t (2 ^ bits t - 1)
          /\ Type_min t = UIntImm t 0
          /\ (forall v, wf_literal (UIntImm t v) = true -> 0 <= v <= 2 ^ bits t - 1)
      | TFloat =>
          Type_max t = FloatImm t (float_max (bits t))
          /\ Type_min t = FloatImm t (- float_max (bits t))%float
          /\ (0 <? float_max (bits t))%float = true
          /\ is_infinity (float_max (bits t)) = false
          /\ float_is (float_max (bits t)) false (2 ^ float_digits t - 1)
               (if bits t =? 32 then 104 else if bits t =? 16 then 5 else 971)
      end).
Proof.
  intros t x y.
  repeat match goal with |- _ /\ _ => split end; try reflexivity.
  - simpl; lia.
  - intros v Hv; split; intros ->; simpl in Hv; lia.
  - unfold make_zero, make_const.
    destruct (lanes t =? 1); cbn [const_is].
    + generalize (literal_zero_MakeConstScalar t).
      unfold MakeConstScalar; destruct (code t); auto.
    + apply literal_zero_MakeConstScalar.
  - intros Hb; unfold make_const.
    destruct (lanes t =? 1); cbn [const_is].
    + generalize (literal_one_MakeConstScalar t Hb).
      unfold MakeConstScalar; destruct (code t); auto.
    + now apply literal_one_MakeConstScalar.
  - intros Hl; apply Z.eqb_neq in Hl; unfold Type_max at 1, Type_min at 1.
    rewrite Hl; split; reflexivity.
  - intros Hl Hb. destruct (code t) eqn:Hc.
    + assert (Hi : is_int t = true) by (unfold is_int; now rewrite Hc).
      destruct (Type_extremes_int t Hi Hl Hb) as [-> ->].
      split; [reflexivity|]. split; [reflexivity|].
      intros v Hv. destruct (wf_IntImm _ _ Hv) as (_ & _ & _ & Hr).
      split; [lia|].
      unfold min_expr, max_expr; rewrite !arith_same_type by reflexivity.
      cbn [as_IntImm has ival andb type_of]; rewrite wider_same.
      rewrite Z.min_r, Z.max_r by lia.
      unfold IntImm_make; now rewrite wrap_signed_id by lia.
    + assert (Hi : is_uint t = true) by (unfold is_uint; now rewrite Hc).
      destruct (Type_extremes_uint t Hi Hl Hb) as [-> ->].
      split; [reflexivity|]. split; [reflexivity|].
      intros v; cbn [wf_literal].
      rewrite !andb_true_iff, Z.leb_le, Z.ltb_lt. lia.
    + assert (Hi : is_float t = true) by (unfold is_float; now rewrite Hc).
      destruct (Type_extremes_float t Hi Hl) as (Emax & Emin & Hpos & Hfin).
      split; [exact Emax|]. split; [exact Emin|]. split; [exact Hpos|].
      split; [exact Hfin|].
      unfold float_max, float_digits.
      destruct (Z.eqb_spec (bits t) 16) as [E16 | _], (Z.eqb_spec (bits t) 32) as [E32 | _];
        try (rewrite E16 in E32; discriminate);
        eexists _, _; (split; [reflexivity|]); reflexivity.
Qed.

(** The instances of the specification on an [int32] source over the empty
    domain: [min] is seeded with the greatest [int32], [max] with the
    least, [sum] with 0. *)
Lemma reduction_builders_witness :
  fst (min (VarExpr (mkVar "a" i32 0)) [] 1%nat)
  = Reduce i32
      (CommReducerNode [mkVar "x" i32 1] [mkVar "y" i32 2]
         [Min (VarExpr (mkVar "x" i32 1)) (VarExpr (mkVar "y" i32 2))]
         [IntImm i32 2147483647])
      [VarExpr (mkVar "a" i32 0)] [] (UIntImm (Bool 1) 1) 0
  /\ fst (max (VarExpr (mkVar "a" i32 0)) [] 1%nat)
     = Reduce i32
         (CommReducerNode [mkVar "x" i32 1] [mkVar "y" i32 2]
            [Max (VarExpr (mkVar "x" i32 1)) (VarExpr (mkVar "y" i32 2))]
            [IntImm i32 (-2147483648)])
         [VarExpr (mkVar "a" i32 0)] [] (UIntImm (Bool 1) 1) 0
  /\ fst (sum (VarExpr (mkVar "a" i32 0)) [] 1%nat)
     = Reduce i32
         (CommReducerNode [mkVar "x" i32 1] [mkVar "y" i32 2]
            [Add (VarExpr (mkVar "x" i32 1)) (VarExpr (mkVar "y" i32 2))]
            [IntImm i32 0])
         [VarExpr (mkVar "a" i32 0)] [] (UIntImm (Bool 1) 1) 0.
Proof.
  destruct (reduction_builders (VarExpr (mkVar "a" i32 0)) [] 1)
    as (Es & _ & Emin & Emax & _).
  rewrite Es, Emin, Emax. repeat split.
Defined.

(* ================================================================== *)
(** * Shifts and bitwise operators: folds, identities and calls *)

Lemma promoted_call_inv (name : string) (a b r : Expr) :
  promoted_call name a b = Ok r ->
  exists a' b', BinaryOpMatchTypes a b = Ok (a', b')
                /\ r = Call (type_of a') name [a'; b'] PureIntrinsic.
Proof.
  unfold promoted_call.
  destruct (BinaryOpMatchTypes a b) as [[a' b']|e]; [|discriminate].
  intros [= <-]; now exists a', b'.
Qed.

(** Each of the five operators, case by case. *)
Lemma bitop_cases (o : BitOp) (a b : Expr) :
  bitop_apply o a b
  = if IsIndexType (type_of a) && IsIndexType (type_of b) then
      match as_IntImm a, as_IntImm b with
      | Some va, Some vb =>
          Ok (IntImm_make (wider (type_of a) (type_of b))
                (match o with
                 | Shr => int64.shr va vb
                 | Shl => int64.shl va vb
                 | BitAnd => int64.and va vb
                 | BitOr => int64.or va vb
                 | BitXor => int64.xor va vb
                 end))
      | None, Some vb =>
          if is_shift o && (vb =? 0)
          then Ok (SimpleCast (wider (type_of a) (type_of b)) a)
          else promoted_call (bitop_name o) a b
      | _, None => promoted_call (bitop_name o) a b
      end
    else promoted_call (bitop_name o) a b.
Proof.
  destruct o; unfold bitop_apply, operator_shr, operator_shl, operator_bitand,
    operator_bitor, operator_bitxor, TVM_INDEX_CONST_PROPAGATION, promoted_call;
    destruct (IsIndexType (type_of a) && IsIndexType (type_of b)); try reflexivity;
    destruct (as_IntImm a) as [va|], (as_IntImm b) as [vb|];
    cbn [has ival andb is_shift bitop_name]; try reflexivity;
    destruct (vb =? 0); reflexivity.
Qed.

Lemma IntImm_make_in_range (t : Type_) (v : Z) :
  wf_literal (IntImm t v) = true -> IntImm_make t v = IntImm t v.
Proof.
  intros H; apply wf_IntImm in H; destruct H as (_ & _ & Hb & Hv).
  unfold IntImm_make; now rewrite wrap_signed_id by lia.
Qed.

Lemma as_IntImm_literal (x : Expr) (v : Z) : as_IntImm x = Some v -> is_literal x = true.
Proof. destruct x; simpl; congruence. Qed.

(** C9, as amended. For each of shift-right, shift-left and bitwise and, or,
    xor: a literal result has two literal operands of index types, and two
    signed literals of index types do fold; [x >> 0] and [x << 0] are [x]
    when [x] and the literal 0 have one index type (and [x] cast to the
    wider of two index types when [x] is symbolic), while outside the index
    types they are calls like any other; every result that is returned is a
    literal, the shifted operand of a shift by the literal 0, or the named
    intrinsic call on the promoted operands, and with a type that is no
    index type it is always that call. Bitwise not never folds: it returns
    its intrinsic call, or fails on a float operand. *)
Theorem shift_bitwise_fold (o : BitOp) (a b : Expr) :
  (forall r, bitop_apply o a b = Ok r -> is_literal r = true ->
     IsIndexType (type_of a) = true /\ IsIndexType (type_of b) = true
     /\ is_literal a = true /\ is_literal b = true)
  /\ (forall va vb, as_IntImm a = Some va -> as_IntImm b = Some vb ->
      IsIndexType (type_of a) && IsIndexType (type_of b) = true ->
      exists v, bitop_apply o a b = Ok (IntImm (wider (type_of a) (type_of b)) v))
  /\ (forall t0, is_shift o = true -> IsIndexType (type_of a) = true ->
      IsIndexType t0 = true -> wf_literal a = true ->
      (type_of a = t0 -> bitop_apply o a (IntImm t0 0) = Ok a)
      /\ (as_IntImm a = None ->
          bitop_apply o a (IntImm t0 0) = Ok (SimpleCast (wider (type_of a) t0) a)))
  /\ (forall r, bitop_apply o a b = Ok r ->
      is_literal r = true
      \/ (is_shift o = true /\ as_IntImm b = Some 0
          /\ r = SimpleCast (wider (type_of a) (type_of b)) a)
      \/ exists a' b', BinaryOpMatchTypes a b = Ok (a', b')
                       /\ r = Call (type_of a') (bitop_name o) [a'; b'] PureIntrinsic)
  /\ (IsIndexType (type_of a) && IsIndexType (type_of b) = false ->
      bitop_apply o a b = promoted_call (bitop_name o) a b)
  /\ (forall r, operator_bitnot a = Ok r ->
      r = Call (type_of a) Call_bitwise_not [a] PureIntrinsic).
Proof.
  split; [|split; [|split; [|split; [|split]]]].
  - intros r; rewrite bitop_cases.
    destruct (IsIndexType (type_of a) && IsIndexType (type_of b)) eqn:Hix.
    + apply andb_true_iff in Hix; destruct Hix as [Ha Hb].
      destruct (as_IntImm a) as [va|] eqn:Ea, (as_IntImm b) as [vb|] eqn:Eb.
      * intros _ _; repeat split; eauto using as_IntImm_literal.
      * intros Hr Hl; apply promoted_call_inv in Hr.
        destruct Hr as (a' & b' & _ & ->); discriminate.
      * destruct (is_shift o && (vb =? 0)).
        -- intros [= <-] Hl; repeat split; eauto using as_IntImm_literal.
           unfold SimpleCast in Hl.
           destruct (Type_eqb (type_of a) (wider (type_of a) (type_of b)));
             [assumption|discriminate].
        -- intros Hr Hl; apply promoted_call_inv in Hr.
           destruct Hr as (a' & b' & _ & ->); discriminate.
      * intros Hr Hl; apply promoted_call_inv in Hr.
        destruct Hr as (a' & b' & _ & ->); discriminate.
    + intros Hr Hl; apply promoted_call_inv in Hr.
      destruct Hr as (a' & b' & _ & ->); discriminate.
  - intros va vb Ea Eb Hix; rewrite bitop_cases, Hix, Ea, Eb.
    eexists; reflexivity.
  - intros t0 Hs Ha H0 Hwf; rewrite bitop_cases; cbn [type_of as_IntImm].
    rewrite Ha, H0, Hs; cbn [andb Z.eqb].
    split.
    + intros <-. rewrite wider_same.
      destruct (as_IntImm a) as [va|] eqn:Ea.
      * pose proof (as_IntImm_Some _ _ Ea) as Ex. rewrite Ex in Hwf.
        f_equal. symmetry; etransitivity; [exact Ex|symmetry].
        destruct o; try discriminate; unfold int64.shr, int64.shl.
        -- rewrite Z.shiftr_0_r. now apply IntImm_make_in_range.
        -- rewrite Z.shiftl_0_r. now apply IntImm_make_wf.
      * now rewrite SimpleCast_same.
    + intros ->; reflexivity.
  - intros r; rewrite bitop_cases.
    destruct (IsIndexType (type_of a) && IsIndexType (type_of b)).
    + destruct (as_IntImm a) as [va|] eqn:Ea, (as_IntImm b) as [vb|] eqn:Eb.
      * intros [= <-]; now left.
      * intros Hr; right; right; now apply promoted_call_inv.
      * destruct (is_shift o) eqn:Hs, (Z.eqb_spec vb 0) as [-> | Hv]; cbn [andb].
        -- intros [= <-]; right; left; auto.
        -- intros Hr; right; right; now apply promoted_call_inv.
        -- intros Hr; right; right; now apply promoted_call_inv.
        -- intros Hr; right; right; now apply promoted_call_inv.
      * intros Hr; right; right; now apply promoted_call_inv.
    + intros Hr; right; right; now apply promoted_call_inv.
  - intros Hix; rewrite bitop_cases; now rewrite Hix.
  - intros r; unfold operator_bitnot.
    destruct (is_int (type_of a) || is_uint (type_of a)); [|discriminate].
    now intros [= <-].
Qed.

(** The instances at a symbolic [int32] operand and the literal 0, and at
    two [int32] literals. *)
Lemma shift_bitwise_fold_witness :
  operator_shr (VarExpr (mkVar "x" i32 0)) (IntImm i32 0) = Ok (VarExpr (mkVar "x" i32 0))
  /\ operator_shl (VarExpr (mkVar "x" i32 0)) (IntImm i32 0) = Ok (VarExpr (mkVar "x" i32 0))
  /\ operator_shr (IntImm i32 8) (IntImm i32 1) = Ok (IntImm i32 4)
  /\ operator_bitand (VarExpr (mkVar "x" i32 0)) (IntImm i32 6)
     = Ok (Call i32 Call_bitwise_and [VarExpr (mkVar "x" i32 0); IntImm i32 6]
             PureIntrinsic).
Proof.
  destruct (shift_bitwise_fold Shr (VarExpr (mkVar "x" i32 0)) (IntImm i32 0))
    as (_ & _ & Hr & _).
  destruct (shift_bitwise_fold Shl (VarExpr (mkVar "x" i32 0)) (IntImm i32 0))
    as (_ & _ & Hl & _).
  split; [|split; [|split]].
  - apply (Hr i32); reflexivity.
  - apply (Hl i32); reflexivity.
  - reflexivity.
  - reflexivity.
Defined.

(** C9, the claim as stated fails: for an [int8] variable, not of index
    type, [x >> 0] and [x << 0] are intrinsic calls and not [x]. *)
Lemma shift_bitwise_fold_counterexample :
  operator_shr (VarExpr (mkVar "x" i8 0)) (IntImm i8 0)
  = Ok (Call i8 Call_shift_right [VarExpr (mkVar "x" i8 0); IntImm i8 0] PureIntrinsic)
  /\ operator_shl (VarExpr (mkVar "x" i8 0)) (IntImm i8 0)
     = Ok (Call i8 Call_shift_left [VarExpr (mkVar "x" i8 0); IntImm i8 0] PureIntrinsic).
Proof. split; reflexivity. Qed.

(* ================================================================== *)
(** * Promotion is decided by the operand types *)

Lemma cast_equal_lanes (t : Type_) (v : Expr) :
  lanes (type_of v) = lanes t -> exists e, cast t v = Ok e /\ type_of e = t.
Proof.
  intros Hl.
  assert (H : exists e, cast t v = Ok e).
  { unfold cast; rewrite (Cast_make_lanes t v Hl).
    destruct (Type_eqb (type_of v) t); [eauto|].
    destruct (Z.eqb_spec (lanes t) 1); [destruct v; eauto|].
    destruct (Z.eqb_spec (lanes (type_of v)) 1); [congruence|].
    rewrite Hl, Z.eqb_refl; eauto. }
  destruct H as (e & He); exists e; split; [exact He|].
  now apply (type_of_cast t v).
Qed.

Lemma with_lanes_same (t : Type_) : with_lanes t (lanes t) = t.
Proof. now destruct t. Qed.

(** With equal lane counts promotion is the reconciliation of kinds. *)
Lemma promote_equal_lanes_outcome (a b : Expr) :
  lanes (type_of a) = lanes (type_of b) ->
  match reconciled_type (type_of a) (type_of b) with
  | Some u => exists a' b',
      BinaryOpMatchTypes a b = Ok (a', b') /\ type_of a' = u /\ type_of b' = u
  | None => BinaryOpMatchTypes a b = Error TypeMismatch
  end.
Proof.
  intros Hl; unfold BinaryOpMatchTypes, reconciled_type.
  destruct (Type_eqb (type_of a) (type_of b)) eqn:E.
  { apply Type_eqb_eq in E. exists a, b; auto. }
  rewrite Hl, Z.eqb_refl, andb_negb_r; cbn [bind andb]; rewrite E.
  destruct (cast_equal_lanes (type_of b) a Hl) as (ea & Ha & Hta).
  destruct (cast_equal_lanes (type_of a) b (eq_sym Hl)) as (eb & Hb & Htb).
  rewrite Ha, Hb; cbn [bind].
  repeat match goal with
         | |- context [if ?c then _ else _] => destruct c
         end;
    try reflexivity; eexists _, _; (split; [reflexivity|]);
    rewrite ?type_of_SimpleCast, ?Hl; auto.
Qed.

Lemma promote_outcome (a b : Expr) :
  match promoted_type (type_of a) (type_of b) with
  | Some u => exists a' b',
      BinaryOpMatchTypes a b = Ok (a', b') /\ type_of a' = u /\ type_of b' = u
  | None => BinaryOpMatchTypes a b = Error TypeMismatch
  end.
Proof.
  unfold promoted_type, reconciled_lanes.
  destruct (Type_eqb (type_of a) (type_of b)) eqn:E.
  { apply Type_eqb_eq in E. exists a, b; rewrite BinaryOpMatchTypes_same; auto. }
  destruct (Z.eqb_spec (lanes (type_of a)) 1) as [Ha | Ha],
           (Z.eqb_spec (lanes (type_of b)) 1) as [Hb | Hb]; cbn [andb negb].
  - rewrite Ha, Hb; cbn [Z.eqb Pos.eqb].
    replace (with_lanes (type_of a) 1) with (type_of a)
      by (rewrite <- Ha; now rewrite with_lanes_same).
    replace (with_lanes (type_of b) 1) with (type_of b)
      by (rewrite <- Hb; now rewrite with_lanes_same).
    apply promote_equal_lanes_outcome; congruence.
  - rewrite (promote_broadcast_l a b (lanes (type_of b))) by auto.
    rewrite with_lanes_same.
    apply (promote_equal_lanes_outcome (Broadcast a (lanes (type_of b))) b); reflexivity.
  - rewrite (promote_broadcast_r a b (lanes (type_of a))) by auto.
    rewrite with_lanes_same.
    apply (promote_equal_lanes_outcome a (Broadcast b (lanes (type_of a)))); reflexivity.
  - destruct (Z.eqb_spec (lanes (type_of a)) (lanes (type_of b))) as [Hl | Hl].
    + replace (with_lanes (type_of b) (lanes (type_of a))) with (type_of b)
        by (rewrite Hl; now rewrite with_lanes_same).
      rewrite with_lanes_same.
      now apply promote_equal_lanes_outcome.
    + unfold BinaryOpMatchTypes; rewrite E.
      apply Z.eqb_neq in Ha, Hb, Hl; now rewrite Ha, Hb, Hl.
Qed.

Lemma reconciled_type_sym (s t : Type_) :
  lanes s = lanes t -> reconciled_type s t = reconciled_type t s.
Proof.
  intros Hl; unfold reconciled_type.
  rewrite (Type_eqb_sym t s).
  destruct (Type_eqb s t) eqn:E.
  { apply Type_eqb_eq in E; now subst. }
  apply Type_eqb_neq in E.
  pose proof (same_kind_bits_differ s t E) as Hb.
  rewrite (Z.max_comm (bits t)), <- Hl.
  unfold is_float, is_int, is_uint.
  destruct (code s) eqn:Cs, (code t) eqn:Ct; cbn [TypeCode_eqb andb orb negb];
    try reflexivity;
    specialize (Hb eq_refl Hl);
    destruct (Z.ltb_spec (bits s) (bits t)), (Z.ltb_spec (bits t) (bits s));
    try reflexivity; lia.
Qed.

Lemma reconciled_lanes_sym (s t : Type_) : reconciled_lanes s t = reconciled_lanes t s.
Proof.
  unfold reconciled_lanes.
  destruct (Z.eqb_spec (lanes s) 1), (Z.eqb_spec (lanes t) 1),
    (Z.eqb_spec (lanes s) (lanes t)), (Z.eqb_spec (lanes t) (lanes s));
    cbn [andb negb]; congruence.
Qed.

Lemma promoted_type_sym (s t : Type_) : promoted_type s t = promoted_type t s.
Proof.
  unfold promoted_type.
  rewrite (Type_eqb_sym t s), (reconciled_lanes_sym t s).
  destruct (Type_eqb s t) eqn:E.
  { apply Type_eqb_eq in E; now subst. }
  destruct (reconciled_lanes s t); [|reflexivity].
  now apply reconciled_type_sym.
Qed.

(** X1. Whether promotion succeeds, and the type both operands then have,
    is decided by the two operand types alone ([promoted_type]); a failure
    is always TypeMismatch; and promoting the promoted pair again changes
    nothing. *)
Theorem promotion_by_types (a b : Expr) :
  match promoted_type (type_of a) (type_of b) with
  | Some u => exists a' b',
      BinaryOpMatchTypes a b = Ok (a', b')
      /\ type_of a' = u /\ type_of b' = u
      /\ BinaryOpMatchTypes a' b' = Ok (a', b')
  | None => BinaryOpMatchTypes a b = Error TypeMismatch
  end.
Proof.
  pose proof (promote_outcome a b) as H.
  destruct (promoted_type (type_of a) (type_of b)); [|exact H].
  destruct H as (a' & b' & E & Ha & Hb).
  exists a', b'; repeat split; auto.
  apply BinaryOpMatchTypes_same; congruence.
Qed.

(** X2. Promotion is symmetric in its outcome: the operands in either order
    are promoted to one and the same type, or promotion fails with
    TypeMismatch in both orders. *)
Theorem promotion_symmetric (a b : Expr) :
  match BinaryOpMatchTypes a b, BinaryOpMatchTypes b a with
  | Ok (a', b'), Ok (b'', a'') =>
      type_of a' = type_of a'' /\ type_of b' = type_of b'' /\ type_of a' = type_of b'
  | Error e1, Error e2 => e1 = TypeMismatch /\ e2 = TypeMismatch
  | _, _ => False
  end.
Proof.
  pose proof (promote_outcome a b) as H1.
  pose proof (promote_outcome b a) as H2.
  rewrite (promoted_type_sym (type_of b)) in H2.
  destruct (promoted_type (type_of a) (type_of b)).
  - destruct H1 as (a' & b' & -> & Ha & Hb), H2 as (b'' & a'' & -> & Hb' & Ha').
    repeat split; congruence.
  - now rewrite H1, H2.
Qed.

(* ================================================================== *)
(** * Fixed-width arithmetic of the literal folds *)

Lemma pow2_double (w : Z) : 1 <= w -> 2 ^ w = 2 * 2 ^ (w - 1).
Proof.
  intros Hw. replace w with (Z.succ (w - 1)) at 1 by lia.
  apply Z.pow_succ_r; lia.
Qed.

Lemma wrap_signed_range (w v : Z) :
  1 <= w -> - 2 ^ (w - 1) <= wrap_signed w v < 2 ^ (w - 1).
Proof.
  intros Hw; unfold wrap_signed.
  pose proof (pow2_double w Hw) as E.
  assert (0 < 2 ^ (w - 1)) by (apply Z.pow_pos_nonneg; lia).
  pose proof (Z.mod_pos_bound (v + 2 ^ (w - 1)) (2 ^ w) ltac:(lia)). lia.
Qed.

(** Two values of one residue have one two's complement reading. *)
Lemma wrap_signed_congr (w u v : Z) :
  u mod 2 ^ w = v mod 2 ^ w -> wrap_signed w u = wrap_signed w v.
Proof.
  intros E; unfold wrap_signed. f_equal.
  rewrite (Zplus_mod u), (Zplus_mod v), E. reflexivity.
Qed.

Lemma wrap_signed_mod (w v : Z) : 1 <= w -> wrap_signed w v mod 2 ^ w = v mod 2 ^ w.
Proof.
  intros Hw; unfold wrap_signed.
  assert (0 < 2 ^ w) by (apply Z.pow_pos_nonneg; lia).
  rewrite Zminus_mod, Zmod_mod, <- Zminus_mod.
  f_equal; lia.
Qed.

(** Reading at a width what was read at a larger one is reading at the
    width. *)
Lemma wrap_signed_narrow (w w' v : Z) :
  1 <= w <= w' -> wrap_signed w (wrap_signed w' v) = wrap_signed w v.
Proof.
  intros Hw; apply wrap_signed_congr.
  assert (Hm : 0 < 2 ^ w) by (apply Z.pow_pos_nonneg; lia).
  assert (Hm' : 0 < 2 ^ w') by (apply Z.pow_pos_nonneg; lia).
  assert (Hd : (2 ^ w | 2 ^ w')).
  { exists (2 ^ (w' - w)). rewrite <- Z.pow_add_r by lia. f_equal; lia. }
  rewrite <- (Z.mod_mod_divide (wrap_signed w' v) _ _ Hd).
  rewrite wrap_signed_mod by lia.
  now apply Z.mod_mod_divide.
Qed.
Lemma IntImm_make_int64 (t : Type_) (v : Z) :
  1 <= bits t <= 64 ->
  IntImm_make t (wrap_signed 64 v) = IntImm t (wrap_signed (bits t) v).
Proof.
  intros Hb; unfold IntImm_make. now rewrite wrap_signed_narrow.
Qed.

Lemma wf_IntImm_wrap (t : Type_) (v : Z) :
  is_int t = true -> lanes t = 1 -> 1 <= bits t <= 64 ->
  wf_literal (IntImm t (wrap_signed (bits t) v)) = true.
Proof.
  intros Hi Hl Hb; cbn [wf_literal].
  pose proof (wrap_signed_range (bits t) v ltac:(lia)).
  rewrite Hi, Hl; cbn [Z.eqb Pos.eqb andb].
  rewrite !andb_true_iff, !Z.leb_le, Z.ltb_lt. lia.
Qed.

(** The three folds on two signed literals of one type. *)
Lemma add_literals (t : Type_) (a b : Z) :
  operator_add (IntImm t a) (IntImm t b) = Ok (IntImm_make t (int64.add a b)).
Proof.
  unfold operator_add; rewrite arith_same_type by reflexivity.
  cbn [as_IntImm has ival andb type_of]. now rewrite wider_same.
Qed.

Lemma sub_literals (t : Type_) (a b : Z) :
  operator_sub (IntImm t a) (IntImm t b) = Ok (IntImm_make t (int64.sub a b)).
Proof.
  unfold operator_sub; rewrite arith_same_type by reflexivity.
  cbn [as_IntImm has ival andb type_of]. now rewrite wider_same.
Qed.

Lemma mul_literals (t : Type_) (a b : Z) :
  operator_mul (IntImm t a) (IntImm t b) = Ok (IntImm_make t (int64.mul a b)).
Proof.
  unfold operator_mul; rewrite arith_same_type by reflexivity.
  cbn [as_IntImm has ival andb type_of]. now rewrite wider_same.
Qed.

(** X3. On two signed literals of one type of width [w] (at most 64), [+],
    [-] and [*] fold to the literal of the exact result read in [w]-bit
    two's complement: the turn through [int64_t] leaves no trace. For a
    scalar signed-int type the folded literal is in the range of its
    type. *)
Theorem literal_folds_wrap (t : Type_) (a b : Z) :
  1 <= bits t <= 64 ->
  operator_add (IntImm t a) (IntImm t b) = Ok (IntImm t (wrap_signed (bits t) (a + b)))
  /\ operator_sub (IntImm t a) (IntImm t b) = Ok (IntImm t (wrap_signed (bits t) (a - b)))
  /\ operator_mul (IntImm t a) (IntImm t b) = Ok (IntImm t (wrap_signed (bits t) (a * b)))
  /\ (is_int t = true -> lanes t = 1 ->
      wf_literal (IntImm t (wrap_signed (bits t) (a + b))) = true
      /\ wf_literal (IntImm t (wrap_signed (bits t) (a - b))) = true
      /\ wf_literal (IntImm t (wrap_signed (bits t) (a * b))) = true).
Proof.
  intros Hb.
  rewrite add_literals, sub_literals, mul_literals.
  unfold int64.add, int64.sub, int64.mul.
  rewrite !IntImm_make_int64 by assumption.
  repeat split; auto using wf_IntImm_wrap.
Qed.

(** The instance on [int8]: [127 + 1] is [-128], [(-128) - 1] is [127] and
    [16 * 16] is [0]. *)
Lemma literal_folds_wrap_witness :
  1 <= bits i8 <= 64
  /\ operator_add (IntImm i8 127) (IntImm i8 1) = Ok (IntImm i8 (-128))
  /\ operator_sub (IntImm i8 (-128)) (IntImm i8 1) = Ok (IntImm i8 127)
  /\ operator_mul (IntImm i8 16) (IntImm i8 16) = Ok (IntImm i8 0).
Proof.
  assert (H : 1 <= bits i8 <= 64) by (simpl; lia).
  split; [exact H|].
  destruct (literal_folds_wrap i8 127 1 H) as (Ha & _).
  destruct (literal_folds_wrap i8 (-128) 1 H) as (_ & Hs & _).
  destruct (literal_folds_wrap i8 16 16 H) as (_ & _ & Hm & _).
  split; [exact Ha|]. split; [exact Hs|exact Hm].
Defined.

Lemma wrap_signed_add_l (w a b : Z) :
  1 <= w -> wrap_signed w (wrap_signed w a + b) = wrap_signed w (a + b).
Proof.
  intros Hw; apply wrap_signed_congr.
  rewrite Zplus_mod, wrap_signed_mod, <- Zplus_mod by assumption. reflexivity.
Qed.

Lemma wrap_signed_add_r (w a b : Z) :
  1 <= w -> wrap_signed w (a + wrap_signed w b) = wrap_signed w (a + b).
Proof.
  intros Hw; rewrite (Z.add_comm a), wrap_signed_add_l by assumption.
  now rewrite Z.add_comm.
Qed.

Lemma wrap_signed_mul_l (w a b : Z) :
  1 <= w -> wrap_signed w (wrap_signed w a * b) = wrap_signed w (a * b).
Proof.
  intros Hw; apply wrap_signed_congr.
  rewrite Zmult_mod, wrap_signed_mod, <- Zmult_mod by assumption. reflexivity.
Qed.

Lemma wrap_signed_mul_r (w a b : Z) :
  1 <= w -> wrap_signed w (a * wrap_signed w b) = wrap_signed w (a * b).
Proof.
  intros Hw; rewrite (Z.mul_comm a), wrap_signed_mul_l by assumption.
  now rewrite Z.mul_comm.
Qed.

Lemma wrap_signed_opp (w a : Z) :
  1 <= w -> wrap_signed w (- wrap_signed w a) = wrap_signed w (- a).
Proof.
  intros Hw; apply wrap_signed_congr.
  rewrite <- !Z.sub_0_l.
  rewrite Zminus_mod, wrap_signed_mod, <- Zminus_mod by assumption. reflexivity.
Qed.

(** The folds of [+] and [*] at a width, in one step. *)
Lemma add_literals_wrap (t : Type_) (a b : Z) :
  1 <= bits t <= 64 ->
  operator_add (IntImm t a) (IntImm t b) = Ok (IntImm t (wrap_signed (bits t) (a + b))).
Proof.
  intros Hb; rewrite add_literals; unfold int64.add.
  now rewrite IntImm_make_int64.
Qed.

Lemma mul_literals_wrap (t : Type_) (a b : Z) :
  1 <= bits t <= 64 ->
  operator_mul (IntImm t a) (IntImm t b) = Ok (IntImm t (wrap_signed (bits t) (a * b))).
Proof.
  intros Hb; rewrite mul_literals; unfold int64.mul.
  now rewrite IntImm_make_int64.
Qed.

(** X4. Folded [+] and [*] on signed literals of one type obey the ring laws
    also where they overflow: both are commutative and associative, and [*]
    distributes over [+]. *)
Theorem literal_folds_ring (t : Type_) (a b c : Z) :
  1 <= bits t <= 64 ->
  let A := IntImm t a in
  let B := IntImm t b in
  let C := IntImm t c in
  operator_add A B = operator_add B A
  /\ operator_mul A B = operator_mul B A
  /\ (ab <- operator_add A B ;; operator_add ab C)
     = (bc <- operator_add B C ;; operator_add A bc)
  /\ (ab <- operator_mul A B ;; operator_mul ab C)
     = (bc <- operator_mul B C ;; operator_mul A bc)
  /\ (bc <- operator_add B C ;; operator_mul A bc)
     = (ab <- operator_mul A B ;; ac <- operator_mul A C ;; operator_add ab ac).
Proof.
  intros Hb A B C; subst A B C.
  assert (Hw : 1 <= bits t) by lia.
  rewrite !add_literals_wrap, !mul_literals_wrap by assumption; cbn [bind].
  rewrite !add_literals_wrap, !mul_literals_wrap by assumption; cbn [bind].
  rewrite ?add_literals_wrap by assumption.
  rewrite (Z.add_comm b a), (Z.mul_comm b a).
  rewrite ?wrap_signed_add_l, ?wrap_signed_add_r, ?wrap_signed_mul_l,
    ?wrap_signed_mul_r by assumption.
  rewrite ?wrap_signed_add_l, ?wrap_signed_add_r by assumption.
  repeat split; do 3 f_equal; ring.
Qed.

(** The instance on [int8] where every step overflows. *)
Lemma literal_folds_ring_witness :
  1 <= bits i8 <= 64
  /\ (ab <- operator_add (IntImm i8 100) (IntImm i8 100) ;; operator_add ab (IntImm i8 (-100)))
     = (bc <- operator_add (IntImm i8 100) (IntImm i8 (-100)) ;;
        operator_add (IntImm i8 100) bc).
Proof.
  assert (H : 1 <= bits i8 <= 64) by (simpl; lia).
  split; [exact H|].
  exact (proj1 (proj2 (proj2 (literal_folds_ring i8 100 100 (-100) H)))).
Defined.

(* ================================================================== *)
(** * Unary minus and subtraction *)

Lemma has_as_IntImm_false (x : Expr) : as_IntImm x = None -> has (as_IntImm x) = false.
Proof. now intros ->. Qed.

(** X5. Unary minus never fails and keeps the type of its operand: a signed
    literal is negated in the two's complement of its width, so that the
    least value of the width is its own negation and negating twice gives
    the literal back; a float literal is negated; and any other operand [x]
    becomes the generic subtraction of [x] from the zero of its type. *)
Theorem unary_minus (a : Expr) :
  (exists r, operator_neg a = Ok r /\ type_of r = type_of a)
  /\ (as_IntImm a = None -> as_FloatImm a = None ->
      operator_neg a = Ok (Sub (make_zero (type_of a)) a))
  /\ (forall t v, a = IntImm t v -> 1 <= bits t <= 64 ->
      operator_neg a = Ok (IntImm t (wrap_signed (bits t) (- v)))
      /\ operator_neg (IntImm t (- 2 ^ (bits t - 1))) = Ok (IntImm t (- 2 ^ (bits t - 1)))
      /\ (wf_literal a = true ->
          (n <- operator_neg a ;; operator_neg n) = Ok a)).
Proof.
  assert (Hsym : as_IntImm a = None -> as_FloatImm a = None ->
                 operator_neg a = Ok (Sub (make_zero (type_of a)) a)).
  { intros Hi Hf; unfold operator_neg, operator_sub.
    rewrite Hi, Hf; cbn [has].
    rewrite arith_same_type by apply type_of_make_const.
    rewrite Hi, Hf; cbn [has andb]. now rewrite !andb_false_r. }
  assert (Hlit : forall t v, 1 <= bits t <= 64 ->
                 operator_neg (IntImm t v) = Ok (IntImm t (wrap_signed (bits t) (- v)))).
  { intros t v Hb; unfold operator_neg, int64.neg; cbn [as_IntImm has ival type_of].
    now rewrite IntImm_make_int64. }
  split; [|split].
  - destruct (as_IntImm a) as [v|] eqn:Hi.
    { unfold operator_neg; rewrite Hi; cbn [has]. eexists; split; reflexivity. }
    destruct (as_FloatImm a) as [f|] eqn:Hf.
    { unfold operator_neg; rewrite Hi, Hf; cbn [has]. eexists; split; reflexivity. }
    rewrite Hsym by reflexivity. eexists; split; [reflexivity|].
    apply type_of_make_const.
  - exact Hsym.
  - intros t v -> Hb.
    assert (Hw : 1 <= bits t) by lia.
    split; [now apply Hlit|]. split.
    + rewrite Hlit by assumption. do 2 f_equal.
      pose proof (pow2_double (bits t) Hw) as E.
      assert (0 < 2 ^ (bits t - 1)) by (apply Z.pow_pos_nonneg; lia).
      unfold wrap_signed. rewrite Z.opp_involutive.
      replace (2 ^ (bits t - 1) + 2 ^ (bits t - 1)) with (0 + 1 * 2 ^ bits t) by lia.
      rewrite Z_mod_plus_full, Zmod_0_l. lia.
    + intros Hwf. rewrite Hlit by assumption; cbn [bind].
      rewrite Hlit by assumption.
      rewrite wrap_signed_opp, Z.opp_involutive by assumption.
      apply wf_IntImm in Hwf; destruct Hwf as (_ & _ & _ & Hv).
      now rewrite wrap_signed_id by lia.
Qed.

(** The instances on [int8]: [-(-128)] is [-128], and [-x] for a variable
    [x] is [0 - x]. *)
Lemma unary_minus_witness :
  operator_neg (IntImm i8 (-128)) = Ok (IntImm i8 (-128))
  /\ operator_neg (IntImm i8 5) = Ok (IntImm i8 (-5))
  /\ operator_neg (VarExpr (mkVar "x" i8 0))
     = Ok (Sub (IntImm i8 0) (VarExpr (mkVar "x" i8 0))).
Proof.
  destruct (unary_minus (IntImm i8 5)) as (_ & _ & H).
  destruct (H i8 5 eq_refl ltac:(simpl; lia)) as (H5 & Hmin & _).
  destruct (unary_minus (VarExpr (mkVar "x" i8 0))) as (_ & Hx & _).
  split; [exact Hmin|]. split; [exact H5|]. exact (Hx eq_refl eq_refl).
Defined.

(** X6. On signed literals of one type, subtracting is adding the negation,
    also where either step overflows. For every scalar signed-int
    expression [x], a literal in range or not, [x - 0] is [x]; and [x - x]
    on an operand that is no literal is not cancelled: it is the generic
    subtraction node. *)
Theorem sub_is_add_neg (t : Type_) (a b : Z) :
  1 <= bits t <= 64 ->
  operator_sub (IntImm t a) (IntImm t b)
  = (nb <- operator_neg (IntImm t b) ;; operator_add (IntImm t a) nb)
  /\ (forall x, type_of x = t -> is_int t = true -> lanes t = 1 ->
      wf_literal x = true -> operator_sub x (IntImm t 0) = Ok x)
  /\ (forall x, as_IntImm x = None -> as_FloatImm x = None ->
      operator_sub x x = Ok (Sub x x)).
Proof.
  intros Hb. assert (Hw : 1 <= bits t) by lia.
  split; [|split].
  - rewrite sub_literals.
    unfold operator_neg, int64.neg, int64.sub; cbn [as_IntImm has ival type_of bind].
    rewrite !IntImm_make_int64 by assumption.
    rewrite add_literals_wrap by assumption.
    rewrite wrap_signed_add_r by assumption.
    do 3 f_equal; ring.
  - intros x <- Hi Hl Hwf.
    unfold operator_sub; rewrite arith_same_type by reflexivity.
    cbn [as_IntImm as_FloatImm type_of has ival fval andb].
    rewrite wider_same, !SimpleCast_same by reflexivity.
    destruct (as_IntImm x) as [v|] eqn:Hx; cbn [has ival andb]; [|reflexivity].
    pose proof (as_IntImm_Some _ _ Hx) as Ex. rewrite Ex in Hwf.
    unfold int64.sub. rewrite Z.sub_0_r, IntImm_make_wf by assumption.
    f_equal; now symmetry.
  - intros x Hi Hf.
    unfold operator_sub; rewrite arith_same_type by reflexivity.
    now rewrite Hi, Hf.
Qed.

(** The instance on [int8], where the negation of [-128] overflows. *)
Lemma sub_is_add_neg_witness :
  1 <= bits i8 <= 64
  /\ operator_sub (IntImm i8 (-100)) (IntImm i8 (-128))
     = (nb <- operator_neg (IntImm i8 (-128)) ;; operator_add (IntImm i8 (-100)) nb)
  /\ operator_sub (IntImm i8 (-100)) (IntImm i8 (-128)) = Ok (IntImm i8 28).
Proof.
  assert (H : 1 <= bits i8 <= 64) by (simpl; lia).
  split; [exact H|].
  split; [exact (proj1 (sub_is_add_neg i8 (-100) (-128) H))|reflexivity].
Defined.

(* ================================================================== *)
(** * The type of a result *)

Lemma type_of_IntImm_make (t : Type_) (v : Z) : type_of (IntImm_make t v) = t.
Proof. reflexivity. Qed.

Lemma type_of_FloatImm_make (t : Type_) (f : float) : type_of (FloatImm_make t f) = t.
Proof. reflexivity. Qed.

(** X7. For each of [+], [-], [*], [/] and binary [min], [max]: when the
    operand types cannot be promoted the operator fails with TypeMismatch;
    otherwise it returns an expression of the promoted type, whichever of
    its fold, identity or generic paths it takes, the one exception being
    the failed zero-divisor check of [/]. None of the six fails in any
    other way. *)
Theorem arith_result_type (o : ArithOp) (a b : Expr) :
  match promoted_type (type_of a) (type_of b) with
  | Some u =>
      (exists r, arith_apply o a b = Ok r /\ type_of r = u)
      \/ (o = OpDiv /\ arith_apply o a b = Error DivideByZero)
  | None => arith_apply o a b = Error TypeMismatch
  end.
Proof.
  pose proof (promote_outcome a b) as H.
  destruct (promoted_type (type_of a) (type_of b)) as [u|].
  - destruct H as (a' & b' & E & Ha & Hb).
    destruct o; unfold arith_apply, operator_add, operator_sub, operator_mul,
      operator_div, min_expr, max_expr, TVM_ARITH_CONST_PROPAGATION;
      rewrite E; cbn [bind]; rewrite Ha, Hb, wider_same;
      repeat match goal with
             | |- context [if ?c then _ else _] => destruct c
             end;
      first [ left; eexists; split; [reflexivity|];
              rewrite ?type_of_IntImm_make, ?type_of_FloatImm_make,
                ?type_of_SimpleCast; auto
            | right; split; reflexivity ].
  - destruct o; unfold arith_apply, operator_add, operator_sub, operator_mul,
      operator_div, min_expr, max_expr, TVM_ARITH_CONST_PROPAGATION;
      now rewrite H.
Qed.

Lemma promoted_type_index (s t : Type_) :
  IsIndexType s = true -> IsIndexType t = true ->
  promoted_type s t = Some (wider s t).
Proof.
  intros Hs Ht.
  destruct (IsIndexType_inv _ Hs) as (Is & Ls & _).
  destruct (IsIndexType_inv _ Ht) as (It & Lt & _).
  unfold promoted_type, reconciled_lanes, reconciled_type, wider.
  destruct (Type_eqb s t) eqn:E.
  { apply Type_eqb_eq in E; subst. now destruct (bits t >=? bits t). }
  rewrite Ls, Lt; cbn [Z.eqb Pos.eqb andb negb].
  replace (with_lanes s 1) with s by (rewrite <- Ls; now rewrite with_lanes_same).
  replace (with_lanes t 1) with t by (rewrite <- Lt; now rewrite with_lanes_same).
  rewrite E.
  unfold is_float, is_int in *.
  apply TypeCode_eqb_eq in Is, It. rewrite Is, It; cbn.
  rewrite Z.geb_leb.
  destruct (Z.ltb_spec (bits s) (bits t)), (Z.leb_spec (bits t) (bits s));
    try reflexivity; lia.
Qed.

Lemma promoted_call_outcome (name : string) (a b : Expr) :
  match promoted_type (type_of a) (type_of b) with
  | Some u => exists r, promoted_call name a b = Ok r /\ type_of r = u
  | None => promoted_call name a b = Error TypeMismatch
  end.
Proof.
  pose proof (promote_outcome a b) as H; unfold promoted_call.
  destruct (promoted_type (type_of a) (type_of b)) as [u|].
  - destruct H as (a' & b' & -> & Ha & Hb); cbn [bind].
    eexists; split; [reflexivity|exact Ha].
  - now rewrite H.
Qed.

(** X8. For each of [>>], [<<], [&], [|], [^] and for [%]: when the operand
    types cannot be promoted (never the case of two index types) the
    operator fails with TypeMismatch; otherwise it returns an expression of
    the promoted type, on the index fold and identity paths as on the call
    path, the one exception being the failed zero-divisor check of [%]. *)
Theorem index_result_type (a b : Expr) :
  (forall o,
      match promoted_type (type_of a) (type_of b) with
      | Some u => exists r, bitop_apply o a b = Ok r /\ type_of r = u
      | None => bitop_apply o a b = Error TypeMismatch
      end)
  /\ match promoted_type (type_of a) (type_of b) with
     | Some u =>
         (exists r, operator_mod a b = Ok r /\ type_of r = u)
         \/ operator_mod a b = Error DivideByZero
     | None => operator_mod a b = Error TypeMismatch
     end.
Proof.
  split.
  - intros o; rewrite bitop_cases.
    pose proof (promoted_call_outcome (bitop_name o) a b) as Hc.
    destruct (IsIndexType (type_of a) && IsIndexType (type_of b)) eqn:Hix;
      [|exact Hc].
    apply andb_true_iff in Hix; destruct Hix as [Ha Hb].
    rewrite (promoted_type_index _ _ Ha Hb) in *.
    destruct (as_IntImm a), (as_IntImm b); try exact Hc.
    + eexists; split; reflexivity.
    + destruct (is_shift o && (z =? 0)); [|exact Hc].
      eexists; split; [reflexivity|apply type_of_SimpleCast].
  - unfold operator_mod, TVM_INDEX_CONST_PROPAGATION.
    assert (Hgen : match promoted_type (type_of a) (type_of b) with
                   | Some u =>
                       (exists r, ('(a0, b0) <- BinaryOpMatchTypes a b ;; Ok (Mod a0 b0)) = Ok r
                                  /\ type_of r = u)
                       \/ ('(a0, b0) <- BinaryOpMatchTypes a b ;; Ok (Mod a0 b0))
                          = Error DivideByZero
                   | None => ('(a0, b0) <- BinaryOpMatchTypes a b ;; Ok (Mod a0 b0))
                             = Error TypeMismatch
                   end).
    { pose proof (promote_outcome a b) as H.
      destruct (promoted_type (type_of a) (type_of b)) as [u|].
      - destruct H as (a' & b' & -> & Ha & Hb); cbn [bind].
        left; eexists; split; [reflexivity|exact Ha].
      - now rewrite H. }
    destruct (IsIndexType (type_of a) && IsIndexType (type_of b)) eqn:Hix;
      [|exact Hgen].
    apply andb_true_iff in Hix; destruct Hix as [Ha Hb].
    rewrite (promoted_type_index _ _ Ha Hb) in *.
    destruct (IsIndexType_inv _ Ha) as (Ia & La & _).
    destruct (IsIndexType_inv _ Hb) as (Ib & Lb & _).
    assert (Hz : type_of (make_zero (wider (type_of a) (type_of b)))
                 = wider (type_of a) (type_of b)) by apply type_of_make_const.
    repeat match goal with
           | |- context [if ?c then _ else _] => destruct c
           end;
      first [ exact Hgen
            | left; eexists; split; [reflexivity|];
              rewrite ?type_of_IntImm_make, ?type_of_SimpleCast; auto
            | right; reflexivity ].
Qed.

(* ================================================================== *)
(** * Quotient and remainder *)

Lemma quot_in_range (w a b : Z) :
  0 <= a < 2 ^ (w - 1) -> 0 < b -> 0 <= Z.quot a b <= a.
Proof.
  intros Ha Hb; split.
  - apply Z.quot_pos; lia.
  - rewrite Z.quot_div_nonneg by lia.
    apply Z.div_le_upper_bound; nia.
Qed.

(** The folds of [/] and [%] on a dividend [>= 0] and a divisor [> 0] in
    range: the truncated quotient and its remainder, untouched by the
    widths. *)
Lemma div_literals_pos (t : Type_) (a b : Z) :
  wf_literal (IntImm t a) = true -> 0 <= a -> 0 < b ->
  operator_div (IntImm t a) (IntImm t b) = Ok (IntImm t (Z.quot a b)).
Proof.
  intros Hwa Ha Hb; rewrite div_literals.
  destruct (Z.geb_spec a 0); [|lia]. destruct (Z.gtb_spec b 0); [|lia].
  cbn [andb]; unfold int64.div.
  destruct (wf_IntImm _ _ Hwa) as (_ & _ & Hw & Hr).
  pose proof (quot_in_range (bits t) a b ltac:(lia) Hb).
  rewrite IntImm_make_int64 by assumption.
  now rewrite wrap_signed_id by lia.
Qed.

Lemma mod_literals_pos (t : Type_) (a b : Z) :
  IsIndexType t = true -> wf_literal (IntImm t a) = true -> 0 <= a -> 0 < b ->
  operator_mod (IntImm t a) (IntImm t b) = Ok (IntImm t (Z.rem a b)).
Proof.
  intros Hix Hwa Ha Hb; rewrite mod_literals by assumption.
  destruct (Z.geb_spec a 0); [|lia]. destruct (Z.gtb_spec b 0); [|lia].
  cbn [andb]; unfold int64.rem, IntImm_make.
  destruct (wf_IntImm _ _ Hwa) as (_ & _ & Hw & Hr).
  pose proof (Z.rem_bound_pos a b Ha Hb).
  assert (Z.rem a b <= a).
  { rewrite Z.rem_mod_nonneg by lia. apply Z.mod_le; lia. }
  now rewrite wrap_signed_id by lia.
Qed.

(** X9. On literals of one index type, with a dividend [>= 0] in range and
    a divisor [> 0], the folds of [/] and [%] are the truncated quotient [q]
    and the remainder [r] with [0 <= q <= a] and [0 <= r < b], and the
    operators recompose the dividend: [(a / b) * b + a % b] folds back to
    the literal [a]. *)
Theorem div_mod_recompose (t : Type_) (a b : Z) :
  IsIndexType t = true ->
  wf_literal (IntImm t a) = true ->
  0 <= a -> 0 < b ->
  let A := IntImm t a in
  let B := IntImm t b in
  (exists q r,
      operator_div A B = Ok (IntImm t q) /\ operator_mod A B = Ok (IntImm t r)
      /\ 0 <= q <= a /\ 0 <= r < b /\ a = q * b + r)
  /\ (q <- operator_div A B ;; r <- operator_mod A B ;;
      qb <- operator_mul q B ;; operator_add qb r) = Ok A.
Proof.
  intros Hix Hwa Ha Hb A B; subst A B.
  destruct (wf_IntImm _ _ Hwa) as (_ & _ & Hw & Hr).
  rewrite div_literals_pos, mod_literals_pos by assumption.
  assert (E : a = Z.quot a b * b + Z.rem a b).
  { rewrite (Z.quot_rem' a b) at 1. ring. }
  split.
  - exists (Z.quot a b), (Z.rem a b); repeat split; try assumption.
    + apply (quot_in_range (bits t)); lia.
    + apply (quot_in_range (bits t)); lia.
    + apply Z.rem_bound_pos; lia.
    + apply Z.rem_bound_pos; lia.
  - cbn [bind]. rewrite mul_literals_wrap by assumption; cbn [bind].
    rewrite add_literals_wrap by assumption.
    rewrite wrap_signed_add_l, <- E by lia.
    now rewrite wrap_signed_id by lia.
Qed.

(** The instance [17 = (17 / 5) * 5 + 17 % 5] on [int32]. *)
Lemma div_mod_recompose_witness :
  (q <- operator_div (IntImm i32 17) (IntImm i32 5) ;;
   r <- operator_mod (IntImm i32 17) (IntImm i32 5) ;;
   qb <- operator_mul q (IntImm i32 5) ;; operator_add qb r) = Ok (IntImm i32 17).
Proof.
  exact (proj2 (div_mod_recompose i32 17 5 eq_refl eq_refl ltac:(lia) ltac:(lia))).
Defined.

(* ================================================================== *)
(** * Shifts and powers of two *)

Lemma ConstPowerHelper_pow2 (k shift : Z) :
  0 <= k -> ConstPowerHelper (2 ^ k) shift = Some (true, k).
Proof.
  intros Hk.
  destruct (ConstPowerHelper_spec (2 ^ k) shift) as (r & s' & E & Hiff & Ht & _).
  assert (Hr : r = true) by (apply Hiff; now exists k).
  destruct (Ht Hr) as (Hs & Hv).
  apply Z.pow_inj_r in Hv; [|lia..].
  now rewrite E, Hr, Hv.
Qed.

Lemma shift_literals (o : BitOp) (t : Type_) (a b : Z) :
  IsIndexType t = true ->
  bitop_apply o (IntImm t a) (IntImm t b)
  = Ok (IntImm_make t (match o with
                       | Shr => int64.shr a b
                       | Shl => int64.shl a b
                       | BitAnd => int64.and a b
                       | BitOr => int64.or a b
                       | BitXor => int64.xor a b
                       end)).
Proof.
  intros Hix; rewrite bitop_cases; cbn [type_of as_IntImm].
  now rewrite Hix, wider_same.
Qed.

(** X10. For a literal [a >= 0] of an index type and an exponent [k] with
    [2 ^ k] in the range of the type: the literal [2 ^ k] is recognised as
    a power of two with exponent [k], shifting [a] left by the literal [k]
    folds to the same literal as multiplying [a] by the literal [2 ^ k], and
    shifting right folds to the same literal as dividing by it. *)
Theorem shift_is_power_of_two (t : Type_) (a k shift : Z) :
  IsIndexType t = true ->
  wf_literal (IntImm t a) = true ->
  0 <= a -> 0 <= k < bits t - 1 ->
  let A := IntImm t a in
  is_const_power_of_two_integer (IntImm t (2 ^ k)) shift = Some (true, k)
  /\ operator_shl A (IntImm t k) = operator_mul A (IntImm t (2 ^ k))
  /\ operator_shr A (IntImm t k) = operator_div A (IntImm t (2 ^ k)).
Proof.
  intros Hix Hwa Ha Hk A; subst A.
  destruct (wf_IntImm _ _ Hwa) as (_ & _ & Hw & Hr).
  assert (Hp : 0 < 2 ^ k) by (apply Z.pow_pos_nonneg; lia).
  split; [|split].
  - cbn [is_const_power_of_two_integer]. apply ConstPowerHelper_pow2; lia.
  - change (operator_shl (IntImm t a) (IntImm t k))
      with (bitop_apply Shl (IntImm t a) (IntImm t k)).
    rewrite shift_literals, mul_literals by assumption.
    unfold int64.shl, int64.mul.
    now rewrite Z.mod_small, Z.shiftl_mul_pow2 by lia.
  - change (operator_shr (IntImm t a) (IntImm t k))
      with (bitop_apply Shr (IntImm t a) (IntImm t k)).
    rewrite shift_literals, div_literals_pos by assumption.
    unfold int64.shr. rewrite Z.mod_small by lia.
    rewrite Z.shiftr_div_pow2, Z.quot_div_nonneg by lia.
    pose proof (quot_in_range (bits t) a (2 ^ k) ltac:(lia) Hp) as Hq.
    rewrite Z.quot_div_nonneg in Hq by lia.
    unfold IntImm_make. now rewrite wrap_signed_id by lia.
Qed.

(** The instance [5 << 3 = 5 * 8] and [45 >> 3 = 45 / 8] on [int32]. *)
Lemma shift_is_power_of_two_witness :
  operator_shl (IntImm i32 5) (IntImm i32 3) = operator_mul (IntImm i32 5) (IntImm i32 (2 ^ 3))
  /\ operator_shr (IntImm i32 45) (IntImm i32 3)
     = operator_div (IntImm i32 45) (IntImm i32 (2 ^ 3)).
Proof.
  split.
  - exact (proj1 (proj2 (shift_is_power_of_two i32 5 3 0 eq_refl eq_refl
                           ltac:(lia) ltac:(simpl; lia)))).
  - exact (proj2 (proj2 (shift_is_power_of_two i32 45 3 0 eq_refl eq_refl
                           ltac:(lia) ltac:(simpl; lia)))).
Defined.

(* ================================================================== *)
(** * Float-only calls and the conditional *)

Lemma is_float_with_lanes (t : Type_) (n : Z) : is_float (with_lanes t n) = is_float t.
Proof. reflexivity. Qed.

Lemma reconciled_type_float (s t u : Type_) :
  reconciled_type s t = Some u -> is_float u = is_float s || is_float t.
Proof.
  unfold reconciled_type.
  destruct (Type_eqb s t) eqn:E.
  { apply Type_eqb_eq in E; subst; intros [= <-]. now destruct (is_float t). }
  destruct s as [[] bs ls], t as [[] bt lt]; cbn;
    repeat match goal with
           | |- context [if ?c then _ else _] => destruct c
           end;
    now intros [= <-].
Qed.

(** A promoted type is a float type exactly when one of the two types is. *)
Lemma promoted_type_float (s t u : Type_) :
  promoted_type s t = Some u -> is_float u = is_float s || is_float t.
Proof.
  unfold promoted_type.
  destruct (Type_eqb s t) eqn:E.
  { apply Type_eqb_eq in E; subst; intros [= <-]. now destruct (is_float t). }
  destruct (reconciled_lanes s t) as [L|]; [|discriminate].
  intros H; apply reconciled_type_float in H.
  now rewrite !is_float_with_lanes in H.
Qed.

(** X11. [pow] and [fmod] fail with TypeMismatch when their operand types
    cannot be promoted, and with UnsupportedOperand when they can and
    neither operand is float; in every other case they return the call of
    their name on the two promoted operands, of the promoted float type.
    They never return a literal, also on two float literals. *)
Theorem pow_fmod_outcome (x y : Expr) :
  match promoted_type (type_of x) (type_of y) with
  | Some u =>
      if is_float (type_of x) || is_float (type_of y) then
        exists x' y',
          BinaryOpMatchTypes x y = Ok (x', y')
          /\ type_of x' = u /\ type_of y' = u /\ is_float u = true
          /\ pow x y = Ok (Call u "pow" [x'; y'] PureIntrinsic)
          /\ fmod x y = Ok (Call u "fmod" [x'; y'] PureIntrinsic)
      else pow x y = Error UnsupportedOperand /\ fmod x y = Error UnsupportedOperand
  | None => pow x y = Error TypeMismatch /\ fmod x y = Error TypeMismatch
  end.
Proof.
  pose proof (promote_outcome x y) as H.
  pose proof (promoted_type_float (type_of x) (type_of y)) as Hf.
  unfold pow, fmod.
  destruct (promoted_type (type_of x) (type_of y)) as [u|].
  - destruct H as (x' & y' & E & Hx & Hy).
    specialize (Hf u eq_refl). rewrite <- Hf.
    rewrite E; cbn [bind]; rewrite Hx.
    destruct (is_float u); [|split; reflexivity].
    exists x', y'; repeat split; assumption.
  - now rewrite H.
Qed.

(** X12. [if_then_else] fails with UnsupportedOperand unless its condition
    has type [Bool(1)], whatever the two values. With such a condition it
    fails with TypeMismatch when the types of the two values cannot be
    promoted, also under a literal condition that would select one of them;
    otherwise it returns an expression of the promoted type: the promoted
    true value under an integer literal condition that is not 0, the
    promoted false value under the literal 0, and under every other
    condition the call of its tag on the condition and the two promoted
    values. *)
Theorem if_then_else_outcome (cond true_value false_value : Expr) :
  if Type_eqb (type_of cond) (Bool 1) then
    match promoted_type (type_of true_value) (type_of false_value) with
    | Some u =>
        exists tv fv r,
          BinaryOpMatchTypes true_value false_value = Ok (tv, fv)
          /\ type_of tv = u /\ type_of fv = u
          /\ if_then_else cond true_value false_value = Ok r
          /\ type_of r = u
          /\ r = match int_literal_value cond with
                 | Some v => if v =? 0 then fv else tv
                 | None => Call u intrinsic_tvm_if_then_else [cond; tv; fv] PureIntrinsic
                 end
    | None => if_then_else cond true_value false_value = Error TypeMismatch
    end
  else if_then_else cond true_value false_value = Error UnsupportedOperand.
Proof.
  pose proof (promote_outcome true_value false_value) as H.
  unfold if_then_else.
  destruct (Type_eqb (type_of cond) (Bool 1)); cbn [negb]; [|reflexivity].
  destruct (promoted_type (type_of true_value) (type_of false_value)) as [u|].
  - destruct H as (tv & fv & E & Ht & Hf).
    exists tv, fv; rewrite E; cbn [bind].
    destruct cond; cbn [int_literal_value];
      try (eexists; repeat split; try reflexivity; try assumption;
           cbn [type_of]; now rewrite ?Ht).
    all: destruct (_ =? 0); cbn [negb];
      eexists; repeat split; try reflexivity; assumption.
  - now rewrite H.
Qed.

(* ================================================================== *)
(** * Casts *)

Lemma cast_same (t : Type_) (e : Expr) : type_of e = t -> cast t e = Ok e.
Proof. intros <-; unfold cast; now rewrite Type_eqb_refl. Qed.

Lemma lanes_element_of (t : Type_) : lanes (element_of t) = 1.
Proof. reflexivity. Qed.

(** X13. [cast t v] fails in two cases and no other: with TypeMismatch when
    the target and the value are both vectors of different lane counts, and
    with InvariantViolation, in the cast factory, when the target is scalar
    and the value a vector that is no signed or float literal. In every
    other case it returns an expression of type [t], on which a second cast
    to [t] changes nothing. [reinterpret t v] always returns an expression
    of type [t], is idempotent as well, and unlike [cast] builds no literal:
    its result is [v] itself or no literal at all. *)
Theorem cast_contract (t : Type_) (v : Expr) :
  (if negb (lanes t =? 1) && negb (lanes (type_of v) =? 1)
      && negb (lanes (type_of v) =? lanes t)
   then cast t v = Error TypeMismatch
   else if (lanes t =? 1) && negb (lanes (type_of v) =? 1) && negb (foldable v)
   then cast t v = Error InvariantViolation
   else exists e, cast t v = Ok e /\ type_of e = t /\ cast t e = Ok e)
  /\ type_of (reinterpret t v) = t
  /\ reinterpret t (reinterpret t v) = reinterpret t v
  /\ (reinterpret t v = v \/ is_literal (reinterpret t v) = false).
Proof.
  split.
  - assert (Hok : forall e, cast t v = Ok e ->
                  exists e, cast t v = Ok e /\ type_of e = t /\ cast t e = Ok e).
    { intros e E; exists e; repeat split; [exact E| |].
      - exact (type_of_cast _ _ _ E).
      - apply cast_same. exact (type_of_cast _ _ _ E). }
    destruct (Type_eqb (type_of v) t) eqn:Et.
    { pose proof Et as Et'; apply Type_eqb_eq in Et'.
      rewrite Et', Z.eqb_refl, !andb_false_r; cbn [andb negb].
      destruct (lanes t =? 1); cbn [andb negb]; apply (Hok v);
        unfold cast; now rewrite <- Et', Type_eqb_refl. }
    destruct (Z.eqb_spec (lanes t) 1) as [Ht | Ht]; cbn [andb negb].
    + destruct (Z.eqb_spec (lanes (type_of v)) 1) as [Hv | Hv]; cbn [andb negb].
      * exact (Hok _ (cast_scalar t v Et Ht Hv)).
      * assert (Hc : Cast_make t v = Error InvariantViolation).
        { unfold Cast_make; rewrite Ht.
          apply Z.eqb_neq in Hv; now rewrite Z.eqb_sym, Hv. }
        destruct (foldable v) eqn:Hf; cbn [negb].
        -- destruct v; try discriminate Hf;
             (eapply Hok; unfold cast; rewrite Et, Ht; reflexivity).
        -- unfold cast; rewrite Et, Ht, Hc; cbn [Z.eqb Pos.eqb].
           destruct v; try discriminate Hf; reflexivity.
    + apply Z.eqb_neq in Ht.
      destruct (Z.eqb_spec (lanes (type_of v)) 1) as [Hv | Hv]; cbn [andb negb].
      * pose proof (Cast_make_lanes (element_of t) v Hv) as Hc.
        destruct (negb (Type_eqb (type_of v) (element_of t))) eqn:Ee; [destruct v|];
          (eapply Hok; unfold cast; rewrite Et, Ht, Hv, Ee, ?Hc; reflexivity).
      * apply Z.eqb_neq in Hv.
        destruct (Z.eqb_spec (lanes (type_of v)) (lanes t)) as [Hl | Hl];
          cbn [andb negb].
        -- eapply Hok. unfold cast; rewrite Et, Ht, Hv, Hl, Z.eqb_refl.
           now apply Cast_make_lanes.
        -- apply Z.eqb_neq in Hl. unfold cast; now rewrite Et, Ht, Hv, Hl.
  - unfold reinterpret.
    destruct (Type_eqb (type_of v) t) eqn:E.
    + apply Type_eqb_eq in E. rewrite E, Type_eqb_refl. auto.
    + cbn [type_of]. rewrite Type_eqb_refl. auto.
Qed.

(** X14. Casting a scalar to a vector type is the scalar cast to the element
    type followed by a broadcast to the lane count of the target: the
    unrolled branch of [cast] treats the scalar as [cast] itself does, and
    never fails. *)
Theorem cast_scalar_to_vector (t : Type_) (v : Expr) :
  lanes t <> 1 -> lanes (type_of v) = 1 ->
  cast t v = (e <- cast (element_of t) v ;; Ok (Broadcast e (lanes t)))
  /\ exists e, cast (element_of t) v = Ok e /\ type_of e = element_of t
               /\ cast t v = Ok (Broadcast e (lanes t)).
Proof.
  intros Ht Hv.
  assert (Hne : Type_eqb (type_of v) t = false).
  { apply Type_eqb_neq; intros E; rewrite E in Hv; contradiction. }
  assert (E : cast t v = (e <- cast (element_of t) v ;; Ok (Broadcast e (lanes t)))).
  { unfold cast at 1; rewrite Hne.
    apply Z.eqb_neq in Ht; rewrite Ht, Hv; cbn [Z.eqb Pos.eqb].
    unfold cast; rewrite lanes_element_of; cbn [Z.eqb Pos.eqb].
    destruct (Type_eqb (type_of v) (element_of t)); cbn [negb bind]; [reflexivity|].
    now destruct v. }
  split; [exact E|].
  destruct (cast (element_of t) v) as [e|f] eqn:Ec.
  - exists e; repeat split; [|exact E]. exact (type_of_cast _ _ _ Ec).
  - exfalso; revert Ec; unfold cast.
    destruct (Type_eqb (type_of v) (element_of t)); [discriminate|].
    rewrite lanes_element_of; cbn [Z.eqb Pos.eqb].
    rewrite (Cast_make_lanes (element_of t) v) by exact Hv.
    now destruct v.
Qed.

(** The instances on [int32x4]: a variable goes under a cast node, then
    under the broadcast; a literal is folded, then broadcast. *)
Lemma cast_scalar_to_vector_witness :
  cast f64x4 (VarExpr (mkVar "x" i32 0))
  = (e <- cast (element_of f64x4) (VarExpr (mkVar "x" i32 0)) ;; Ok (Broadcast e 4))
  /\ cast i32x4 (IntImm i8 7)
     = (e <- cast (element_of i32x4) (IntImm i8 7) ;; Ok (Broadcast e 4)).
Proof.
  split.
  - exact (proj1 (cast_scalar_to_vector f64x4 (VarExpr (mkVar "x" i32 0))
                    ltac:(discriminate) eq_refl)).
  - exact (proj1 (cast_scalar_to_vector i32x4 (IntImm i8 7) ltac:(discriminate) eq_refl)).
Defined.

(* ================================================================== *)
(** * The native conversions: exact conversions of integers *)

(** The number of binary digits of a positive number. *)
Lemma digits2_size (m : positive) : digits2_pos m = Pos.size m.
Proof. induction m; cbn; congruence. Qed.

Lemma digits2_bounds (m : positive) :
  2 ^ (Zpos (digits2_pos m) - 1) <= Zpos m < 2 ^ Zpos (digits2_pos m).
Proof.
  induction m as [m IH | m IH |]; cbn [digits2_pos].
  - rewrite Pos2Z.inj_succ, Z.pow_succ_r by lia.
    replace (Z.succ (Zpos (digits2_pos m)) - 1) with (Z.succ (Zpos (digits2_pos m) - 1)) by lia.
    rewrite Z.pow_succ_r by lia. lia.
  - rewrite Pos2Z.inj_succ, Z.pow_succ_r by lia.
    replace (Z.succ (Zpos (digits2_pos m)) - 1) with (Z.succ (Zpos (digits2_pos m) - 1)) by lia.
    rewrite Z.pow_succ_r by lia. lia.
  - cbn. lia.
Qed.

(** A positive number is determined in its number of digits by its bounds. *)
Lemma digits2_unique (m : positive) (n : Z) :
  2 ^ (n - 1) <= Zpos m < 2 ^ n -> Zpos (digits2_pos m) = n.
Proof.
  intros H; pose proof (digits2_bounds m) as B.
  assert (0 < n).
  { destruct (Z.le_gt_cases n 0) as [Hn|]; [|assumption].
    assert (2 ^ n <= 2 ^ 0) by (apply Z.pow_le_mono_r; lia).
    change (2 ^ 0) with 1 in *. lia. }
  destruct (Z.lt_trichotomy (Zpos (digits2_pos m)) n) as [Hlt | [Heq | Hgt]]; [|exact Heq|].
  - assert (2 ^ Zpos (digits2_pos m) <= 2 ^ (n - 1)) by (apply Z.pow_le_mono_r; lia). lia.
  - assert (2 ^ n <= 2 ^ (Zpos (digits2_pos m) - 1)) by (apply Z.pow_le_mono_r; lia). lia.
Qed.

(** Shifting a positive number to the left. *)
Lemma Zpos_shiftl (m : positive) (d : N) :
  Zpos (Pos.shiftl m d) = Zpos m * 2 ^ Z.of_N d.
Proof.
  destruct d as [|d]; [cbn; lia|].
  cbn [Pos.shiftl Z.of_N].
  induction d using Pos.peano_ind.
  - cbn. lia.
  - rewrite Pos.iter_succ, Pos2Z.inj_xO, IHd, Pos2Z.inj_succ, Z.pow_succ_r by lia. ring.
Qed.

Lemma digits2_shiftl (m : positive) (d : N) :
  Zpos (digits2_pos (Pos.shiftl m d)) = Zpos (digits2_pos m) + Z.of_N d.
Proof.
  destruct d as [|d]; [cbn; lia|].
  cbn [Pos.shiftl Z.of_N].
  induction d using Pos.peano_ind.
  - cbn. lia.
  - rewrite Pos.iter_succ; cbn [digits2_pos]. rewrite Pos2Z.inj_succ, IHd. lia.
Qed.

Section Format.

Variables p emx : Z.

(** A mantissa that is canonical at its exponent is left as it is. *)
Lemma binary_round_aux_canonical (s : bool) (m : positive) (e : Z) :
  bounded p emx m e = true ->
  binary_round_aux p emx s (Zpos m) e loc_Exact = S754_finite s m e.
Proof.
  unfold bounded, canonical_mantissa; intros H.
  apply andb_true_iff in H; destruct H as [Hc He].
  apply Z.eqb_eq in Hc.
  unfold binary_round_aux, shr_fexp; cbn [Zdigits2 shr_record_of_loc].
  rewrite Hc, Z.sub_diag; cbn [shr shr_m loc_of_shr_record round_nearest_even].
  cbn [Zdigits2 shr_record_of_loc].
  rewrite Hc, Z.sub_diag; cbn [shr shr_m].
  now rewrite He.
Qed.

(** A mantissa of at most [p] digits in the normal range, shifted to [p]
    digits, is canonical there. *)
Lemma bounded_shiftl (m : positive) (e : Z) :
  let d := p - Zpos (digits2_pos m) in
  0 <= d -> emin p emx <= e - d -> e - d <= emx - p ->
  fexp p emx (Zpos (digits2_pos m) + e) = e - d
  /\ bounded p emx (Pos.shiftl m (Z.to_N d)) (e - d) = true.
Proof.
  intros d Hd Hmin Hmax.
  assert (Hf : fexp p emx (Zpos (digits2_pos m) + e) = e - d).
  { unfold fexp. rewrite Z.max_l by (unfold d in *; lia). unfold d; lia. }
  split; [exact Hf|].
  unfold bounded, canonical_mantissa.
  rewrite digits2_shiftl, Z2N.id by assumption.
  replace (Zpos (digits2_pos m) + d + (e - d)) with (Zpos (digits2_pos m) + e) by lia.
  rewrite Hf, Z.eqb_refl. now apply Z.leb_le.
Qed.

(** Rounding such a mantissa shifts it to [p] digits, and nothing is
    lost. *)
Lemma binary_round_short (s : bool) (m : positive) (e : Z) :
  let d := p - Zpos (digits2_pos m) in
  0 <= d -> emin p emx <= e - d -> e - d <= emx - p ->
  binary_round p emx s m e = S754_finite s (Pos.shiftl m (Z.to_N d)) (e - d).
Proof.
  intros d Hd Hmin Hmax.
  destruct (bounded_shiftl m e Hd Hmin Hmax) as [Hf Hb]; fold d in Hf, Hb.
  unfold binary_round, shl_align; rewrite Hf.
  replace (e - d - e) with (- d) by lia.
  destruct d as [|d'|d'] eqn:Ed; [| |lia].
  - cbn [Z.opp Z.to_N Pos.shiftl] in *. rewrite Z.sub_0_r in *.
    now apply binary_round_aux_canonical.
  - cbn [Z.opp]. cbn [Z.to_N Pos.shiftl] in Hb.
    now apply binary_round_aux_canonical.
Qed.

End Format.

Lemma digits2_le (m : positive) (n : Z) :
  0 <= n -> Zpos m < 2 ^ n -> Zpos (digits2_pos m) <= n.
Proof.
  intros Hn H; pose proof (digits2_bounds m) as B.
  destruct (Z.le_gt_cases (Zpos (digits2_pos m)) n) as [|Hgt]; [assumption|].
  assert (2 ^ n <= 2 ^ (Zpos (digits2_pos m) - 1)) by (apply Z.pow_le_mono_r; lia).
  lia.
Qed.

Lemma binary_normalize_exact (s : bool) (m : positive) :
  Zpos m < 2 ^ 53 ->
  binary_round prec emax s m 0 = exact53 s m
  /\ valid_binary prec emax (exact53 s m) = true.
Proof.
  intros Hm. pose proof (digits2_le m 53 ltac:(lia) Hm) as Hd.
  pose proof (Pos2Z.is_pos (digits2_pos m)).
  assert (H1 : 0 <= prec - Zpos (digits2_pos m)) by (unfold prec; lia).
  assert (H2 : SpecFloat.emin prec emax <= 0 - (prec - Zpos (digits2_pos m)))
    by (unfold SpecFloat.emin, prec, emax; lia).
  assert (H3 : 0 - (prec - Zpos (digits2_pos m)) <= emax - prec)
    by (unfold prec, emax; lia).
  split.
  - rewrite (binary_round_short prec emax s m 0 H1 H2 H3). reflexivity.
  - exact (proj2 (bounded_shiftl prec emax m 0 H1 H2 H3)).
Qed.

(** [(double)v] is exact on an integer of at most 53 digits. *)
Lemma double_of_Z_exact (v : Z) :
  v <> 0 -> Z.abs v < 2 ^ 53 ->
  Prim2SF (double_of_Z v) = exact53 (v <? 0) (Z.to_pos (Z.abs v)).
Proof.
  intros Hv Hb; unfold double_of_Z.
  destruct v as [|m|m]; [congruence| |]; cbn [binary_normalize Z.abs Z.to_pos Z.ltb Z.compare].
  - destruct (binary_normalize_exact false m Hb) as [-> Hval].
    now apply FloatAxioms.Prim2SF_SF2Prim.
  - destruct (binary_normalize_exact true m Hb) as [-> Hval].
    now apply FloatAxioms.Prim2SF_SF2Prim.
Qed.

Lemma shiftr_shiftl_pos (m : positive) (d : Z) :
  0 <= d -> Z.shiftr (Zpos (Pos.shiftl m (Z.to_N d))) d = Zpos m.
Proof.
  intros Hd. rewrite Zpos_shiftl, Z2N.id, Z.shiftr_div_pow2 by assumption.
  apply Z.div_mul. apply Z.pow_nonzero; lia.
Qed.

(** Truncation gives the integer back. *)
Lemma trunc_double_of_Z (v : Z) :
  Z.abs v < 2 ^ 53 -> trunc_double (double_of_Z v) = Some v.
Proof.
  intros Hb. destruct (Z.eq_dec v 0) as [-> | Hv]; [reflexivity|].
  unfold trunc_double; rewrite double_of_Z_exact by assumption.
  unfold exact53.
  pose proof (digits2_le (Z.to_pos (Z.abs v)) 53 ltac:(lia)
                ltac:(rewrite Z2Pos.id by lia; exact Hb)) as Hd.
  set (d := 53 - Zpos (digits2_pos (Z.to_pos (Z.abs v)))) in *.
  assert (Hd0 : 0 <= d) by (unfold d; lia).
  assert (E : (if 0 <=? - d
               then Z.shiftl (Zpos (Pos.shiftl (Z.to_pos (Z.abs v)) (Z.to_N d))) (- d)
               else Z.shiftr (Zpos (Pos.shiftl (Z.to_pos (Z.abs v)) (Z.to_N d))) (- - d))
              = Z.abs v).
  { destruct (Z.leb_spec 0 (- d)).
    - assert (d = 0) by lia. replace (- d) with 0 by lia.
      replace (Z.to_N d) with 0%N by lia. cbn [Pos.shiftl Z.shiftl].
      rewrite Z2Pos.id by lia. reflexivity.
    - rewrite Z.opp_involutive, shiftr_shiftl_pos by assumption.
      rewrite Z2Pos.id by lia. reflexivity. }
  cbv zeta; rewrite E.
  destruct (Z.ltb_spec v 0); f_equal; lia.
Qed.

Lemma int64_of_double_of_Z (v : Z) :
  Z.abs v < 2 ^ 53 -> int64_of_double (double_of_Z v) = v.
Proof.
  intros Hb; unfold int64_of_double; rewrite trunc_double_of_Z by assumption.
  destruct (Z.leb_spec (- 2 ^ 63) v), (Z.ltb_spec v (2 ^ 63)); cbn [andb]; lia.
Qed.

(** Reading back a float built from a mantissa of at most 53 digits and an
    exponent in the normal range: the same value in its canonical form. *)
Lemma Prim2SF_SF2Prim_short (s : bool) (m : positive) (e : Z) :
  let d := 53 - Zpos (digits2_pos m) in
  Zpos m < 2 ^ 53 -> SpecFloat.emin prec emax <= e - d -> e - d <= emax - prec ->
  Prim2SF (SF2Prim (S754_finite s m e))
  = S754_finite s (Pos.shiftl m (Z.to_N d)) (e - d).
Proof.
  intros d Hm Hmin Hmax.
  pose proof (digits2_le m 53 ltac:(lia) Hm) as Hd.
  assert (Hd0 : 0 <= d) by (unfold d; lia).
  assert (E : Prim2SF (Z.ldexp (of_uint63 (Uint63Axioms.of_Z (Zpos m))) e)
              = S754_finite false (Pos.shiftl m (Z.to_N d)) (e - d)).
  { rewrite FloatLemmas.Z_ldexp_spec, FloatAxioms.of_uint63_spec, Uint63.of_Z_spec.
    rewrite Z.mod_small
      by (split; [lia|]; apply Z.lt_trans with (2 ^ 53); [exact Hm | reflexivity]).
    cbn [binary_normalize].
    rewrite (proj1 (binary_normalize_exact false m Hm)); unfold exact53; fold d.
    cbn [SFldexp].
    assert (D : Zpos (digits2_pos (Pos.shiftl m (Z.to_N d))) = 53).
    { rewrite digits2_shiftl, Z2N.id by assumption. unfold d; lia. }
    rewrite (binary_round_short prec emax false _ (- d + e)); rewrite D;
      change (prec - 53) with 0; rewrite ?Z.sub_0_r; try lia.
    cbn [Z.to_N Pos.shiftl]. f_equal; lia. }
  unfold SF2Prim; destruct s.
  - now rewrite FloatAxioms.opp_spec, E.
  - exact E.
Qed.

(** The right shift of rounding: on a mantissa whose low [n] bits are zero
    nothing is lost. *)
Lemma iter_pos_iter {A : Type} (f : A -> A) (n : positive) (x : A) :
  iter_pos f n x = Pos.iter f x n.
Proof.
  revert x; induction n as [n IH | n IH |]; intros x; cbn [iter_pos Pos.iter].
  - now rewrite !IH, <- !Pos.iter_swap.
  - now rewrite !IH.
  - reflexivity.
Qed.

Lemma shr_exact (q : positive) (n : positive) :
  iter_pos shr_1 n (Build_shr_record (Zpos (Pos.iter xO q n)) false false)
  = Build_shr_record (Zpos q) false false.
Proof.
  rewrite iter_pos_iter.
  induction n using Pos.peano_ind.
  - reflexivity.
  - rewrite (Pos.iter_succ n _ xO), (Pos.iter_succ_r n _ shr_1). cbn [shr_1 orb]. exact IHn.
Qed.

Lemma binary_round_exact (p emx : Z) (s : bool) (q n : positive) (e : Z) :
  Zpos (digits2_pos q) = p ->
  SpecFloat.emin p emx <= e + Zpos n -> e + Zpos n <= emx - p ->
  binary_round p emx s (Pos.iter xO q n) e = S754_finite s q (e + Zpos n).
Proof.
  intros Hq Hmin Hmax.
  assert (D : Zpos (digits2_pos (Pos.iter xO q n)) = p + Zpos n).
  { change (Pos.iter xO q n) with (Pos.shiftl q (Npos n)).
    rewrite digits2_shiftl, Hq. reflexivity. }
  assert (F : fexp p emx (p + Zpos n + e) = e + Zpos n).
  { unfold fexp. rewrite Z.max_l by lia. lia. }
  assert (F' : fexp p emx (p + (e + Zpos n)) = e + Zpos n).
  { unfold fexp. rewrite Z.max_l by lia. lia. }
  unfold binary_round, shl_align. rewrite D, F.
  replace (e + Zpos n - e) with (Zpos n) by lia.
  unfold binary_round_aux, shr_fexp; cbn [Zdigits2 shr_record_of_loc].
  rewrite D, F.
  replace (e + Zpos n - e) with (Zpos n) by lia.
  cbn [shr]. rewrite shr_exact.
  cbn [shr_m loc_of_shr_record round_nearest_even Zdigits2 shr_record_of_loc].
  rewrite Hq, F', Z.sub_diag; cbn [shr shr_m].
  apply Z.leb_le in Hmax. now rewrite Hmax.
Qed.

Lemma shiftl_shiftl_pos (m : positive) (a b : N) :
  Pos.shiftl (Pos.shiftl m a) b = Pos.shiftl m (a + b).
Proof.
  apply Pos2Z.inj. rewrite !Zpos_shiftl, N2Z.inj_add, Z.pow_add_r by lia. ring.
Qed.

(** Rounding [(double)v] to a narrower format of [p] digits is exact when
    [v] has at most [p] digits. *)
Lemma round_to_exact (p emx v : Z) :
  0 < p <= 53 -> SpecFloat.emin p emx <= 1 - p -> p <= emx ->
  Z.abs v < 2 ^ p ->
  round_to p emx (double_of_Z v) = double_of_Z v.
Proof.
  intros Hp Hmin Hmax Hv.
  destruct (Z.eq_dec v 0) as [-> | Hne]; [reflexivity|].
  assert (Hv53 : Z.abs v < 2 ^ 53).
  { apply Z.lt_le_trans with (2 ^ p); [exact Hv|]. apply Z.pow_le_mono_r; lia. }
  pose proof (double_of_Z_exact v Hne Hv53) as E.
  unfold round_to; rewrite E; unfold exact53.
  set (m := Z.to_pos (Z.abs v)) in *.
  assert (Hm : Zpos m = Z.abs v) by (unfold m; rewrite Z2Pos.id; lia).
  pose proof (digits2_le m p ltac:(lia) ltac:(rewrite Hm; exact Hv)) as Hd.
  pose proof (Pos2Z.is_pos (digits2_pos m)) as Hd0.
  destruct (Z.eq_dec p 53) as [-> | Hp53].
  { (* no narrowing *)
    apply FloatAxioms.Prim2SF_inj. rewrite E; unfold exact53; fold m.
    destruct (binary_normalize_exact (v <? 0) m ltac:(rewrite Hm; exact Hv53)) as [_ Hval].
    set (d := 53 - Zpos (digits2_pos m)) in *.
    assert (D : Zpos (digits2_pos (Pos.shiftl m (Z.to_N d))) = 53).
    { rewrite digits2_shiftl, Z2N.id by (unfold d; lia). unfold d; lia. }
    rewrite (binary_round_short 53 emx (v <? 0) _ (- d)).
    all: rewrite D, ?Z.sub_diag, ?Z.sub_0_r.
    all: try (unfold SpecFloat.emin in *; unfold d; lia).
    cbn [Z.to_N Pos.shiftl].
    apply FloatAxioms.Prim2SF_SF2Prim. exact Hval. }
  set (a := p - Zpos (digits2_pos m)).
  set (n := 53 - p).
  assert (Hsplit : Pos.shiftl m (Z.to_N (53 - Zpos (digits2_pos m)))
                   = Pos.iter xO (Pos.shiftl m (Z.to_N a)) (Z.to_pos n)).
  { change (Pos.iter xO (Pos.shiftl m (Z.to_N a)) (Z.to_pos n))
      with (Pos.shiftl (Pos.shiftl m (Z.to_N a)) (Npos (Z.to_pos n))).
    rewrite shiftl_shiftl_pos. f_equal. unfold a, n; lia. }
  assert (Dq : Zpos (digits2_pos (Pos.shiftl m (Z.to_N a))) = p).
  { rewrite digits2_shiftl, Z2N.id by (unfold a; lia). unfold a; lia. }
  rewrite Hsplit.
  rewrite (binary_round_exact p emx (v <? 0) _ _ _ Dq);
    rewrite ?Z2Pos.id by (unfold n; lia); [|unfold n; lia|unfold n; lia].
  apply FloatAxioms.Prim2SF_inj.
  rewrite E; unfold exact53; fold m.
  rewrite Prim2SF_SF2Prim_short; rewrite ?Dq.
  - rewrite shiftl_shiftl_pos. f_equal.
    + f_equal. unfold a, n; lia.
    + unfold n; lia.
  - pose proof (digits2_bounds (Pos.shiftl m (Z.to_N a))) as B. rewrite Dq in B.
    apply Z.lt_le_trans with (2 ^ p); [lia|]. apply Z.pow_le_mono_r; lia.
  - unfold SpecFloat.emin, prec, emax, n; lia.
  - unfold prec, emax, n; lia.
Qed.

(* ================================================================== *)
(** * The native conversions: rounding to the nearest, ties to even *)

(** One step of the right shift halves the mantissa and keeps what it
    loses in the round and sticky bits. *)
Lemma shr_1_spec (m : Z) (r s : bool) :
  0 <= m ->
  shr_1 (Build_shr_record m r s) = Build_shr_record (m / 2) (Z.odd m) (r || s).
Proof.
  intros Hm. rewrite <- Z.div2_div.
  destruct m as [|[q|q|]|]; try reflexivity. lia.
Qed.

Lemma mod_pow2_succ (a k : Z) :
  0 <= k -> a mod 2 ^ (k + 1) = a mod 2 ^ k + 2 ^ k * Z.b2z (Z.testbit a k).
Proof.
  intros Hk. rewrite Z.pow_add_r, Z.pow_1_r by lia.
  rewrite Z.rem_mul_r by (try apply Z.pow_nonzero; lia).
  now rewrite Z.testbit_spec' by assumption.
Qed.

Lemma shr_spec (m : Z) (n : positive) :
  0 <= m ->
  iter_pos shr_1 n (Build_shr_record m false false)
  = Build_shr_record (m / 2 ^ Zpos n) (Z.testbit m (Zpos n - 1))
                     (negb (m mod 2 ^ (Zpos n - 1) =? 0)).
Proof.
  intros Hm. rewrite iter_pos_iter.
  induction n using Pos.peano_ind.
  - cbn [Pos.iter]. rewrite shr_1_spec by assumption.
    change (Zpos 1 - 1) with 0. rewrite Z.bit0_odd, Z.pow_0_r, Z.mod_1_r, Z.pow_1_r.
    reflexivity.
  - rewrite Pos.iter_succ, IHn, shr_1_spec by (apply Z.div_pos; lia).
    rewrite Pos2Z.inj_succ.
    replace (Z.succ (Zpos n) - 1) with (Zpos n) by lia.
    f_equal.
    + rewrite Z.div_div, Z.pow_succ_r by lia. now rewrite Z.mul_comm.
    + now rewrite Z.testbit_odd, Z.shiftr_div_pow2 by lia.
    + replace (2 ^ Zpos n) with (2 ^ (Zpos n - 1 + 1)) by (f_equal; lia).
      rewrite mod_pow2_succ by lia.
      pose proof (Z.mod_pos_bound m (2 ^ (Zpos n - 1)) ltac:(lia)) as B.
      assert (0 < 2 ^ (Zpos n - 1)) by lia.
      destruct (Z.testbit m (Zpos n - 1)); cbn [Z.b2z orb].
      * symmetry; apply negb_true_iff, Z.eqb_neq. nia.
      * now rewrite Z.mul_0_r, Z.add_0_r.
Qed.

(** Rounding after the shift is rounding to the nearest multiple. *)
Lemma round_shr (m : Z) (n : positive) :
  0 <= m ->
  round_nearest_even (m / 2 ^ Zpos n)
    (loc_of_shr_record
       (Build_shr_record (m / 2 ^ Zpos n) (Z.testbit m (Zpos n - 1))
                         (negb (m mod 2 ^ (Zpos n - 1) =? 0)))) * 2 ^ Zpos n
  = nearest_even (Zpos n) m.
Proof.
  intros Hm. unfold nearest_even. f_equal.
  replace (2 ^ Zpos n) with (2 ^ (Zpos n - 1 + 1)) by (f_equal; lia).
  rewrite mod_pow2_succ by lia.
  rewrite Z.pow_add_r, Z.pow_1_r by lia.
  pose proof (Z.mod_pos_bound m (2 ^ (Zpos n - 1)) ltac:(lia)) as B.
  assert (0 < 2 ^ (Zpos n - 1)) by lia.
  set (low := m mod 2 ^ (Zpos n - 1)) in *.
  set (h := 2 ^ (Zpos n - 1)) in *.
  destruct (Z.testbit m (Zpos n - 1)); cbn [Z.b2z].
  - destruct (Z.eqb_spec low 0) as [E | E]; cbn [negb loc_of_shr_record round_nearest_even].
    + rewrite E.
      replace (2 * (0 + h * 1) <? h * 2) with false by (symmetry; apply Z.ltb_ge; lia).
      replace (2 * (0 + h * 1) =? h * 2) with true by (symmetry; apply Z.eqb_eq; lia).
      cbn [orb andb]. reflexivity.
    + replace (2 * (low + h * 1) <? h * 2) with false by (symmetry; apply Z.ltb_ge; lia).
      replace (2 * (low + h * 1) =? h * 2) with false by (symmetry; apply Z.eqb_neq; lia).
      reflexivity.
  - replace (2 * (low + h * 0) <? h * 2) with true by (symmetry; apply Z.ltb_lt; lia).
    cbn [orb]. now destruct (negb (low =? 0)).
Qed.

Lemma nearest_even_bounds (n a : Z) :
  0 <= n -> 0 <= a ->
  (a / 2 ^ n) * 2 ^ n <= nearest_even n a <= (a / 2 ^ n + 1) * 2 ^ n.
Proof.
  intros Hn Ha; unfold nearest_even.
  assert (0 < 2 ^ n) by lia.
  destruct ((2 * (a mod 2 ^ n) <? 2 ^ n) || _); nia.
Qed.

Section Nearest.

Variables p emx : Z.

Lemma binary_round_nearest_or_overflow (s : bool) (m : positive) (e : Z) (n : positive) :
  0 < p -> Zpos (digits2_pos m) = p + Zpos n ->
  SpecFloat.emin p emx <= e + Zpos n ->
  (exists q e',
     binary_round p emx s m e = S754_finite s q e'
     /\ Zpos (digits2_pos q) = p
     /\ e + Zpos n <= e' <= e + Zpos n + 1 /\ e' <= emx - p
     /\ Zpos q * 2 ^ (e' - e) = nearest_even (Zpos n) (Zpos m))
  \/ (binary_round p emx s m e = S754_infinity s /\ emx - p <= e + Zpos n).
Proof.
  intros Hp D Hmin.
  assert (F : fexp p emx (p + Zpos n + e) = e + Zpos n).
  { unfold fexp. rewrite Z.max_l by lia. lia. }
  assert (F0 : fexp p emx (p + (e + Zpos n)) = e + Zpos n).
  { unfold fexp. rewrite Z.max_l by lia. lia. }
  assert (F1 : fexp p emx (p + 1 + (e + Zpos n)) = e + Zpos n + 1).
  { unfold fexp. rewrite Z.max_l by lia. lia. }
  unfold binary_round, shl_align. rewrite D, F.
  replace (e + Zpos n - e) with (Zpos n) by lia.
  assert (S1 : shr_fexp p emx (Zpos m) e loc_Exact
               = (Build_shr_record (Zpos m / 2 ^ Zpos n) (Z.testbit (Zpos m) (Zpos n - 1))
                    (negb (Zpos m mod 2 ^ (Zpos n - 1) =? 0)), e + Zpos n)).
  { unfold shr_fexp; cbn [Zdigits2 shr_record_of_loc]. rewrite D, F.
    replace (e + Zpos n - e) with (Zpos n) by lia.
    cbn [shr]. now rewrite shr_spec by lia. }
  unfold binary_round_aux. rewrite S1. cbn [shr_m].
  pose proof (round_shr (Zpos m) n ltac:(lia)) as R.
  pose proof (nearest_even_bounds (Zpos n) (Zpos m) ltac:(lia) ltac:(lia)) as NB.
  set (Q := round_nearest_even _ _) in *.
  pose proof (digits2_bounds m) as B. rewrite D in B.
  assert (P2 : 0 < 2 ^ Zpos n) by lia.
  assert (Hq : 2 ^ (p - 1) <= Zpos m / 2 ^ Zpos n < 2 ^ p).
  { split.
    - apply Z.div_le_lower_bound; [lia|].
      replace (p + Zpos n - 1) with (Zpos n + (p - 1)) in B by lia.
      rewrite Z.pow_add_r in B by lia. lia.
    - apply Z.div_lt_upper_bound; [lia|].
      rewrite Z.pow_add_r, Z.mul_comm in B by lia. lia. }
  assert (HQ : 2 ^ (p - 1) <= Q <= 2 ^ p) by nia.
  assert (P1 : 0 < 2 ^ (p - 1)) by (apply Z.pow_pos_nonneg; lia).
  assert (PP : 2 ^ p = 2 ^ (p - 1) * 2).
  { replace p with (p - 1 + 1) at 1 by lia. now rewrite Z.pow_add_r, Z.pow_1_r by lia. }
  destruct (Z.eq_dec Q (2 ^ p)) as [E | E].
  - (* the carry *)
    assert (DQ : Zdigits2 Q = p + 1).
    { destruct Q as [|q|q]; try lia. cbn [Zdigits2].
      apply digits2_unique. replace (p + 1 - 1) with p by lia.
      rewrite E, Z.pow_add_r, Z.pow_1_r by lia. lia. }
    unfold shr_fexp. rewrite DQ, F1.
    replace (e + Zpos n + 1 - (e + Zpos n)) with 1 by lia.
    cbn [shr shr_record_of_loc iter_pos]. rewrite shr_1_spec by lia. cbn [shr_m].
    assert (EQ : Q / 2 = 2 ^ (p - 1)).
    { rewrite E, PP. apply Z.div_mul; lia. }
    rewrite EQ.
    destruct (2 ^ (p - 1)) as [|q|q] eqn:Eq; try lia.
    change (Z.pos n) with (Zpos n).
    destruct (Z.leb_spec (e + Zpos n + 1) (emx - p)) as [Hle | Hgt].
    + left. exists q, (e + Zpos n + 1). split; [reflexivity|].
      split; [|split; [lia|split; [lia|]]].
      * apply digits2_unique. lia.
      * rewrite <- R, E.
        replace (e + Zpos n + 1 - e) with (1 + Zpos n) by lia.
        rewrite Z.pow_add_r, Z.pow_1_r by lia. lia.
    + right. split; [reflexivity | lia].
  - destruct Q as [|q|q] eqn:EQ; try lia.
    assert (DQ : Zpos (digits2_pos q) = p) by (apply digits2_unique; lia).
    unfold shr_fexp; cbn [Zdigits2]. rewrite DQ, F0, Z.sub_diag.
    cbn [shr shr_record_of_loc shr_m].
    change (Z.pos n) with (Zpos n).
    destruct (Z.leb_spec (e + Zpos n) (emx - p)) as [Hle | Hgt].
    + left. exists q, (e + Zpos n). split; [reflexivity|]. split; [exact DQ|].
      split; [lia|]. split; [lia|].
      rewrite <- R. replace (e + Zpos n - e) with (Zpos n) by lia. reflexivity.
    + right. split; [reflexivity | lia].
Qed.

Lemma binary_round_nearest (s : bool) (m : positive) (e : Z) (n : positive) :
  0 < p -> Zpos (digits2_pos m) = p + Zpos n ->
  SpecFloat.emin p emx <= e + Zpos n -> e + Zpos n + 1 <= emx - p ->
  exists q e',
    binary_round p emx s m e = S754_finite s q e'
    /\ Zpos (digits2_pos q) = p
    /\ e + Zpos n <= e' <= e + Zpos n + 1
    /\ Zpos q * 2 ^ (e' - e) = nearest_even (Zpos n) (Zpos m).
Proof.
  intros Hp D Hmin Hmax.
  destruct (binary_round_nearest_or_overflow s m e n Hp D Hmin)
    as [(q & e' & H1 & H2 & H3 & _ & H4) | [_ H]]; [|lia].
  exists q, e'. auto.
Qed.

End Nearest.

(* ================================================================== *)
(** * The native conversions: doubles, integers and narrower formats *)

Lemma digits2_log2 (m : positive) : Zpos (digits2_pos m) = Z.log2 (Zpos m) + 1.
Proof.
  rewrite digits2_size. destruct m; cbn [Z.log2 Pos.size]; lia.
Qed.

Lemma nearest_even_0 (a : Z) : nearest_even 0 a = a.
Proof.
  unfold nearest_even. rewrite Z.pow_0_r, Z.mod_1_r, Z.div_1_r. cbn. lia.
Qed.

(** A double is normalised: 53 digits, unless its exponent is the least. *)
Lemma double_canonical (f : float) (s : bool) (m : positive) (e : Z) :
  Prim2SF f = S754_finite s m e ->
  Zpos (digits2_pos m) <= 53 /\ - 1074 <= e <= 971
  /\ (- 1074 < e -> Zpos (digits2_pos m) = 53).
Proof.
  intros H. pose proof (FloatAxioms.Prim2SF_valid f) as V. rewrite H in V.
  unfold valid_binary, bounded, canonical_mantissa, fexp, SpecFloat.emin, prec, emax in V.
  apply andb_true_iff in V; destruct V as [V1 V2].
  apply Z.eqb_eq in V1. apply Z.leb_le in V2. lia.
Qed.

Lemma round_to_nearest (p emx : Z) (f : float) (s : bool) (m : positive) (e : Z) :
  Prim2SF f = S754_finite s m e ->
  0 < p < 53 -> emx <= 1024 ->
  SpecFloat.emin p emx <= e + (53 - p) -> e + (53 - p) + 1 <= emx - p ->
  - 1074 < e ->
  float_is (round_to p emx f) s (nearest_even (53 - p) (Zpos m)) e.
Proof.
  intros H Hp Hemx Hmin Hmax He.
  destruct (double_canonical f s m e H) as (_ & _ & D); specialize (D He).
  unfold round_to; rewrite H.
  set (n := Z.to_pos (53 - p)).
  assert (Hn : Zpos n = 53 - p) by (unfold n; rewrite Z2Pos.id; lia).
  destruct (binary_round_nearest p emx s m e n) as (q & e' & -> & Dq & He' & Hv);
    try lia.
  assert (Hq53 : Zpos q < 2 ^ 53).
  { pose proof (digits2_bounds q) as B. rewrite Dq in B.
    apply Z.lt_le_trans with (2 ^ p); [lia|]. apply Z.pow_le_mono_r; lia. }
  pose proof (Prim2SF_SF2Prim_short s q e' Hq53) as E; cbv zeta in E.
  rewrite Dq in E. unfold SpecFloat.emin, prec, emax in E.
  specialize (E ltac:(lia) ltac:(lia)).
  eexists _, _; split; [exact E|].
  rewrite Z.min_l by lia. rewrite Z.sub_diag, Z.pow_0_r, Z.mul_1_r.
  rewrite Zpos_shiftl, Z2N.id by lia.
  rewrite <- Hn, <- Hv, <- Z.mul_assoc, <- Z.pow_add_r by lia.
  do 2 f_equal. lia.
Qed.

(** [(double)v] is [v] rounded to 53 digits. *)
Lemma double_of_Z_spec (v : Z) :
  v <> 0 -> Z.abs v <= 2 ^ 64 ->
  exists m e,
    Prim2SF (double_of_Z v) = S754_finite (v <? 0) m e
    /\ - 52 <= e <= 13
    /\ Zpos m * 2 ^ (e - Z.min 0 e)
       = nearest_even (Z.max 0 (Z.log2 (Z.abs v) - 52)) (Z.abs v) * 2 ^ (0 - Z.min 0 e).
Proof.
  intros Hv Hb.
  destruct (Z.lt_ge_cases (Z.abs v) (2 ^ 53)) as [Hs | Hl].
  - assert (L : Z.log2 (Z.abs v) < 53) by (apply Z.log2_lt_pow2; lia).
    rewrite Z.max_l, nearest_even_0 by lia.
    pose proof (double_of_Z_exact v Hv Hs) as E. unfold exact53 in E.
    set (m := Z.to_pos (Z.abs v)) in *.
    assert (Hm : Zpos m = Z.abs v) by (unfold m; rewrite Z2Pos.id; lia).
    pose proof (digits2_le m 53 ltac:(lia) ltac:(lia)) as Hd.
    pose proof (Pos2Z.is_pos (digits2_pos m)) as Hd0.
    eexists _, _; split; [exact E|]. split; [lia|].
    rewrite Z.min_r by lia. rewrite Z.sub_diag, Z.pow_0_r, Z.mul_1_r.
    rewrite Zpos_shiftl, Z2N.id, Hm by lia. f_equal. f_equal. lia.
  - assert (L : 53 <= Z.log2 (Z.abs v)) by (apply Z.log2_le_pow2; lia).
    assert (L' : Z.log2 (Z.abs v) <= 64).
    { change 64 with (Z.log2 (2 ^ 64)). apply Z.log2_le_mono. exact Hb. }
    rewrite Z.max_r by lia.
    set (m := Z.to_pos (Z.abs v)).
    assert (Hm : Zpos m = Z.abs v) by (unfold m; rewrite Z2Pos.id; lia).
    set (n := Z.to_pos (Z.log2 (Z.abs v) - 52)).
    assert (Hn : Zpos n = Z.log2 (Z.abs v) - 52) by (unfold n; rewrite Z2Pos.id; lia).
    assert (E : binary_normalize prec emax v 0 false = binary_round prec emax (v <? 0) m 0).
    { unfold m. destruct v as [|w|w]; [congruence| |]; reflexivity. }
    unfold double_of_Z; rewrite E.
    destruct (binary_round_nearest prec emax (v <? 0) m 0 n) as (q & e' & -> & Dq & He' & Hq);
      unfold SpecFloat.emin, prec, emax; try lia.
    { rewrite digits2_log2, Hm. unfold prec. lia. }
    assert (Hq53 : Zpos q < 2 ^ 53).
    { pose proof (digits2_bounds q) as B. rewrite Dq in B. unfold prec in B. lia. }
    pose proof (Prim2SF_SF2Prim_short (v <? 0) q e' Hq53) as E'; cbv zeta in E'.
    rewrite Dq in E'. unfold SpecFloat.emin, prec, emax in E'.
    specialize (E' ltac:(lia) ltac:(lia)).
    change (Z.to_N (53 - 53)) with 0%N in E'. cbn [Pos.shiftl] in E'.
    eexists _, _; split; [exact E'|].
    change (53 - 53) with 0. rewrite !Z.sub_0_r in *. split; [lia|].
    rewrite Z.min_l by lia. rewrite !Z.sub_0_r, Z.pow_0_r, Z.mul_1_r.
    rewrite <- Hn, <- Hm. exact Hq.
Qed.

Lemma double_of_Z_nearest (v : Z) :
  v <> 0 -> Z.abs v <= 2 ^ 64 ->
  float_is (double_of_Z v) (v <? 0)
    (nearest_even (Z.max 0 (Z.log2 (Z.abs v) - 52)) (Z.abs v)) 0.
Proof.
  intros Hv Hb. destruct (double_of_Z_spec v Hv Hb) as (m & e & E & _ & H).
  exists m, e. split; assumption.
Qed.

Lemma float_not_zero (f : float) :
  (forall s, Prim2SF f <> S754_zero s) -> Prim2SF f <> S754_nan ->
  (f =? 0)%float = false.
Proof.
  intros Hz Hn. rewrite FloatAxioms.eqb_spec.
  change (Prim2SF 0) with (S754_zero false).
  destruct (Prim2SF f) as [s | s | | s m e].
  - now destruct (Hz s).
  - now destruct s.
  - now destruct Hn.
  - now destruct s.
Qed.

(** Rounding a normal double to a narrower format, whose least exponent it
    reaches, never gives zero: it gives a finite value or overflows. *)
Lemma round_to_not_zero (p emx : Z) (f : float) (s : bool) (m : positive) (e : Z) :
  Prim2SF f = S754_finite s m e ->
  0 < p < 53 -> p <= emx <= 1024 ->
  SpecFloat.emin p emx <= e + (53 - p) -> - 1074 < e ->
  (round_to p emx f =? 0)%float = false.
Proof.
  intros H Hp Hemx Hmin He.
  destruct (double_canonical f s m e H) as (_ & _ & D); specialize (D He).
  unfold round_to; rewrite H.
  set (n := Z.to_pos (53 - p)).
  assert (Hn : Zpos n = 53 - p) by (unfold n; rewrite Z2Pos.id; lia).
  destruct (binary_round_nearest_or_overflow p emx s m e n)
    as [(q & e' & -> & Dq & He' & Hle & _) | [-> _]]; try lia.
  - assert (Hq53 : Zpos q < 2 ^ 53).
    { pose proof (digits2_bounds q) as B. rewrite Dq in B.
      apply Z.lt_le_trans with (2 ^ p); [lia|]. apply Z.pow_le_mono_r; lia. }
    pose proof (Prim2SF_SF2Prim_short s q e' Hq53) as E; cbv zeta in E.
    rewrite Dq in E. unfold SpecFloat.emin, prec, emax in E.
    specialize (E ltac:(lia) ltac:(lia)).
    apply float_not_zero; rewrite E; discriminate.
  - apply float_not_zero; rewrite FloatAxioms.Prim2SF_SF2Prim by reflexivity; discriminate.
Qed.

Lemma trunc_double_finite (f : float) (s : bool) (m : positive) (e : Z) :
  Prim2SF f = S754_finite s m e ->
  trunc_double f = Some (integer_part s m e).
Proof.
  intros H; unfold trunc_double, integer_part; rewrite H.
  destruct (Z.leb_spec 0 e).
  - now rewrite Z.shiftl_mul_pow2 by lia.
  - now rewrite Z.shiftr_div_pow2 by lia.
Qed.

Lemma int64_of_double_finite (f : float) (s : bool) (m : positive) (e : Z) :
  Prim2SF f = S754_finite s m e ->
  int64_of_double f
  = if (- 2 ^ 63 <=? integer_part s m e) && (integer_part s m e <? 2 ^ 63)
    then integer_part s m e else - 2 ^ 63.
Proof.
  intros H; unfold int64_of_double. now rewrite (trunc_double_finite f s m e H).
Qed.

Lemma Prim2SF_two63 : Prim2SF two63 = S754_finite false 4503599627370496 11.
Proof. reflexivity. Qed.

Lemma integer_part_large (m : positive) (e : Z) :
  Zpos (digits2_pos m) = 53 -> 11 <= e -> 2 ^ 63 <= integer_part false m e.
Proof.
  intros D He; unfold integer_part.
  pose proof (digits2_bounds m) as B. rewrite D in B.
  destruct (Z.leb_spec 0 e); [|lia].
  assert (2 ^ 11 <= 2 ^ e) by (apply Z.pow_le_mono_r; lia).
  change (2 ^ 63) with (2 ^ 52 * 2 ^ 11). change (2 ^ (53 - 1)) with (2 ^ 52) in B.
  apply Z.mul_le_mono_nonneg; lia.
Qed.

Lemma integer_part_sign (s : bool) (m : positive) (e : Z) :
  if s then integer_part s m e <= 0 else 0 <= integer_part s m e.
Proof.
  unfold integer_part.
  assert (0 <= if 0 <=? e then Zpos m * 2 ^ e else Zpos m / 2 ^ (- e)).
  { destruct (Z.leb_spec 0 e); [|apply Z.div_pos]; lia. }
  destruct s; lia.
Qed.

Lemma two63_leb_small (f : float) (s : bool) (m : positive) (e : Z) :
  Prim2SF f = S754_finite s m e -> integer_part s m e < 2 ^ 63 ->
  (two63 <=? f)%float = false.
Proof.
  intros H Hz. rewrite FloatAxioms.leb_spec, H, Prim2SF_two63.
  unfold SFleb, SFcompare.
  destruct s; [reflexivity|].
  destruct (double_canonical f false m e H) as (_ & _ & D).
  destruct (Z.compare_spec 11 e) as [E | E | E]; try reflexivity;
    pose proof (integer_part_large m e ltac:(apply D; lia) ltac:(lia)); lia.
Qed.

Lemma land_pow2_small (a n : Z) : 0 <= a < 2 ^ n -> Z.land a (2 ^ n) = 0.
Proof.
  intros Ha. assert (0 <= n).
  { destruct (Z.le_gt_cases 0 n); [assumption|]. rewrite Z.pow_neg_r in Ha; lia. }
  apply Z.bits_inj'; intros i Hi.
  rewrite Z.land_spec, Z.bits_0, Z.pow2_bits_eqb by assumption.
  destruct (Z.eqb_spec n i) as [<- | Hne]; [|apply andb_false_r].
  rewrite andb_true_r.
  destruct (Z.eq_dec a 0) as [-> | Hne]; [apply Z.bits_0|].
  apply Z.bits_above_log2; [lia|]. apply Z.log2_lt_pow2; lia.
Qed.

(** [(uint64_t)f] for a double within the range of the type, and for the
    negative doubles the signed conversion takes. *)
Lemma uint64_of_double_finite (f : float) (s : bool) (m : positive) (e : Z) :
  Prim2SF f = S754_finite s m e ->
  - 2 ^ 63 <= integer_part s m e < 2 ^ 64 ->
  uint64_of_double f = integer_part s m e mod 2 ^ 64.
Proof.
  intros H Hz. unfold uint64_of_double.
  destruct (Z.lt_ge_cases (integer_part s m e) (2 ^ 63)) as [Hs | Hl].
  - rewrite (two63_leb_small f s m e H Hs).
    rewrite (int64_of_double_finite f s m e H).
    destruct (Z.leb_spec (- 2 ^ 63) (integer_part s m e)),
             (Z.ltb_spec (integer_part s m e) (2 ^ 63)); try lia.
    reflexivity.
  - assert (s = false) as ->.
    { pose proof (integer_part_sign s m e). destruct s; [lia | reflexivity]. }
    destruct (double_canonical f false m e H) as (Dle & Hr & D).
    pose proof (digits2_bounds m) as B.
    assert (He : e = 11).
    { unfold integer_part in Hz, Hl.
      destruct (Z.leb_spec 0 e) as [He0 | He0].
      - specialize (D ltac:(lia)). rewrite D in B. change (2 ^ (53 - 1)) with (2 ^ 52) in B.
        destruct (Z.lt_trichotomy e 11) as [Hlt | [-> | Hgt]]; [|reflexivity|].
        + assert (2 ^ e <= 2 ^ 10) by (apply Z.pow_le_mono_r; lia).
          assert (Zpos m * 2 ^ e < 2 ^ 53 * 2 ^ 10).
          { apply Z.le_lt_trans with (Zpos m * 2 ^ 10).
            - apply Z.mul_le_mono_nonneg_l; lia.
            - apply Z.mul_lt_mono_pos_r; lia. }
          change (2 ^ 53 * 2 ^ 10) with (2 ^ 63) in *. lia.
        + assert (2 ^ 12 <= 2 ^ e) by (apply Z.pow_le_mono_r; lia).
          assert (2 ^ 52 * 2 ^ 12 <= Zpos m * 2 ^ e) by (apply Z.mul_le_mono_nonneg; lia).
          change (2 ^ 52 * 2 ^ 12) with (2 ^ 64) in *. lia.
      - assert (Zpos m / 2 ^ (- e) <= Zpos m).
        { apply Z.div_le_upper_bound; [lia|].
          assert (1 <= 2 ^ (- e)) by lia. nia. }
        assert (Zpos m < 2 ^ 53).
        { apply Z.lt_le_trans with (2 ^ Zpos (digits2_pos m)); [lia|].
          apply Z.pow_le_mono_r; lia. }
        assert (2 ^ 53 < 2 ^ 63) by (apply Z.pow_lt_mono_r; lia). lia. }
    subst e. specialize (D ltac:(lia)). rewrite D in B.
    change (2 ^ (53 - 1)) with 4503599627370496 in B.
    assert (Ez : integer_part false m 11 = Zpos m * 2048) by reflexivity.
    assert (Hle : (two63 <=? f)%float = true).
    { rewrite FloatAxioms.leb_spec, H, Prim2SF_two63.
      unfold SFleb, SFcompare. cbn [Z.compare Pos.compare Pos.compare_cont].
      change (Pos.compare_cont Eq 4503599627370496 m) with (4503599627370496 ?= Zpos m).
      destruct (Z.compare_spec 4503599627370496 (Zpos m)); try reflexivity. lia. }
    rewrite Hle.
    assert (Hsub : Prim2SF (f - two63)
                   = binary_normalize prec emax (Zpos m - 4503599627370496) 11 false).
    { rewrite FloatAxioms.sub_spec, H, Prim2SF_two63. reflexivity. }
    destruct (Z.eq_dec (Zpos m) 4503599627370496) as [Em | Em].
    + rewrite Ez, Em.
      unfold int64_of_double, trunc_double. rewrite Hsub, Em. reflexivity.
    + destruct (Zpos m - 4503599627370496) as [|k|k] eqn:Ek; try lia.
      cbn [binary_normalize] in Hsub.
      assert (Hk : Zpos k < 2 ^ 52) by (change (2 ^ 52) with 4503599627370496; change (2 ^ 53) with 9007199254740992 in B; lia).
      pose proof (digits2_le k 52 ltac:(lia) Hk) as Dk.
      pose proof (Pos2Z.is_pos (digits2_pos k)) as Dk0.
      rewrite (binary_round_short prec emax false k 11) in Hsub;
        unfold SpecFloat.emin, prec, emax; try lia.
      rewrite (int64_of_double_finite _ _ _ _ Hsub).
      assert (Ei : integer_part false (Pos.shiftl k (Z.to_N (prec - Zpos (digits2_pos k))))
                     (11 - (prec - Zpos (digits2_pos k))) = Zpos k * 2048).
      { unfold integer_part, prec. rewrite Zpos_shiftl, Z2N.id by lia.
        set (d := 53 - Zpos (digits2_pos k)) in *.
        destruct (Z.leb_spec 0 (11 - d)).
        - rewrite <- Z.mul_assoc, <- Z.pow_add_r by lia.
          replace (d + (11 - d)) with 11 by lia. reflexivity.
        - replace d with (11 + (- (11 - d))) at 1 by lia.
          rewrite Z.pow_add_r, Z.mul_assoc by lia.
          rewrite Z.div_mul by (apply Z.pow_nonzero; lia). reflexivity. }
      rewrite Ei.
      destruct (Z.leb_spec (- 2 ^ 63) (Zpos k * 2048)), (Z.ltb_spec (Zpos k * 2048) (2 ^ 63));
        cbn [andb]; try lia.
      unfold wrap_unsigned.
      rewrite (Z.mod_small (Zpos k * 2048)) by lia.
      rewrite <- Z.add_nocarry_lxor by (apply land_pow2_small; lia).
      rewrite Ez, Z.mod_small by lia.
      change (2 ^ 63) with (4503599627370496 * 2048). lia.
Qed.

Lemma int64_of_double_out_of_range (f : float) (s : bool) (m : positive) (e : Z) :
  Prim2SF f = S754_finite s m e ->
  ~ (- 2 ^ 63 <= integer_part s m e < 2 ^ 63) ->
  int64_of_double f = - 2 ^ 63.
Proof.
  intros H Hz. rewrite (int64_of_double_finite f s m e H).
  destruct (Z.leb_spec (- 2 ^ 63) (integer_part s m e)),
           (Z.ltb_spec (integer_part s m e) (2 ^ 63)); cbn [andb]; try reflexivity.
  lia.
Qed.

(** From [2^64] on, the difference [f - 2^63] is out of the signed range, and
    flipping the top bit of the sign bit alone leaves 0. *)
Lemma uint64_of_double_large (f : float) (m : positive) (e : Z) :
  Prim2SF f = S754_finite false m e ->
  2 ^ 64 <= integer_part false m e ->
  uint64_of_double f = 0.
Proof.
  intros H Hz.
  destruct (double_canonical f false m e H) as (Dle & Hr & D).
  pose proof (digits2_bounds m) as B.
  assert (M53 : Zpos m < 2 ^ 53).
  { apply Z.lt_le_trans with (2 ^ Zpos (digits2_pos m)); [lia|].
    apply Z.pow_le_mono_r; lia. }
  assert (He : 12 <= e).
  { destruct (Z.le_gt_cases 12 e) as [|Hlt]; [assumption|exfalso].
    unfold integer_part in Hz. destruct (Z.leb_spec 0 e).
    - assert (2 ^ e <= 2 ^ 11) by (apply Z.pow_le_mono_r; lia).
      assert (Zpos m * 2 ^ e < 2 ^ 53 * 2 ^ 11).
      { apply Z.le_lt_trans with (Zpos m * 2 ^ 11).
        - apply Z.mul_le_mono_nonneg_l; lia.
        - apply Z.mul_lt_mono_pos_r; lia. }
      change (2 ^ 53 * 2 ^ 11) with (2 ^ 64) in *. lia.
    - assert (Zpos m / 2 ^ (- e) <= Zpos m).
      { apply Z.div_le_upper_bound; [lia|]. assert (1 <= 2 ^ (- e)) by lia. nia. }
      assert (2 ^ 53 < 2 ^ 64) by (apply Z.pow_lt_mono_r; lia). lia. }
  specialize (D ltac:(lia)). rewrite D in B. change (2 ^ (53 - 1)) with (2 ^ 52) in B.
  unfold uint64_of_double.
  assert (Hle : (two63 <=? f)%float = true).
  { rewrite FloatAxioms.leb_spec, H, Prim2SF_two63. unfold SFleb, SFcompare.
    destruct (Z.compare_spec 11 e); try reflexivity; lia. }
  rewrite Hle.
  set (d := Z.to_pos (e - 11)).
  assert (Hd : Zpos d = e - 11) by (unfold d; rewrite Z2Pos.id; lia).
  assert (Hsub : Prim2SF (f - two63)
                 = binary_normalize prec emax
                     (Zpos (Pos.shiftl m (Npos d)) - 4503599627370496) 11 false).
  { rewrite FloatAxioms.sub_spec, H, Prim2SF_two63.
    unfold FloatAxioms.SF64sub, SFsub. rewrite Z.min_r by lia.
    unfold shl_align. rewrite Z.sub_diag.
    replace (11 - e) with (Zneg d) by lia. reflexivity. }
  rewrite Zpos_shiftl in Hsub. change (Z.of_N (Npos d)) with (Zpos d) in Hsub.
  assert (P : 2 <= 2 ^ Zpos d).
  { change 2 with (2 ^ 1) at 1. apply Z.pow_le_mono_r; lia. }
  assert (HA : 2 ^ 52 <= Zpos m * 2 ^ Zpos d - 4503599627370496).
  { change 4503599627370496 with (2 ^ 52). nia. }
  destruct (Zpos m * 2 ^ Zpos d - 4503599627370496) as [|a|a] eqn:Ea; try lia.
  cbn [binary_normalize] in Hsub.
  assert (Da : 53 <= Zpos (digits2_pos a)).
  { pose proof (digits2_bounds a) as Ba.
    destruct (Z.le_gt_cases 53 (Zpos (digits2_pos a))) as [|Hlt]; [assumption|exfalso].
    assert (2 ^ Zpos (digits2_pos a) <= 2 ^ 52) by (apply Z.pow_le_mono_r; lia). lia. }
  assert (Da' : Zpos (digits2_pos a) <= 53 + Zpos d).
  { apply digits2_le; [lia|]. rewrite Z.pow_add_r by lia.
    assert (Zpos m * 2 ^ Zpos d < 2 ^ 53 * 2 ^ Zpos d) by (apply Z.mul_lt_mono_pos_r; lia).
    lia. }
  assert (Hout : int64_of_double (f - two63) = - 2 ^ 63).
  { destruct (Z.eq_dec (Zpos (digits2_pos a)) 53) as [E53 | N53].
    - rewrite (binary_round_short prec emax false a 11) in Hsub;
        unfold SpecFloat.emin, prec, emax; rewrite ?E53; try lia.
      rewrite E53 in Hsub. change (Z.to_N (prec - 53)) with 0%N in Hsub.
      cbn [Pos.shiftl] in Hsub.
      apply (int64_of_double_out_of_range _ _ _ _ Hsub).
      pose proof (integer_part_large a (11 - (prec - 53)) E53 ltac:(unfold prec; lia)). lia.
    - set (n := Z.to_pos (Zpos (digits2_pos a) - 53)).
      assert (Hn : Zpos n = Zpos (digits2_pos a) - 53) by (unfold n; rewrite Z2Pos.id; lia).
      destruct (binary_round_nearest_or_overflow prec emax false a 11 n)
        as [(q & e' & Eq & Dq & He' & _ & _) | [Einf _]];
        unfold SpecFloat.emin, prec, emax; try lia.
      + rewrite Eq in Hsub.
        apply (int64_of_double_out_of_range _ _ _ _ Hsub).
        pose proof (integer_part_large q e' Dq ltac:(lia)). lia.
      + rewrite Einf in Hsub. unfold int64_of_double, trunc_double. now rewrite Hsub. }
  rewrite Hout. reflexivity.
Qed.

Lemma uint64_of_double_zero (f : float) (s : bool) :
  Prim2SF f = S754_zero s -> uint64_of_double f = 0.
Proof.
  intros H. unfold uint64_of_double.
  rewrite FloatAxioms.leb_spec, H, Prim2SF_two63. cbn [SFleb SFcompare].
  unfold int64_of_double, trunc_double. now rewrite H.
Qed.

Lemma int64_of_double_zero (f : float) (s : bool) :
  Prim2SF f = S754_zero s -> int64_of_double f = 0.
Proof. intros H. unfold int64_of_double, trunc_double. now rewrite H. Qed.

(* ================================================================== *)
(** * Operands that are no signed or float literals *)

Lemma foldable_false (e : Expr) :
  foldable e = false -> as_IntImm e = None /\ as_FloatImm e = None.
Proof. destruct e; cbn; auto; discriminate. Qed.

Lemma Cast_make_not_foldable (t : Type_) (v e : Expr) :
  Cast_make t v = Ok e -> foldable e = false.
Proof.
  unfold Cast_make; destruct (lanes t =? lanes (type_of v)); [|discriminate].
  now intros [= <-].
Qed.

Lemma cast_not_foldable (t : Type_) (v e : Expr) :
  foldable v = false -> cast t v = Ok e -> foldable e = false.
Proof.
  intros Hv; unfold cast.
  destruct (Type_eqb (type_of v) t); [now intros [= <-]|].
  destruct (lanes t =? 1).
  { destruct v; try discriminate Hv; apply Cast_make_not_foldable. }
  destruct (lanes (type_of v) =? 1).
  { destruct (negb (Type_eqb (type_of v) (element_of t)));
      [destruct v; try discriminate Hv; destruct (Cast_make _ _)|];
      cbn [bind]; try discriminate; now intros [= <-]. }
  destruct (lanes (type_of v) =? lanes t); [|discriminate].
  apply Cast_make_not_foldable.
Qed.

Lemma SimpleCast_not_foldable (t : Type_) (v : Expr) :
  foldable v = false -> foldable (SimpleCast t v) = false.
Proof. intros Hv; unfold SimpleCast; now destruct (Type_eqb (type_of v) t). Qed.

(** Promotion makes no signed or float literal out of operands that are
    none. *)
Lemma promote_not_foldable (a b a' b' : Expr) :
  foldable a = false -> foldable b = false ->
  BinaryOpMatchTypes a b = Ok (a', b') ->
  foldable a' = false /\ foldable b' = false.
Proof.
  intros Ha Hb.
  assert (Stage : forall l r, foldable l = false -> foldable r = false ->
    (if Type_eqb (type_of l) (type_of r) then Ok (l, r) else
     if negb (is_float (type_of l)) && is_float (type_of r) then
       l <- cast (type_of r) l ;; Ok (l, r)
     else if is_float (type_of l) && negb (is_float (type_of r)) then
       r <- cast (type_of l) r ;; Ok (l, r)
     else if (is_int (type_of l) && is_int (type_of r))
             || (is_uint (type_of l) && is_uint (type_of r)) then
       if bits (type_of l) <? bits (type_of r) then
         l <- cast (type_of r) l ;; Ok (l, r)
       else
         r <- cast (type_of l) r ;; Ok (l, r)
     else if (is_int (type_of l) && is_uint (type_of r))
             || (is_uint (type_of l) && is_int (type_of r)) then
       let bits := Z.max (bits (type_of l)) (bits (type_of r)) in
       let l := SimpleCast (Int bits (lanes (type_of l))) l in
       let r := SimpleCast (Int bits (lanes (type_of r))) r in
       Ok (l, r)
     else Error TypeMismatch) = Ok (a', b') ->
    foldable a' = false /\ foldable b' = false).
  { intros l r Hl Hr.
    pose proof (cast_not_foldable (type_of r) l) as Cl.
    pose proof (cast_not_foldable (type_of l) r) as Cr.
    destruct (cast (type_of r) l) as [l'|]; destruct (cast (type_of l) r) as [r'|];
      cbn [bind];
      repeat match goal with
             | |- context [if ?c then _ else _] => destruct c
             end;
      try discriminate; cbv zeta; intros [= <- <-];
      auto using SimpleCast_not_foldable. }
  unfold BinaryOpMatchTypes.
  destruct (Type_eqb (type_of a) (type_of b)); [now intros [= <- <-]|].
  destruct ((lanes (type_of a) =? 1) && negb (lanes (type_of b) =? 1));
    [cbn [bind]; now apply Stage|].
  destruct ((lanes (type_of b) =? 1) && negb (lanes (type_of a) =? 1));
    [cbn [bind]; now apply Stage|].
  destruct (lanes (type_of a) =? lanes (type_of b));
    [cbn [bind]; now apply Stage|discriminate].
Qed.

(** X15. When neither operand is a signed-int or float literal (an unsigned
    literal is neither), nothing folds, no identity applies and no zero
    divisor is looked for: each of [+], [-], [*], [/], [min], [max] and [%]
    is promotion followed by its generic node on the promoted operands, and
    each shift and bitwise operator is promotion followed by its call. The
    only failure left is that of promotion. *)
Theorem symbolic_operands_generic (a b : Expr) :
  foldable a = false -> foldable b = false ->
  (forall o, arith_apply o a b
             = ('(a', b') <- BinaryOpMatchTypes a b ;; Ok (arith_node o a' b')))
  /\ operator_mod a b = ('(a', b') <- BinaryOpMatchTypes a b ;; Ok (Mod a' b'))
  /\ (forall o, bitop_apply o a b = promoted_call (bitop_name o) a b).
Proof.
  intros Ha Hb; split; [|split].
  - intros o.
    pose proof (promote_not_foldable a b) as P.
    destruct o; unfold arith_apply, arith_node, operator_add, operator_sub,
      operator_mul, operator_div, min_expr, max_expr, TVM_ARITH_CONST_PROPAGATION;
      destruct (BinaryOpMatchTypes a b) as [[a' b']|e]; cbn [bind]; try reflexivity;
      destruct (P a' b' Ha Hb eq_refl) as [Ha' Hb'];
      destruct (foldable_false _ Ha') as [-> ->];
      destruct (foldable_false _ Hb') as [-> ->]; reflexivity.
  - destruct (foldable_false _ Ha) as [Ia _], (foldable_false _ Hb) as [Ib _].
    unfold operator_mod, TVM_INDEX_CONST_PROPAGATION; rewrite Ia, Ib.
    now destruct (IsIndexType (type_of a) && IsIndexType (type_of b)).
  - intros o; rewrite bitop_cases.
    destruct (foldable_false _ Ha) as [-> _], (foldable_false _ Hb) as [-> _].
    now destruct (IsIndexType (type_of a) && IsIndexType (type_of b)).
Qed.

(** The instance on unsigned operands: adding the unsigned literal 0 is not
    simplified, and dividing by it is a division node. *)
Lemma symbolic_operands_generic_witness :
  operator_add (VarExpr (mkVar "u" u32 0)) (UIntImm u32 0)
  = Ok (Add (VarExpr (mkVar "u" u32 0)) (UIntImm u32 0))
  /\ operator_div (UIntImm u32 6) (UIntImm u32 0) = Ok (Div (UIntImm u32 6) (UIntImm u32 0)).
Proof.
  split.
  - exact (proj1 (symbolic_operands_generic (VarExpr (mkVar "u" u32 0)) (UIntImm u32 0)
                    eq_refl eq_refl) OpAdd).
  - exact (proj1 (symbolic_operands_generic (UIntImm u32 6) (UIntImm u32 0)
                    eq_refl eq_refl) OpDiv).
Defined.

(* ================================================================== *)
(** * Division and modulo by a literal zero: what is checked *)

(** On a promoted pair without a signed or float literal each of the six
    arithmetic operators builds its node. *)
Lemma arith_apply_generic (o : ArithOp) (a b a' b' : Expr) :
  BinaryOpMatchTypes a b = Ok (a', b') ->
  foldable a' = false -> foldable b' = false ->
  arith_apply o a b = Ok (arith_node o a' b').
Proof.
  intros E Ha Hb.
  destruct (foldable_false _ Ha) as [Ia Fa], (foldable_false _ Hb) as [Ib Fb].
  destruct o; unfold arith_apply, arith_node, operator_add, operator_sub,
    operator_mul, operator_div, min_expr, max_expr, TVM_ARITH_CONST_PROPAGATION;
    rewrite E; cbn [bind]; rewrite Ia, Fa, Ib, Fb; reflexivity.
Qed.

Lemma arith_apply_symbolic (o : ArithOp) (a b : Expr) :
  foldable a = false -> foldable b = false ->
  arith_apply o a b
  = ('(a', b') <- BinaryOpMatchTypes a b ;; Ok (arith_node o a' b')).
Proof.
  intros Ha Hb.
  destruct (BinaryOpMatchTypes a b) as [[a' b']|e] eqn:E; cbn [bind].
  - destruct (promote_not_foldable a b a' b' Ha Hb E) as [Ha' Hb'].
    now apply arith_apply_generic.
  - destruct o; unfold arith_apply, operator_add, operator_sub, operator_mul,
      operator_div, min_expr, max_expr, TVM_ARITH_CONST_PROPAGATION;
      now rewrite E.
Qed.

(** A vector met with a scalar literal: the literal is broadcast, and no
    literal is left on either side. *)
Lemma arith_apply_vector (o : ArithOp) (a c : Expr) :
  foldable a = false -> lanes (type_of a) <> 1 -> lanes (type_of c) = 1 ->
  arith_apply o a c
  = ('(a', b') <- BinaryOpMatchTypes a c ;; Ok (arith_node o a' b')).
Proof.
  intros Ha Hl Hc.
  pose proof (promote_broadcast_r a c (lanes (type_of a)) Hc eq_refl Hl) as Eb.
  destruct (BinaryOpMatchTypes a c) as [[a' b']|e] eqn:E; cbn [bind].
  - symmetry in Eb.
    destruct (promote_not_foldable a (Broadcast c (lanes (type_of a))) a' b' Ha
                eq_refl Eb) as [Ha' Hb'].
    now apply arith_apply_generic.
  - destruct o; unfold arith_apply, operator_add, operator_sub, operator_mul,
      operator_div, min_expr, max_expr, TVM_ARITH_CONST_PROPAGATION;
      now rewrite E.
Qed.

(** A scalar of integer type that is no literal, met with a float literal,
    goes under a cast node to the type of the literal. *)
Lemma promote_to_float_literal (x : Expr) (t0 : Type_) (f : float) :
  lanes (type_of x) = 1 -> lanes t0 = 1 -> is_float t0 = true ->
  is_float (type_of x) = false -> foldable x = false ->
  BinaryOpMatchTypes x (FloatImm t0 f) = Ok (Cast t0 x, FloatImm t0 f).
Proof.
  intros Hlx Hl0 Hf0 Hfx Hx.
  assert (E : Type_eqb (type_of x) t0 = false).
  { apply Type_eqb_neq; intros E; rewrite E in Hfx; congruence. }
  unfold BinaryOpMatchTypes; cbn [type_of].
  rewrite E, Hlx, Hl0; cbn [Z.eqb Pos.eqb andb negb bind type_of].
  rewrite E, Hfx, Hf0; cbn [andb negb].
  rewrite cast_scalar by assumption; cbn [bind].
  destruct x; try discriminate Hx; reflexivity.
Qed.

(** A signed literal met with a float literal becomes the float literal of
    its value. *)
Lemma promote_literal_to_float (tx t0 : Type_) (v : Z) (f : float) :
  wf_literal (IntImm tx v) = true -> lanes t0 = 1 -> is_float t0 = true ->
  BinaryOpMatchTypes (IntImm tx v) (FloatImm t0 f)
  = Ok (FloatImm_make t0 (double_of_Z v), FloatImm t0 f).
Proof.
  intros Hwf Hl0 Hf0.
  destruct (wf_IntImm _ _ Hwf) as (Hi & Hlx & _).
  pose proof Hi as Hcx; unfold is_int in Hcx; apply TypeCode_eqb_eq in Hcx.
  pose proof Hf0 as Hc0; unfold is_float in Hc0; apply TypeCode_eqb_eq in Hc0.
  assert (Hfx : is_float tx = false) by (unfold is_float; now rewrite Hcx).
  assert (E : Type_eqb tx t0 = false).
  { apply Type_eqb_neq; intros E; rewrite E in Hcx; congruence. }
  unfold BinaryOpMatchTypes; cbn [type_of].
  rewrite E, Hlx, Hl0; cbn [Z.eqb Pos.eqb andb negb bind type_of].
  rewrite E, Hfx, Hf0; cbn [andb negb].
  rewrite cast_scalar by assumption; cbn [bind].
  unfold make_const, MakeConstScalar; rewrite Hl0, Hc0; reflexivity.
Qed.

(** The float literal of a non-zero [int64] value is not zero, in any of
    the float types. *)
Lemma FloatImm_make_not_zero (t : Type_) (v : Z) :
  v <> 0 -> - 2 ^ 63 <= v < 2 ^ 63 ->
  zero_literal (FloatImm_make t (double_of_Z v)) = false.
Proof.
  intros Hv Hr.
  assert (Hb : Z.abs v <= 2 ^ 64).
  { assert (2 ^ 63 < 2 ^ 64) by (apply Z.pow_lt_mono_r; lia). lia. }
  destruct (double_of_Z_spec v Hv Hb) as (m & e & E & He & _).
  unfold FloatImm_make; cbn [zero_literal].
  destruct (bits t =? 32); [|destruct (bits t =? 16)].
  - apply (round_to_not_zero 24 128 _ _ _ _ E); unfold SpecFloat.emin; lia.
  - apply (round_to_not_zero 11 16 _ _ _ _ E); unfold SpecFloat.emin; lia.
  - apply float_not_zero; rewrite E; discriminate.
Qed.

(** Two float types of different widths are not reconciled. *)
Lemma promote_float_clash (x : Expr) (t0 : Type_) (f : float) :
  lanes (type_of x) = 1 -> lanes t0 = 1 ->
  is_float (type_of x) = true -> is_float t0 = true -> type_of x <> t0 ->
  BinaryOpMatchTypes x (FloatImm t0 f) = Error TypeMismatch.
Proof.
  intros Hlx Hl0 Hfx Hf0 Hne.
  apply Type_eqb_neq in Hne.
  pose proof Hfx as Hcx; unfold is_float in Hcx; apply TypeCode_eqb_eq in Hcx.
  pose proof Hf0 as Hc0; unfold is_float in Hc0; apply TypeCode_eqb_eq in Hc0.
  unfold BinaryOpMatchTypes; cbn [type_of].
  rewrite Hne, Hlx, Hl0; cbn [Z.eqb Pos.eqb andb negb bind type_of].
  rewrite Hne. unfold is_float, is_int, is_uint; rewrite Hcx, Hc0. reflexivity.
Qed.

Lemma arith_apply_promotion_fails (o : ArithOp) (a b : Expr) (err : Fatal) :
  BinaryOpMatchTypes a b = Error err -> arith_apply o a b = Error err.
Proof.
  intros E; destruct o; unfold arith_apply, operator_add, operator_sub, operator_mul,
    operator_div, min_expr, max_expr, TVM_ARITH_CONST_PROPAGATION; now rewrite E.
Qed.

(** An unsigned scalar met with a narrower signed literal: both go under a
    cast to the signed type of the width of the unsigned one, and no literal
    is left. *)
Lemma promote_wide_unsigned (x : Expr) (t0 : Type_) (c : Z) :
  lanes (type_of x) = 1 -> is_uint (type_of x) = true ->
  is_int t0 = true -> lanes t0 = 1 -> bits t0 < bits (type_of x) ->
  let u := Int (bits (type_of x)) 1 in
  BinaryOpMatchTypes x (IntImm t0 c) = Ok (Cast u x, Cast u (IntImm t0 c)).
Proof.
  intros Hlx Hu Hi0 Hl0 Hb u; subst u.
  pose proof Hu as Hcx; unfold is_uint in Hcx; apply TypeCode_eqb_eq in Hcx.
  pose proof Hi0 as Hc0; unfold is_int in Hc0; apply TypeCode_eqb_eq in Hc0.
  assert (E : Type_eqb (type_of x) t0 = false).
  { apply Type_eqb_neq; intros E; rewrite E in Hcx; congruence. }
  unfold BinaryOpMatchTypes; cbn [type_of].
  rewrite E, Hlx, Hl0; cbn [Z.eqb Pos.eqb andb negb bind type_of]. rewrite E.
  unfold is_float, is_int, is_uint; rewrite Hcx, Hc0; cbn [TypeCode_eqb andb orb negb].
  rewrite Z.max_l by lia. rewrite Hlx, Hl0.
  unfold SimpleCast; cbn [type_of].
  assert (E1 : Type_eqb (type_of x) (Int (bits (type_of x)) 1) = false).
  { apply Type_eqb_neq; intros E1; rewrite E1 in Hcx; discriminate. }
  assert (E2 : Type_eqb t0 (Int (bits (type_of x)) 1) = false).
  { apply Type_eqb_neq; intros E2; rewrite E2 in Hb; cbn in Hb; lia. }
  now rewrite E1, E2.
Qed.

Lemma arith_apply_wide_unsigned (o : ArithOp) (x : Expr) (t0 : Type_) (c : Z) :
  lanes (type_of x) = 1 -> is_uint (type_of x) = true ->
  is_int t0 = true -> lanes t0 = 1 -> bits t0 < bits (type_of x) ->
  let u := Int (bits (type_of x)) 1 in
  arith_apply o x (IntImm t0 c) = Ok (arith_node o (Cast u x) (Cast u (IntImm t0 c))).
Proof.
  intros Hlx Hu Hi0 Hl0 Hb u.
  apply arith_apply_generic; [|reflexivity|reflexivity].
  now apply promote_wide_unsigned.
Qed.

(** C1, as amended. Let [x] be any expression that is not itself a zero
    literal (a literal being in range). Dividing [x], scalar, by the signed
    literal 0 fails with DivideByZero, unless [x] is unsigned and wider than
    the literal; dividing [x] by the float literal 0 of its own type fails
    with DivideByZero, and so does dividing a scalar [x] of integer type,
    literal or not, by the float literal 0 of any scalar float type; and
    [x % 0] fails with DivideByZero when [x] and the signed literal 0 both
    have index types. Dividing a scalar float [x] by a float literal of
    another scalar float type fails with TypeMismatch. No zero is looked for
    in four cases, in which the operator is promotion followed by its
    generic node, and fails only as promotion does: [x / c] for an unsigned
    scalar [x] and a narrower signed literal [c], both of which go under
    casts; [x / c] for an unsigned literal [c] and [x] no signed or float
    literal; [x / c] for a vector [x] that is no literal and a scalar
    literal [c]; and [x % b] whenever [x] or [b] has no index type. *)
Theorem divide_by_literal_zero (x : Expr) :
  wf_literal x = true -> zero_literal x = false ->
  (forall t0, is_int t0 = true -> lanes t0 = 1 -> lanes (type_of x) = 1 ->
     (is_uint (type_of x) = true -> bits (type_of x) <= bits t0) ->
     operator_div x (IntImm t0 0) = Error DivideByZero)
  /\ (is_float (type_of x) = true ->
      operator_div x (FloatImm (type_of x) 0) = Error DivideByZero)
  /\ (forall t0, is_float t0 = true -> lanes t0 = 1 -> lanes (type_of x) = 1 ->
      is_float (type_of x) = false ->
      operator_div x (FloatImm t0 0) = Error DivideByZero)
  /\ (forall t0, IsIndexType (type_of x) = true -> IsIndexType t0 = true ->
      operator_mod x (IntImm t0 0) = Error DivideByZero)
  /\ (forall t0 f, is_float (type_of x) = true -> is_float t0 = true ->
      lanes (type_of x) = 1 -> lanes t0 = 1 -> type_of x <> t0 ->
      operator_div x (FloatImm t0 f) = Error TypeMismatch)
  /\ (forall t0 c, is_uint (type_of x) = true -> lanes (type_of x) = 1 ->
      is_int t0 = true -> lanes t0 = 1 -> bits t0 < bits (type_of x) ->
      operator_div x (IntImm t0 c)
      = Ok (Div (Cast (Int (bits (type_of x)) 1) x)
                (Cast (Int (bits (type_of x)) 1) (IntImm t0 c))))
  /\ (foldable x = false -> forall t0 v,
      operator_div x (UIntImm t0 v)
      = ('(a, b) <- BinaryOpMatchTypes x (UIntImm t0 v) ;; Ok (Div a b)))
  /\ (foldable x = false -> lanes (type_of x) <> 1 ->
      forall c, is_literal c = true -> lanes (type_of c) = 1 ->
      operator_div x c = ('(a, b) <- BinaryOpMatchTypes x c ;; Ok (Div a b)))
  /\ (forall b, IsIndexType (type_of x) && IsIndexType (type_of b) = false ->
      operator_mod x b = ('(a, b') <- BinaryOpMatchTypes x b ;; Ok (Mod a b'))).
Proof.
  intros Hwf Hz.
  destruct (zero_divisor_fails x Hwf Hz) as (H1 & H2 & H3).
  split; [exact H1|]. split; [exact H2|].
  split; [|split; [exact H3|split; [|split; [|split; [|split]]]]].
  - intros t0 Hf0 Hl0 Hlx Hfx.
    destruct (foldable x) eqn:Hx.
    + destruct x as [tx v|tx v|tx f| | | | | | | | | | | |]; try discriminate Hx.
      * cbn [zero_literal] in Hz. apply Z.eqb_neq in Hz.
        destruct (wf_IntImm _ _ Hwf) as (_ & _ & Hb & Hr).
        assert (2 ^ (bits tx - 1) <= 2 ^ 63) by (apply pow2_le_pow2; lia).
        pose proof (promote_literal_to_float tx t0 v 0 Hwf Hl0 Hf0) as E.
        unfold operator_div; rewrite (arith_promoted _ _ _ _ _ _ E).
        apply div_zero_divisor.
        -- now rewrite type_of_FloatImm_make.
        -- apply FloatImm_make_not_zero; lia.
        -- eexists; now right.
      * exfalso. cbn [wf_literal type_of] in *. apply andb_true_iff in Hwf.
        destruct Hwf as [Hf _]. congruence.
    + pose proof (promote_to_float_literal x t0 0 Hlx Hl0 Hf0 Hfx Hx) as E.
      unfold operator_div; rewrite (arith_promoted _ _ _ _ _ _ E).
      apply div_zero_divisor; [reflexivity|reflexivity|]. eexists; now right.
  - intros t0 f Hfx Hf0 Hlx Hl0 Hne.
    apply (arith_apply_promotion_fails OpDiv). now apply promote_float_clash.
  - intros t0 c Hu Hlx Hi0 Hl0 Hb.
    exact (arith_apply_wide_unsigned OpDiv x t0 c Hlx Hu Hi0 Hl0 Hb).
  - intros Hx t0 v. exact (arith_apply_symbolic OpDiv x (UIntImm t0 v) Hx eq_refl).
  - intros Hx Hl c _ Hc. exact (arith_apply_vector OpDiv x c Hx Hl Hc).
  - intros b Hix. unfold operator_mod. now rewrite index_skip.
Qed.

(** The instances of C1 at a symbolic [int32] dividend and at the literal
    [int32(5)]. *)
Lemma divide_by_literal_zero_witness :
  wf_literal (VarExpr (mkVar "x" i32 0)) = true
  /\ zero_literal (VarExpr (mkVar "x" i32 0)) = false
  /\ operator_div (VarExpr (mkVar "x" i32 0)) (IntImm i32 0) = Error DivideByZero
  /\ operator_div (VarExpr (mkVar "x" i32 0)) (IntImm i64 0) = Error DivideByZero
  /\ operator_div (VarExpr (mkVar "x" i32 0)) (FloatImm f32 0) = Error DivideByZero
  /\ operator_mod (VarExpr (mkVar "x" i32 0)) (IntImm i64 0) = Error DivideByZero
  /\ operator_div (IntImm i32 5) (FloatImm f32 0) = Error DivideByZero.
Proof.
  destruct (divide_by_literal_zero (VarExpr (mkVar "x" i32 0)) eq_refl eq_refl)
    as (Hd & _ & Hf & Hm & _).
  destruct (divide_by_literal_zero (IntImm i32 5) eq_refl eq_refl)
    as (_ & _ & Hf5 & _).
  split; [reflexivity|]. split; [reflexivity|]. split; [|split; [|split; [|split]]].
  - apply (Hd i32); try reflexivity; discriminate.
  - apply (Hd i64); try reflexivity; discriminate.
  - apply (Hf f32); reflexivity.
  - apply (Hm i64); reflexivity.
  - apply (Hf5 f32); reflexivity.
Defined.

(** C1, the claim as stated fails: with an [int8] dividend, not of index
    type, [x % 0] is a generic mod node; with an unsigned literal 0 the
    division is a generic node; and with a 4-lane dividend the literal is
    broadcast and the division is a generic node. *)
Lemma divide_by_literal_zero_counterexample :
  operator_mod (VarExpr (mkVar "x" i8 0)) (IntImm i8 0)
  = Ok (Mod (VarExpr (mkVar "x" i8 0)) (IntImm i8 0))
  /\ operator_div (VarExpr (mkVar "u" u32 0)) (UIntImm u32 0)
     = Ok (Div (VarExpr (mkVar "u" u32 0)) (UIntImm u32 0))
  /\ operator_div (VarExpr (mkVar "v" i32x4 0)) (IntImm i32 0)
     = Ok (Div (VarExpr (mkVar "v" i32x4 0)) (Broadcast (IntImm i32 0) 4)).
Proof. repeat split. Qed.

(* ================================================================== *)
(** * Identity laws across types *)

Lemma int_type_eta (t : Type_) : is_int t = true -> Int (bits t) (lanes t) = t.
Proof.
  destruct t as [c b l]; unfold is_int; cbn. intros H.
  apply TypeCode_eqb_eq in H; now subst.
Qed.

Lemma wf_widen_literal (t t' : Type_) (v : Z) :
  wf_literal (IntImm t v) = true ->
  is_int t' = true -> lanes t' = 1 -> 1 <= bits t' <= 64 -> bits t <= bits t' ->
  wf_literal (IntImm t' v) = true.
Proof.
  intros H Hi Hl Hb Hle; apply wf_IntImm in H; destruct H as (_ & _ & Hw & Hv).
  assert (2 ^ (bits t - 1) <= 2 ^ (bits t' - 1)) by (apply pow2_le_pow2; lia).
  cbn [wf_literal]. rewrite Hi, Hl; cbn [Z.eqb Pos.eqb andb].
  rewrite !andb_true_iff, !Z.leb_le, Z.ltb_lt. lia.
Qed.

(** Promotion of a scalar signed [x] against the signed literal 0 or 1 of
    another width: [x] is cast to the wider of the two types and the
    literal becomes the literal of that type. *)
Lemma promote_signed_literal (x : Expr) (t0 : Type_) (c : Z) :
  wf_literal x = true -> lanes (type_of x) = 1 -> is_int (type_of x) = true ->
  wf_literal (IntImm t0 0) = true -> c = 0 \/ c = 1 ->
  let u := wider (type_of x) t0 in
  exists x',
    BinaryOpMatchTypes x (IntImm t0 c) = Ok (x', IntImm u c)
    /\ cast u x = Ok x' /\ type_of x' = u /\ wf_literal x' = true
    /\ is_int u = true /\ lanes u = 1.
Proof.
  intros Hwf Hlx Hi Hw0 Hc u; subst u.
  destruct (wf_IntImm _ _ Hw0) as (Hi0 & Hl0 & Hb0 & _).
  destruct (Type_eqb (type_of x) t0) eqn:E.
  { apply Type_eqb_eq in E. rewrite <- E, wider_same.
    exists x; repeat split; auto.
    - apply BinaryOpMatchTypes_same; cbn [type_of]; congruence.
    - now apply cast_same. }
  pose proof E as Hne; apply Type_eqb_neq in Hne.
  assert (Hcode : code (type_of x) = code t0).
  { unfold is_int in Hi, Hi0; apply TypeCode_eqb_eq in Hi, Hi0; congruence. }
  pose proof (same_kind_bits_differ _ _ Hne Hcode ltac:(congruence)) as Hbits.
  assert (E' : Type_eqb t0 (type_of x) = false) by now rewrite Type_eqb_sym.
  unfold BinaryOpMatchTypes, wider; cbn [type_of].
  rewrite E, Hlx, Hl0; cbn [Z.eqb Pos.eqb andb negb bind type_of]. rewrite E.
  pose proof Hi as Hcx; unfold is_int in Hcx; apply TypeCode_eqb_eq in Hcx.
  pose proof Hi0 as Hc0; unfold is_int in Hc0; apply TypeCode_eqb_eq in Hc0.
  unfold is_float, is_int, is_uint; rewrite Hcx, Hc0; cbn [TypeCode_eqb andb orb negb].
  rewrite Z.geb_leb.
  destruct (Z.ltb_spec (bits (type_of x)) (bits t0)) as [Hlt | Hge];
    destruct (Z.leb_spec (bits t0) (bits (type_of x))) as [Hle | Hgt]; try lia.
  - rewrite (cast_scalar t0 x) by assumption; cbn [bind].
    eexists; split; [reflexivity|]. split; [reflexivity|].
    split; [|split; [|auto]].
    + destruct x; try reflexivity; apply type_of_make_const.
    + destruct x; try reflexivity; cbn [type_of] in *.
      * rewrite make_const_int by assumption.
        rewrite (widen_wf_literal type) by (auto; lia).
        apply (wf_widen_literal type); auto; lia.
      * exfalso. cbn [wf_literal] in Hwf. apply andb_true_iff in Hwf.
        destruct Hwf as [Hf _]. unfold is_float in Hf.
        rewrite Hcx in Hf; discriminate.
  - eexists; split; [|split; [now apply cast_same|auto]].
    rewrite cast_scalar by (cbn [type_of]; assumption); cbn [bind].
    rewrite make_const_int by assumption.
    destruct Hc as [-> | ->].
    + change (wrap_signed 64 0) with 0. now rewrite IntImm_make_0.
    + change (wrap_signed 64 1) with 1. unfold IntImm_make.
      assert (2 <= 2 ^ (bits (type_of x) - 1)).
      { change 2 with (2 ^ 1) at 1. apply pow2_le_pow2; lia. }
      now rewrite wrap_signed_id by lia.
Qed.

(** An unsigned scalar [x] against a signed literal at least as wide: both
    go to the signed type of the literal, [x] under a cast node. *)
Lemma promote_unsigned_literal (x : Expr) (t0 : Type_) (c : Z) :
  wf_literal x = true -> lanes (type_of x) = 1 -> is_uint (type_of x) = true ->
  wf_literal (IntImm t0 0) = true -> bits (type_of x) <= bits t0 ->
  BinaryOpMatchTypes x (IntImm t0 c) = Ok (Cast t0 x, IntImm t0 c)
  /\ cast t0 x = Ok (Cast t0 x).
Proof.
  intros Hwf Hlx Hu Hw0 Hb.
  destruct (wf_IntImm _ _ Hw0) as (Hi0 & Hl0 & Hb0 & _).
  pose proof Hu as Hcx; unfold is_uint in Hcx; apply TypeCode_eqb_eq in Hcx.
  pose proof Hi0 as Hc0; unfold is_int in Hc0; apply TypeCode_eqb_eq in Hc0.
  assert (E : Type_eqb (type_of x) t0 = false).
  { apply Type_eqb_neq; intros E; rewrite E in Hcx; congruence. }
  split.
  - unfold BinaryOpMatchTypes; cbn [type_of].
    rewrite E, Hlx, Hl0; cbn [Z.eqb Pos.eqb andb negb bind type_of]. rewrite E.
    unfold is_float, is_int, is_uint; rewrite Hcx, Hc0; cbn [TypeCode_eqb andb orb negb].
    rewrite Z.max_r by lia.
    rewrite Hlx, <- Hl0 at 1. rewrite (int_type_eta t0 Hi0).
    rewrite (SimpleCast_same t0 (IntImm t0 c)) by reflexivity.
    unfold SimpleCast; now rewrite E.
  - rewrite cast_scalar by assumption.
    destruct x; try reflexivity; exfalso; cbn [wf_literal type_of] in *;
      apply andb_true_iff in Hwf; destruct Hwf as [Hwf _];
      repeat (apply andb_true_iff in Hwf; destruct Hwf as [Hwf _]);
      unfold is_int, is_float in Hwf; rewrite Hcx in Hwf; discriminate.
Qed.

(** A float scalar [x] against the signed literal 0 or 1: the literal
    becomes the float literal of the type of [x]. *)
Lemma promote_float_literal (x : Expr) (t0 : Type_) (c : Z) :
  lanes (type_of x) = 1 -> is_float (type_of x) = true ->
  wf_literal (IntImm t0 0) = true -> c = 0 \/ c = 1 ->
  BinaryOpMatchTypes x (IntImm t0 c)
  = Ok (x, FloatImm (type_of x) (if c =? 0 then 0%float else 1%float)).
Proof.
  intros Hlx Hf Hw0 Hc.
  destruct (wf_IntImm _ _ Hw0) as (Hi0 & Hl0 & Hb0 & _).
  pose proof Hf as Hcx; unfold is_float in Hcx; apply TypeCode_eqb_eq in Hcx.
  pose proof Hi0 as Hc0; unfold is_int in Hc0; apply TypeCode_eqb_eq in Hc0.
  assert (E : Type_eqb (type_of x) t0 = false).
  { apply Type_eqb_neq; intros E; rewrite E in Hcx; congruence. }
  assert (E' : Type_eqb t0 (type_of x) = false) by now rewrite Type_eqb_sym.
  unfold BinaryOpMatchTypes; cbn [type_of].
  rewrite E, Hlx, Hl0; cbn [Z.eqb Pos.eqb andb negb bind type_of]. rewrite E.
  unfold is_float, is_int, is_uint; rewrite Hcx, Hc0; cbn [TypeCode_eqb andb orb negb].
  rewrite cast_scalar by (cbn [type_of]; assumption); cbn [bind].
  do 2 f_equal.
  unfold make_const, MakeConstScalar, FloatImm_make; rewrite Hlx, Hcx; cbn [Z.eqb Pos.eqb].
  destruct Hc as [-> | ->]; cbn [Z.eqb];
    destruct (bits (type_of x) =? 32); [reflexivity| |reflexivity|];
    destruct (bits (type_of x) =? 16); reflexivity.
Qed.

Lemma arith_apply_promoted (o : ArithOp) (a b a' b' : Expr) :
  BinaryOpMatchTypes a b = Ok (a', b') -> arith_apply o a b = arith_apply o a' b'.
Proof.
  intros E; destruct o; unfold arith_apply, operator_add, operator_sub,
    operator_mul, operator_div, min_expr, max_expr;
    exact (arith_promoted _ _ _ _ _ _ E).
Qed.

(** [x % 1] on two index types, whatever their widths. *)
Lemma mod_one_index (x : Expr) (t0 : Type_) :
  IsIndexType (type_of x) = true -> IsIndexType t0 = true ->
  operator_mod x (IntImm t0 1) = Ok (IntImm (wider (type_of x) t0) 0).
Proof.
  intros Hx H0; unfold operator_mod.
  rewrite index_body by (cbn [type_of]; now rewrite Hx, H0).
  cbn [as_IntImm type_of has ival andb Z.eqb Pos.eqb Z.gtb Z.compare].
  assert (Hw : IsIndexType (wider (type_of x) t0) = true)
    by (unfold wider; now destruct (bits (type_of x) >=? bits t0)).
  destruct (IsIndexType_inv _ Hw) as (Hi & Hl & _).
  rewrite make_zero_int by assumption.
  destruct (as_IntImm x) as [v|]; cbn [has ival andb]; [|reflexivity].
  rewrite andb_true_r.
  destruct (Z.geb_spec v 0).
  - unfold int64.rem; rewrite Z.rem_1_r. now rewrite IntImm_make_0.
  - destruct (Z.eqb_spec v 0); [lia|reflexivity].
Qed.

(** C3, as amended. Let [x] be a scalar expression, literal (in range) or
    symbolic, and let the literals 0 and 1 be signed literals of a scalar
    type [t0]. If [x] is signed, [x+0], [x*1] and [x/1] are [x] cast to the
    wider of the two types ([x] itself when the types are equal), [x*0] is
    the literal 0 of that type, and so is [x%1] when both types are index
    types. If [x] is unsigned and no wider than the literals, [x+0], [x*1]
    and [x/1] are [x] under a cast to [t0] and [x*0] is the literal 0 of
    [t0]. If [x] is a symbolic float, [x+0], [x*1], [x/1] are [x] and [x*0]
    is the float literal 0, with the signed literals as with the float
    literals of the type of [x]. If [x] has an integer type and is no
    signed literal, then with the float literals 0 and 1 of any scalar
    float type [t1], [x+0], [x*1] and [x/1] are [x] under a cast to [t1] and
    [x*0] is the float literal 0 of [t1]. A float [x] and a float literal of
    another scalar float type fail with TypeMismatch. No identity is looked
    for in four cases, in which the operator is promotion followed by its
    generic node: for an unsigned [x] with a narrower signed literal, both
    of which go under casts; with an unsigned literal, when [x] is no signed
    or float literal; with a vector [x] that is no literal and a scalar
    literal; and for [%] whenever [x] or the other operand has no index
    type. *)
Theorem identity_laws (x : Expr) (t t0 : Type_) :
  type_of x = t -> wf_literal x = true ->
  (lanes t = 1 ->
     (is_int t = true ->
        operator_add x (IntImm t 0) = Ok x
        /\ operator_mul x (IntImm t 1) = Ok x
        /\ operator_mul x (IntImm t 0) = Ok (IntImm t 0)
        /\ operator_div x (IntImm t 1) = Ok x
        /\ (IsIndexType t = true -> operator_mod x (IntImm t 1) = Ok (IntImm t 0)))
     /\ (is_float t = true -> as_FloatImm x = None ->
         operator_add x (FloatImm t 0) = Ok x
         /\ operator_mul x (FloatImm t 1) = Ok x
         /\ operator_mul x (FloatImm t 0) = Ok (FloatImm t 0)
         /\ operator_div x (FloatImm t 1) = Ok x)
     /\ (wf_literal (IntImm t0 0) = true ->
         (is_int t = true ->
            exists x',
              cast (wider t t0) x = Ok x' /\ type_of x' = wider t t0
              /\ (t0 = t -> x' = x)
              /\ operator_add x (IntImm t0 0) = Ok x'
              /\ operator_mul x (IntImm t0 1) = Ok x'
              /\ operator_mul x (IntImm t0 0) = Ok (IntImm (wider t t0) 0)
              /\ operator_div x (IntImm t0 1) = Ok x'
              /\ (IsIndexType t = true -> IsIndexType t0 = true ->
                  operator_mod x (IntImm t0 1) = Ok (IntImm (wider t t0) 0)))
         /\ (is_uint t = true -> bits t <= bits t0 ->
             cast t0 x = Ok (Cast t0 x)
             /\ operator_add x (IntImm t0 0) = Ok (Cast t0 x)
             /\ operator_mul x (IntImm t0 1) = Ok (Cast t0 x)
             /\ operator_mul x (IntImm t0 0) = Ok (IntImm t0 0)
             /\ operator_div x (IntImm t0 1) = Ok (Cast t0 x))
         /\ (is_float t = true -> as_FloatImm x = None ->
             operator_add x (IntImm t0 0) = Ok x
             /\ operator_mul x (IntImm t0 1) = Ok x
             /\ operator_mul x (IntImm t0 0) = Ok (FloatImm t 0)
             /\ operator_div x (IntImm t0 1) = Ok x)))
  /\ (lanes t = 1 -> is_float t = false -> foldable x = false ->
      forall t1, is_float t1 = true -> lanes t1 = 1 ->
      operator_add x (FloatImm t1 0) = Ok (Cast t1 x)
      /\ operator_mul x (FloatImm t1 1) = Ok (Cast t1 x)
      /\ operator_mul x (FloatImm t1 0) = Ok (FloatImm t1 0)
      /\ operator_div x (FloatImm t1 1) = Ok (Cast t1 x))
  /\ (lanes t = 1 -> is_float t = true ->
      forall o t1 f, is_float t1 = true -> lanes t1 = 1 -> t <> t1 ->
      arith_apply o x (FloatImm t1 f) = Error TypeMismatch)
  /\ (lanes t = 1 -> is_uint t = true ->
      forall o t1 c, is_int t1 = true -> lanes t1 = 1 -> bits t1 < bits t ->
      arith_apply o x (IntImm t1 c)
      = Ok (arith_node o (Cast (Int (bits t) 1) x) (Cast (Int (bits t) 1) (IntImm t1 c))))
  /\ (foldable x = false -> forall o t1 v,
      arith_apply o x (UIntImm t1 v)
      = ('(a, b) <- BinaryOpMatchTypes x (UIntImm t1 v) ;; Ok (arith_node o a b)))
  /\ (foldable x = false -> lanes t <> 1 ->
      forall o c, is_literal c = true -> lanes (type_of c) = 1 ->
      arith_apply o x c
      = ('(a, b) <- BinaryOpMatchTypes x c ;; Ok (arith_node o a b)))
  /\ (forall b, IsIndexType t && IsIndexType (type_of b) = false ->
      operator_mod x b = ('(a, b') <- BinaryOpMatchTypes x b ;; Ok (Mod a b'))).
Proof.
  intros Ht Hwf; subst t.
  split; [|split; [|split; [|split; [|split; [|split]]]]].
  - intros Hl.
    destruct (identity_same_type x (type_of x) eq_refl Hl Hwf) as [Hint Hflt].
    split; [exact Hint|]. split; [exact Hflt|].
    intros Hw0. destruct (wf_IntImm _ _ Hw0) as (Hi0 & Hl0 & Hb0 & _).
    split; [|split].
    + intros Hi.
      destruct (promote_signed_literal x t0 0 Hwf Hl Hi Hw0 (or_introl eq_refl))
        as (x' & E0 & Hc & Hx' & Hwf' & Hiu & Hlu).
      destruct (promote_signed_literal x t0 1 Hwf Hl Hi Hw0 (or_intror eq_refl))
        as (x1 & E1 & Hc1 & _).
      rewrite Hc in Hc1; injection Hc1 as <-.
      destruct (identity_same_type x' _ Hx' Hlu Hwf') as [Hlaws _].
      destruct (Hlaws Hiu) as (L1 & L2 & L3 & L4 & _).
      exists x'. split; [exact Hc|]. split; [exact Hx'|]. split.
      { intros ->. rewrite wider_same in Hc.
        rewrite cast_same in Hc by reflexivity. now injection Hc. }
      change operator_add with (arith_apply OpAdd) in *.
      change operator_mul with (arith_apply OpMul) in *.
      change operator_div with (arith_apply OpDiv) in *.
      rewrite (arith_apply_promoted _ _ _ _ _ E0), !(arith_apply_promoted _ _ _ _ _ E1).
      rewrite (arith_apply_promoted OpMul _ _ _ _ E0).
      repeat split; try assumption.
      intros Hix Hix0. now apply mod_one_index.
    + intros Hu Hb.
      destruct (promote_unsigned_literal x t0 0 Hwf Hl Hu Hw0 Hb) as (E0 & Hc).
      destruct (promote_unsigned_literal x t0 1 Hwf Hl Hu Hw0 Hb) as (E1 & _).
      destruct (identity_same_type (Cast t0 x) t0 eq_refl Hl0 eq_refl) as [Hlaws _].
      destruct (Hlaws Hi0) as (L1 & L2 & L3 & L4 & _).
      split; [exact Hc|].
      change operator_add with (arith_apply OpAdd) in *.
      change operator_mul with (arith_apply OpMul) in *.
      change operator_div with (arith_apply OpDiv) in *.
      rewrite (arith_apply_promoted _ _ _ _ _ E0), !(arith_apply_promoted _ _ _ _ _ E1).
      rewrite (arith_apply_promoted OpMul _ _ _ _ E0).
      repeat split; assumption.
    + intros Hf Hx.
      pose proof (promote_float_literal x t0 0 Hl Hf Hw0 (or_introl eq_refl)) as E0.
      pose proof (promote_float_literal x t0 1 Hl Hf Hw0 (or_intror eq_refl)) as E1.
      cbn [Z.eqb] in E0, E1.
      destruct (Hflt Hf Hx) as (L1 & L2 & L3 & L4).
      change operator_add with (arith_apply OpAdd) in *.
      change operator_mul with (arith_apply OpMul) in *.
      change operator_div with (arith_apply OpDiv) in *.
      rewrite (arith_apply_promoted _ _ _ _ _ E0), !(arith_apply_promoted _ _ _ _ _ E1).
      rewrite (arith_apply_promoted OpMul _ _ _ _ E0).
      repeat split; assumption.
  - intros Hl Hfx Hx t1 Hf1 Hl1.
    pose proof (promote_to_float_literal x t1 0 Hl Hl1 Hf1 Hfx Hx) as E0.
    pose proof (promote_to_float_literal x t1 1 Hl Hl1 Hf1 Hfx Hx) as E1.
    destruct (identity_same_type (Cast t1 x) t1 eq_refl Hl1 eq_refl) as [_ Hlaws].
    destruct (Hlaws Hf1 eq_refl) as (L1 & L2 & L3 & L4).
    change operator_add with (arith_apply OpAdd) in *.
    change operator_mul with (arith_apply OpMul) in *.
    change operator_div with (arith_apply OpDiv) in *.
    rewrite (arith_apply_promoted _ _ _ _ _ E0), !(arith_apply_promoted _ _ _ _ _ E1).
    rewrite (arith_apply_promoted OpMul _ _ _ _ E0).
    repeat split; assumption.
  - intros Hl Hf o t1 f Hf1 Hl1 Hne.
    apply arith_apply_promotion_fails. now apply promote_float_clash.
  - intros Hl Hu o t1 c Hi1 Hl1 Hb.
    exact (arith_apply_wide_unsigned o x t1 c Hl Hu Hi1 Hl1 Hb).
  - intros Hx o t1 v. exact (arith_apply_symbolic o x (UIntImm t1 v) Hx eq_refl).
  - intros Hx Hl o c _ Hc. exact (arith_apply_vector o x c Hx Hl Hc).
  - intros b Hix. unfold operator_mod. now rewrite index_skip.
Qed.

(** The instances of C3 at a symbolic [int32] operand with the literals of
    its type, and at a symbolic [int8] operand with the [int32] literals:
    the second is cast to [int32]. *)
Lemma identity_laws_witness :
  operator_add (VarExpr (mkVar "x" i32 0)) (IntImm i32 0) = Ok (VarExpr (mkVar "x" i32 0))
  /\ operator_mul (VarExpr (mkVar "x" i32 0)) (IntImm i32 1) = Ok (VarExpr (mkVar "x" i32 0))
  /\ operator_mul (VarExpr (mkVar "x" i32 0)) (IntImm i32 0) = Ok (IntImm i32 0)
  /\ operator_div (VarExpr (mkVar "x" i32 0)) (IntImm i32 1) = Ok (VarExpr (mkVar "x" i32 0))
  /\ operator_mod (VarExpr (mkVar "x" i32 0)) (IntImm i32 1) = Ok (IntImm i32 0)
  /\ exists x', cast i32 (VarExpr (mkVar "y" i8 0)) = Ok x'
                /\ operator_add (VarExpr (mkVar "y" i8 0)) (IntImm i32 0) = Ok x'.
Proof.
  destruct (identity_laws (VarExpr (mkVar "x" i32 0)) i32 i32 eq_refl eq_refl)
    as [H _].
  destruct (H eq_refl) as (Hs & _).
  destruct (Hs eq_refl) as (H1 & H2 & H3 & H4 & H5).
  destruct (identity_laws (VarExpr (mkVar "y" i8 0)) i8 i32 eq_refl eq_refl)
    as [H' _].
  destruct (H' eq_refl) as (_ & _ & Hc).
  destruct (Hc eq_refl) as (Hcs & _).
  destruct (Hcs eq_refl) as (x' & Ec & _ & _ & Ea & _).
  split; [exact H1|]. split; [exact H2|]. split; [exact H3|]. split; [exact H4|].
  split; [exact (H5 eq_refl)|].
  exists x'; split; [exact Ec | exact Ea].
Defined.

(** C3, the claim as stated fails: for an [int8] variable, not of index
    type, [x % 1] is a generic mod node; for an unsigned variable and the
    unsigned literal 0, [x + 0] is a generic add node; and for a 4-lane
    vector the scalar 0 is broadcast and the sum is a generic add node. *)
Lemma identity_laws_counterexample :
  operator_mod (VarExpr (mkVar "x" i8 0)) (IntImm i8 1)
  = Ok (Mod (VarExpr (mkVar "x" i8 0)) (IntImm i8 1))
  /\ operator_add (VarExpr (mkVar "u" u32 0)) (UIntImm u32 0)
     = Ok (Add (VarExpr (mkVar "u" u32 0)) (UIntImm u32 0))
  /\ operator_add (VarExpr (mkVar "v" i32x4 0)) (IntImm i32 0)
     = Ok (Add (VarExpr (mkVar "v" i32x4 0)) (Broadcast (IntImm i32 0) 4)).
Proof. repeat split. Qed.

(* ================================================================== *)
(** * Binary minimum and maximum *)

Lemma min_literals (t : Type_) (a b : Z) :
  min_expr (IntImm t a) (IntImm t b) = Ok (IntImm_make t (Z.min a b)).
Proof.
  unfold min_expr; rewrite arith_same_type by reflexivity.
  cbn [as_IntImm has ival andb type_of]. now rewrite wider_same.
Qed.

Lemma max_literals (t : Type_) (a b : Z) :
  max_expr (IntImm t a) (IntImm t b) = Ok (IntImm_make t (Z.max a b)).
Proof.
  unfold max_expr; rewrite arith_same_type by reflexivity.
  cbn [as_IntImm has ival andb type_of]. now rewrite wider_same.
Qed.

Lemma wf_IntImm_min (t : Type_) (a b : Z) :
  wf_literal (IntImm t a) = true -> wf_literal (IntImm t b) = true ->
  wf_literal (IntImm t (Z.min a b)) = true /\ wf_literal (IntImm t (Z.max a b)) = true.
Proof.
  intros Ha Hb.
  destruct (Z.min_spec a b) as [[_ ->] | [_ ->]], (Z.max_spec a b) as [[_ ->] | [_ ->]];
    auto.
Qed.

(** X16. On two signed literals in range of one type, [min] and [max] fold
    to the literal of the smaller and of the larger value, one of the two
    operands each time; the folds commute, [max(a, min(a, b))] folds back
    to [a], and [min(a, b) + max(a, b)] folds to the same literal as
    [a + b]. *)
Theorem min_max_literals (t : Type_) (a b : Z) :
  wf_literal (IntImm t a) = true -> wf_literal (IntImm t b) = true ->
  let A := IntImm t a in
  let B := IntImm t b in
  min_expr A B = Ok (IntImm t (Z.min a b))
  /\ max_expr A B = Ok (IntImm t (Z.max a b))
  /\ min_expr A B = min_expr B A
  /\ max_expr A B = max_expr B A
  /\ (m <- min_expr A B ;; max_expr A m) = Ok A
  /\ (m <- min_expr A B ;; M <- max_expr A B ;; operator_add m M) = operator_add A B.
Proof.
  intros Ha Hb A B; subst A B.
  destruct (wf_IntImm_min t a b Ha Hb) as [Hm HM].
  destruct (wf_IntImm_min t b a Hb Ha) as [Hm' HM'].
  rewrite !min_literals, !max_literals.
  rewrite !IntImm_make_in_range by assumption.
  cbn [bind]. rewrite max_literals, !add_literals.
  rewrite (Z.min_comm b a), (Z.max_comm b a).
  repeat split.
  - replace (Z.max a (Z.min a b)) with a by lia.
    now rewrite IntImm_make_in_range.
  - unfold int64.add. do 3 f_equal. lia.
Qed.

(** The instance on [int32]: [min(3, -5) = -5], [max(3, -5) = 3]. *)
Lemma min_max_literals_witness :
  min_expr (IntImm i32 3) (IntImm i32 (-5)) = Ok (IntImm i32 (-5))
  /\ max_expr (IntImm i32 3) (IntImm i32 (-5)) = Ok (IntImm i32 3).
Proof.
  destruct (min_max_literals i32 3 (-5) eq_refl eq_refl) as (Hm & HM & _).
  split; [exact Hm | exact HM].
Defined.

(** A float that is not a number compares false with every float. *)
Lemma SFcompare_refl (s : spec_float) : s <> S754_nan -> SFcompare s s = Some Eq.
Proof.
  destruct s as [[]|[]| |[] m e]; cbn; try reflexivity; try congruence; intros _;
    now rewrite Z.compare_refl, Pos.compare_refl.
Qed.

Lemma is_nan_Prim2SF (x : float) : is_nan x = true -> Prim2SF x = S754_nan.
Proof.
  unfold is_nan; rewrite FloatAxioms.eqb_spec; unfold SFeqb.
  destruct (Prim2SF x) eqn:E; try reflexivity;
    rewrite SFcompare_refl by discriminate; discriminate.
Qed.

Lemma ltb_nan (x y : float) :
  is_nan x = true \/ is_nan y = true -> (x <? y)%float = false.
Proof.
  rewrite FloatAxioms.ltb_spec; unfold SFltb.
  intros [H | H]; apply is_nan_Prim2SF in H; rewrite H.
  - reflexivity.
  - now destruct (Prim2SF x) as [[]|[]| |[] m e].
Qed.

(** X17. On two float literals of one type of which one is not a number,
    [min] and [max] both fold to the first operand ([std::min] and
    [std::max] keep it whenever the comparison is false): the fold of a NaN
    and a number depends on the order of the operands. *)
Theorem min_max_nan (t : Type_) (x y : float) :
  is_nan x = true \/ is_nan y = true ->
  min_expr (FloatImm t x) (FloatImm t y) = Ok (FloatImm_make t x)
  /\ max_expr (FloatImm t x) (FloatImm t y) = Ok (FloatImm_make t x).
Proof.
  intros H.
  assert (H' : is_nan y = true \/ is_nan x = true) by tauto.
  unfold min_expr, max_expr; rewrite !arith_same_type by reflexivity.
  cbn [as_IntImm as_FloatImm has ival fval andb type_of].
  now rewrite wider_same, (ltb_nan x y H), (ltb_nan y x H').
Qed.

(** The instances on [float32]: the minimum of NaN and 1 is NaN, that of 1
    and NaN is 1. *)
Lemma min_max_nan_witness :
  min_expr (FloatImm f32 nan) (FloatImm f32 1%float) = Ok (FloatImm f32 nan)
  /\ min_expr (FloatImm f32 1%float) (FloatImm f32 nan) = Ok (FloatImm f32 1%float).
Proof.
  split.
  - exact (proj1 (min_max_nan f32 nan 1%float (or_introl eq_refl))).
  - exact (proj1 (min_max_nan f32 1%float nan (or_intror eq_refl))).
Defined.

(* ================================================================== *)
(** * Bitwise folds *)

(** A value is in the range of a width exactly when the bits above the
    width repeat its sign. *)
Lemma in_range_shiftr (n x : Z) :
  0 <= n ->
  (- 2 ^ n <= x < 2 ^ n <-> Z.shiftr x n = 0 \/ Z.shiftr x n = -1).
Proof.
  intros Hn; rewrite Z.shiftr_div_pow2 by assumption.
  assert (Hp : 0 < 2 ^ n) by (apply Z.pow_pos_nonneg; lia).
  pose proof (Z.div_mod x (2 ^ n) ltac:(lia)) as E.
  pose proof (Z.mod_pos_bound x (2 ^ n) Hp) as B.
  split.
  - intros Hx. assert (-1 <= x / 2 ^ n < 1) by nia. lia.
  - intros [H | H]; rewrite H in E; lia.
Qed.

Lemma bitwise_in_range (n a b : Z) :
  0 <= n -> - 2 ^ n <= a < 2 ^ n -> - 2 ^ n <= b < 2 ^ n ->
  - 2 ^ n <= Z.land a b < 2 ^ n
  /\ - 2 ^ n <= Z.lor a b < 2 ^ n
  /\ - 2 ^ n <= Z.lxor a b < 2 ^ n.
Proof.
  intros Hn Ha Hb.
  apply (in_range_shiftr n a Hn) in Ha; apply (in_range_shiftr n b Hn) in Hb.
  rewrite !(in_range_shiftr n) by assumption.
  rewrite Z.shiftr_land, Z.shiftr_lor, Z.shiftr_lxor.
  destruct Ha as [-> | ->], Hb as [-> | ->]; cbn; auto.
Qed.

Lemma shiftr_in_range (n a k : Z) :
  0 <= n -> 0 <= k -> - 2 ^ n <= a < 2 ^ n -> - 2 ^ n <= Z.shiftr a k < 2 ^ n.
Proof.
  intros Hn Hk Ha.
  apply (in_range_shiftr n a Hn) in Ha; apply (in_range_shiftr n _ Hn).
  rewrite Z.shiftr_shiftr, (Z.add_comm k n), <- Z.shiftr_shiftr by assumption.
  destruct Ha as [-> | ->].
  - left; apply Z.shiftr_0_l.
  - right. rewrite Z.shiftr_div_pow2 by assumption.
    assert (Hp : 0 < 2 ^ k) by (apply Z.pow_pos_nonneg; lia).
    pose proof (Z.div_mod (-1) (2 ^ k) ltac:(lia)).
    pose proof (Z.mod_pos_bound (-1) (2 ^ k) Hp). nia.
Qed.

Lemma wf_IntImm_range (t : Type_) (a v : Z) :
  wf_literal (IntImm t a) = true ->
  - 2 ^ (bits t - 1) <= v < 2 ^ (bits t - 1) ->
  wf_literal (IntImm t v) = true.
Proof.
  intros Ha Hv; apply wf_IntImm in Ha; destruct Ha as (Hi & Hl & Hb & _).
  cbn [wf_literal]. rewrite Hi, Hl; cbn [Z.eqb Pos.eqb andb].
  rewrite !andb_true_iff, !Z.leb_le, Z.ltb_lt. lia.
Qed.

(** X18. On two signed literals in range of one index type, [&], [|] and
    [^] fold to the literal of the bitwise operation on the two values, and
    [>>] by a count [k] from 0 to 63 to the literal of [a / 2 ^ k] rounded down:
    each in the range of the type, so the factory keeps the value as it is.
    Hence [a & a] and [a | a] fold back to [a] and [a ^ a] folds to the
    literal 0. *)
Theorem bitwise_literals (t : Type_) (a b : Z) :
  IsIndexType t = true ->
  wf_literal (IntImm t a) = true -> wf_literal (IntImm t b) = true ->
  let A := IntImm t a in
  let B := IntImm t b in
  (operator_bitand A B = Ok (IntImm t (Z.land a b))
   /\ operator_bitor A B = Ok (IntImm t (Z.lor a b))
   /\ operator_bitxor A B = Ok (IntImm t (Z.lxor a b))
   /\ (0 <= b < 64 -> operator_shr A B = Ok (IntImm t (a / 2 ^ b))))
  /\ (wf_literal (IntImm t (Z.land a b)) = true
      /\ wf_literal (IntImm t (Z.lor a b)) = true
      /\ wf_literal (IntImm t (Z.lxor a b)) = true
      /\ (0 <= b < 64 -> wf_literal (IntImm t (a / 2 ^ b)) = true))
  /\ (operator_bitand A A = Ok A /\ operator_bitor A A = Ok A
      /\ operator_bitxor A A = Ok (IntImm t 0)).
Proof.
  intros Hix Ha Hb A B; subst A B.
  destruct (wf_IntImm _ _ Ha) as (_ & _ & Hw & Hra).
  destruct (wf_IntImm _ _ Hb) as (_ & _ & _ & Hrb).
  destruct (bitwise_in_range (bits t - 1) a b ltac:(lia) Hra Hrb) as (Rand & Ror & Rxor).
  assert (Rshr : 0 <= b -> - 2 ^ (bits t - 1) <= a / 2 ^ b < 2 ^ (bits t - 1)).
  { intros H0. rewrite <- Z.shiftr_div_pow2 by assumption.
    apply shiftr_in_range; lia. }
  assert (Wand := wf_IntImm_range t a _ Ha Rand).
  assert (Wor := wf_IntImm_range t a _ Ha Ror).
  assert (Wxor := wf_IntImm_range t a _ Ha Rxor).
  assert (Wshr := fun H0 => wf_IntImm_range t a _ Ha (Rshr H0)).
  pose proof (shift_literals BitAnd t a b Hix) as Eand.
  pose proof (shift_literals BitOr t a b Hix) as Eor.
  pose proof (shift_literals BitXor t a b Hix) as Exor.
  pose proof (shift_literals Shr t a b Hix) as Eshr.
  pose proof (shift_literals BitAnd t a a Hix) as Eand'.
  pose proof (shift_literals BitOr t a a Hix) as Eor'.
  pose proof (shift_literals BitXor t a a Hix) as Exor'.
  cbn [bitop_apply] in *. unfold int64.and, int64.or, int64.xor, int64.shr in *.
  rewrite Z.land_diag in Eand'. rewrite Z.lor_diag in Eor'. rewrite Z.lxor_nilpotent in Exor'.
  rewrite IntImm_make_in_range in Eand, Eor, Exor, Eand', Eor' by assumption.
  rewrite IntImm_make_0 in Exor'.
  repeat split; try assumption.
  - intros H0. rewrite Eshr, Z.mod_small by lia.
    rewrite Z.shiftr_div_pow2 by lia.
    rewrite IntImm_make_in_range; [reflexivity|apply Wshr; lia].
  - intros H0. apply Wshr; lia.
Qed.

(** The instances on [int32]: [12 & 10 = 8], [12 | 10 = 14], [12 ^ 10 = 6]
    and [-7 >> 1 = -4]. *)
Lemma bitwise_literals_witness :
  operator_bitand (IntImm i32 12) (IntImm i32 10) = Ok (IntImm i32 8)
  /\ operator_bitor (IntImm i32 12) (IntImm i32 10) = Ok (IntImm i32 14)
  /\ operator_bitxor (IntImm i32 12) (IntImm i32 10) = Ok (IntImm i32 6)
  /\ operator_shr (IntImm i32 (-7)) (IntImm i32 1) = Ok (IntImm i32 (-4)).
Proof.
  destruct (bitwise_literals i32 12 10 eq_refl eq_refl eq_refl) as ((Ha & Ho & Hx & _) & _).
  destruct (bitwise_literals i32 (-7) 1 eq_refl eq_refl eq_refl) as ((_ & _ & _ & Hs) & _).
  split; [exact Ha|]. split; [exact Ho|]. split; [exact Hx|].
  exact (Hs ltac:(lia)).
Defined.

(* ================================================================== *)
(** * Identities on the left *)

(** X19. The literal 0 or 1 as the left operand. For every scalar
    expression [x] of signed-int type, literal (in range) or symbolic, and
    the literals of its type: [0+x] and [1*x] are [x], and [0*x], [0/x] are
    the literal 0, as is [0%x] on an index type; the rule for a zero
    dividend stands before the zero-divisor check, so [0/0] and [0%0] are
    the literal 0 and no failure. For every symbolic scalar [x] of float
    type the first four hold as well, and the float [0/0] is the literal
    0. *)
Theorem left_identity_laws (x : Expr) (t : Type_) :
  type_of x = t -> lanes t = 1 -> wf_literal x = true ->
  (is_int t = true ->
     operator_add (IntImm t 0) x = Ok x
     /\ operator_mul (IntImm t 1) x = Ok x
     /\ operator_mul (IntImm t 0) x = Ok (IntImm t 0)
     /\ operator_div (IntImm t 0) x = Ok (IntImm t 0)
     /\ (IsIndexType t = true -> operator_mod (IntImm t 0) x = Ok (IntImm t 0)))
  /\ (is_float t = true -> as_FloatImm x = None ->
     operator_add (FloatImm t 0) x = Ok x
     /\ operator_mul (FloatImm t 1) x = Ok x
     /\ operator_mul (FloatImm t 0) x = Ok (FloatImm t 0)
     /\ operator_div (FloatImm t 0) x = Ok (FloatImm t 0))
  /\ operator_div (FloatImm t 0) (FloatImm t 0) = Ok (FloatImm t 0).
Proof.
  intros Ht Hl Hwf; subst t.
  unfold operator_add, operator_mul, operator_div, operator_mod.
  rewrite !arith_same_type by reflexivity.
  cbn [as_IntImm as_FloatImm type_of has ival fval].
  rewrite ?wider_same, ?SimpleCast_same by reflexivity.
  split; [|split].
  - intros Hi.
    destruct (as_IntImm x) as [v|] eqn:Hx.
    + pose proof (as_IntImm_Some _ _ Hx) as Ex.
      rewrite Ex in Hwf.
      pose proof (IntImm_make_wf _ _ Hwf) as Hmk.
      cbn [has ival andb Z.eqb Z.geb Z.compare].
      repeat split.
      * unfold int64.add; rewrite Z.add_0_l, Hmk; f_equal; now symmetry.
      * unfold int64.mul; rewrite Z.mul_1_l, Hmk; f_equal; now symmetry.
      * unfold int64.mul; rewrite Z.mul_0_l, wrap_signed_0; now rewrite IntImm_make_0.
      * destruct (Z.gtb_spec v 0); [|reflexivity].
        unfold int64.div; rewrite Z.quot_0_l, wrap_signed_0 by lia.
        now rewrite IntImm_make_0.
      * intros Hix; rewrite index_body by (cbn [type_of]; now rewrite Hix).
        cbn [as_IntImm type_of]; rewrite Hx; cbn [has ival andb Z.eqb Z.geb Z.compare].
        rewrite ?wider_same, ?SimpleCast_same by reflexivity.
        destruct (Z.gtb_spec v 0); [|reflexivity].
        unfold int64.rem; rewrite Z.rem_0_l by lia. now rewrite IntImm_make_0.
    + cbn [has ival andb Z.eqb Z.geb Z.compare].
      repeat split; try reflexivity.
      intros Hix; rewrite index_body by (cbn [type_of]; now rewrite Hix).
      cbn [as_IntImm type_of]; rewrite Hx; cbn [has ival andb Z.eqb Z.geb Z.compare].
      now rewrite ?wider_same, ?SimpleCast_same by reflexivity.
  - intros Hf Hfx.
    assert (Hx : as_IntImm x = None).
    { destruct (as_IntImm x) as [v|] eqn:Hx; [|reflexivity].
      apply as_IntImm_Some in Hx; rewrite Hx in Hwf.
      apply wf_IntImm in Hwf; destruct Hwf as (Hi & _).
      unfold is_int, is_float in *; destruct (code (type_of x)); discriminate. }
    rewrite Hx, Hfx; cbn [has ival fval andb].
    repeat split; reflexivity.
  - reflexivity.
Qed.

(** The instances on [int32]: [0 + x] is [x] for a variable [x], and [0/0]
    and [0%0] are the literal 0. *)
Lemma left_identity_laws_witness :
  operator_add (IntImm i32 0) (VarExpr (mkVar "x" i32 0)) = Ok (VarExpr (mkVar "x" i32 0))
  /\ operator_div (IntImm i32 0) (IntImm i32 0) = Ok (IntImm i32 0)
  /\ operator_mod (IntImm i32 0) (IntImm i32 0) = Ok (IntImm i32 0).
Proof.
  destruct (left_identity_laws (VarExpr (mkVar "x" i32 0)) i32 eq_refl eq_refl eq_refl)
    as [H _].
  destruct (left_identity_laws (IntImm i32 0) i32 eq_refl eq_refl eq_refl) as [H0 _].
  destruct (H eq_refl) as (H1 & _).
  destruct (H0 eq_refl) as (_ & _ & _ & H4 & H5).
  split; [exact H1|]. split; [exact H4|]. exact (H5 eq_refl).
Defined.

(* ================================================================== *)
(** * The shape of a result *)

(** An expression is a signed literal, a float literal, or neither. *)
Lemma literal_cases (e : Expr) :
  (exists v, e = IntImm (type_of e) v)
  \/ (exists f, e = FloatImm (type_of e) f)
  \/ (as_IntImm e = None /\ as_FloatImm e = None).
Proof.
  destruct e; cbn; auto.
  - left; eauto.
  - right; left; eauto.
Qed.

(** X20. What each of [+], [-], [*], [/], [min], [max] can return. On a
    promoted pair [a'], [b'] (of one type) the operator either returns an
    expression of that type which is its generic node on [a'] and [b'], or
    one of [a'] and [b'] when one of them is a signed or float literal, or a
    literal when both are; or it is [/] failing with DivideByZero on a zero
    literal divisor. When promotion fails the operator fails alike. *)
Theorem arith_result_shape (o : ArithOp) (a b : Expr) :
  match BinaryOpMatchTypes a b with
  | Ok (a', b') =>
      type_of a' = type_of b'
      /\ ((o = OpDiv /\ zero_literal b' = true
           /\ arith_apply o a b = Error DivideByZero)
          \/ exists r,
              arith_apply o a b = Ok r /\ type_of r = type_of a'
              /\ (r = arith_node o a' b'
                  \/ ((r = a' \/ r = b') /\ foldable a' || foldable b' = true)
                  \/ (is_literal r = true /\ foldable a' && foldable b' = true)))
  | Error e => arith_apply o a b = Error e
  end.
Proof.
  destruct (BinaryOpMatchTypes a b) as [[a' b']|e] eqn:E.
  - pose proof (promote_types_equal _ _ _ _ E) as Hab.
    split; [exact Hab|].
    assert (Hb : type_of b' = type_of a') by now symmetry.
    destruct (literal_cases a') as [[va Ea] | [[fa Ea] | [Ia Fa]]];
      destruct (literal_cases b') as [[vb Eb] | [[fb Eb] | [Ib Fb]]];
      destruct o;
      unfold arith_apply, operator_add, operator_sub, operator_mul,
        operator_div, min_expr, max_expr, TVM_ARITH_CONST_PROPAGATION;
      rewrite E; cbn [bind]; unfold foldable;
      try (rewrite Ea; cbn [as_IntImm as_FloatImm type_of]);
      try (rewrite Eb; cbn [as_IntImm as_FloatImm type_of]);
      try rewrite Ia, Fa; try rewrite Ib, Fb;
      rewrite <- ?Hab, ?Hb, ?wider_same;
      cbn [has ival fval andb negb foldable orb zero_literal arith_node
           as_IntImm as_FloatImm];
      rewrite ?(SimpleCast_same (type_of a')) by (cbn [type_of]; auto);
      repeat match goal with
             | |- context [if ?c then _ else _] => destruct c eqn:?
             end;
      repeat match goal with
             | H : negb _ = false |- _ => apply negb_false_iff in H
             end;
      first [ left; repeat split; auto; fail
            | right; eexists; split; [reflexivity|]; split;
              [ cbn [type_of IntImm_make FloatImm_make]; auto; fail
              | first [ left; reflexivity
                      | right; left; split; [left; congruence | reflexivity]
                      | right; left; split; [right; congruence | reflexivity]
                      | right; right; split; reflexivity ] ] ].
  - destruct o; unfold arith_apply, operator_add, operator_sub, operator_mul,
      operator_div, min_expr, max_expr, TVM_ARITH_CONST_PROPAGATION;
      now rewrite E.
Qed.

(* ================================================================== *)
(** * Comparisons *)

Lemma bool_literal_value (c : bool) :
  bool_literal c = UIntImm (UInt 1 1) (if c then 1 else 0).
Proof. now destruct c. Qed.

Lemma cmp_literals (node : Expr -> Expr -> Expr) (o : CmpOp) (t : Type_) (a b : Z) :
  cmp_apply node o (IntImm t a) (IntImm t b) = Ok (bool_literal (cmp_holds o a b)).
Proof.
  destruct o; unfold cmp_apply, operator_gt, operator_ge, operator_lt, operator_le,
    operator_eq, operator_ne; now rewrite arith_same_type by reflexivity.
Qed.

(** X21. On two signed literals of one type each of the six comparisons
    folds to the boolean literal, of type [Bool(1)] and value 0 or 1, that
    decides its relation on the two values. The folds agree with the
    logical operators of the file: [a <= b] is [!(a > b)], [a >= b] is
    [!(a < b)] and [(a > b) || (a == b)], and [a != b] is [!(a == b)]. *)
Theorem comparison_literals (node : Expr -> Expr -> Expr)
    (Or_node : Expr -> Expr -> Expr) (Not_node : Expr -> Expr)
    (t : Type_) (a b : Z) :
  let A := IntImm t a in
  let B := IntImm t b in
  (forall o, cmp_apply node o A B
             = Ok (UIntImm (Bool 1) (if cmp_holds o a b then 1 else 0)))
  /\ (g <- operator_gt node A B ;; operator_not Not_node g) = operator_le node A B
  /\ (l <- operator_lt node A B ;; operator_not Not_node l) = operator_ge node A B
  /\ (e <- operator_eq node A B ;; operator_not Not_node e) = operator_ne node A B
  /\ (g <- operator_gt node A B ;; e <- operator_eq node A B ;;
      operator_or Or_node g e) = operator_ge node A B.
Proof.
  intros A B; subst A B.
  split; [intros o; now rewrite cmp_literals, bool_literal_value|].
  pose proof (cmp_literals node CmpGT t a b) as Hgt.
  pose proof (cmp_literals node CmpGE t a b) as Hge.
  pose proof (cmp_literals node CmpLT t a b) as Hlt.
  pose proof (cmp_literals node CmpLE t a b) as Hle.
  pose proof (cmp_literals node CmpEQ t a b) as Heq.
  pose proof (cmp_literals node CmpNE t a b) as Hne.
  cbn [cmp_apply cmp_holds] in *.
  rewrite Hgt, Hge, Hlt, Hle, Heq, Hne; cbn [bind].
  rewrite Z.gtb_ltb, Z.geb_leb.
  destruct (Z.ltb_spec b a), (Z.leb_spec b a), (Z.ltb_spec a b), (Z.leb_spec a b),
    (Z.eqb_spec a b); try lia; repeat split; reflexivity.
Qed.


Lemma leb_nan (x y : float) :
  is_nan x = true \/ is_nan y = true -> (x <=? y)%float = false.
Proof.
  rewrite FloatAxioms.leb_spec; unfold SFleb.
  intros [H | H]; apply is_nan_Prim2SF in H; rewrite H.
  - reflexivity.
  - now destruct (Prim2SF x) as [[]|[]| |[] m e].
Qed.

Lemma eqb_nan (x y : float) :
  is_nan x = true \/ is_nan y = true -> (x =? y)%float = false.
Proof.
  rewrite FloatAxioms.eqb_spec; unfold SFeqb.
  intros [H | H]; apply is_nan_Prim2SF in H; rewrite H.
  - reflexivity.
  - now destruct (Prim2SF x) as [[]|[]| |[] m e].
Qed.

(** X23. On two float literals of one type of which one is not a number,
    [>], [>=], [<], [<=] and [==] fold to the boolean literal false and
    [!=] folds to the boolean literal true. *)
Theorem comparison_nan (node : Expr -> Expr -> Expr) (t : Type_) (x y : float) :
  is_nan x = true \/ is_nan y = true ->
  forall o, cmp_apply node o (FloatImm t x) (FloatImm t y)
            = Ok (UIntImm (Bool 1) (match o with CmpNE => 1 | _ => 0 end)).
Proof.
  intros H o.
  assert (H' : is_nan y = true \/ is_nan x = true) by tauto.
  destruct o; unfold cmp_apply, operator_gt, operator_ge, operator_lt, operator_le,
    operator_eq, operator_ne; rewrite arith_same_type by reflexivity;
    cbn [as_IntImm as_FloatImm has ival fval andb];
    rewrite ?(ltb_nan x y H), ?(ltb_nan y x H'), ?(leb_nan x y H), ?(leb_nan y x H'),
      ?(eqb_nan x y H); reflexivity.
Qed.

(** The instances on [float64]: NaN is not equal to itself, and differs
    from itself. *)
Lemma comparison_nan_witness :
  operator_eq (node_call "eq") (FloatImm (Float 64 1) nan) (FloatImm (Float 64 1) nan)
  = Ok (UIntImm (Bool 1) 0)
  /\ operator_ne (node_call "ne") (FloatImm (Float 64 1) nan) (FloatImm (Float 64 1) nan)
     = Ok (UIntImm (Bool 1) 1).
Proof.
  split.
  - exact (comparison_nan (node_call "eq") (Float 64 1) nan nan (or_introl eq_refl) CmpEQ).
  - exact (comparison_nan (node_call "ne") (Float 64 1) nan nan (or_introl eq_refl) CmpNE).
Defined.

(* ================================================================== *)
(** * Logical operators *)




(* ================================================================== *)
(** * Absolute value *)







(* ================================================================== *)
(** * Casts of literals *)

Lemma cast_IntImm (t tv : Type_) (v : Z) :
  lanes t = 1 -> tv <> t -> cast t (IntImm tv v) = Ok (make_const t v).
Proof.
  intros Hl Hne; unfold cast; cbn [type_of].
  apply Type_eqb_neq in Hne. now rewrite Hne, Hl.
Qed.

Lemma cast_FloatImm (t tv : Type_) (f : float) :
  lanes t = 1 -> tv <> t -> cast t (FloatImm tv f) = Ok (make_const t f).
Proof.
  intros Hl Hne; unfold cast; cbn [type_of].
  apply Type_eqb_neq in Hne. now rewrite Hne, Hl.
Qed.

Lemma make_const_scalar {V : Type} `{ConstValue V} (t : Type_) (v : V) :
  lanes t = 1 ->
  make_const t v
  = match code t with
    | TInt => IntImm t (wrap_signed (bits t) (to_int64 v))
    | TUInt => UIntImm t (to_uint64 v mod 2 ^ bits t)
    | TFloat => FloatImm_make t (to_double v)
    end.
Proof.
  intros Hl; unfold make_const, MakeConstScalar; rewrite Hl; cbn [Z.eqb Pos.eqb].
  reflexivity.
Qed.

Lemma mod_mod_pow2 (v b : Z) : 0 <= b <= 64 -> (v mod 2 ^ 64) mod 2 ^ b = v mod 2 ^ b.
Proof.
  intros Hb. apply Z.mod_mod_divide.
  exists (2 ^ (64 - b)). rewrite <- Z.pow_add_r by lia. f_equal; lia.
Qed.

Lemma wrap_signed_spec (w v : Z) :
  1 <= w ->
  - 2 ^ (w - 1) <= wrap_signed w v < 2 ^ (w - 1) /\ (wrap_signed w v - v) mod 2 ^ w = 0.
Proof.
  intros Hw; split; [now apply wrap_signed_range|].
  assert (0 < 2 ^ w) by (apply Z.pow_pos_nonneg; lia).
  rewrite Zminus_mod, wrap_signed_mod, Z.sub_diag by assumption.
  now apply Z.mod_0_l; lia.
Qed.

Lemma FloatImm_make_digits (t : Type_) (f : float) :
  FloatImm_make t f
  = FloatImm t (if bits t =? 32 then round_to 24 128 f
                else if bits t =? 16 then round_to 11 16 f else f).
Proof. reflexivity. Qed.

(** An integer with no more digits than the type keeps is converted
    exactly. *)
Lemma FloatImm_make_exact (t : Type_) (v : Z) :
  Z.abs v < 2 ^ float_digits t ->
  FloatImm_make t (double_of_Z v) = FloatImm t (double_of_Z v).
Proof.
  unfold float_digits, FloatImm_make; intros Hv.
  destruct (bits t =? 32); [|destruct (bits t =? 16)]; [| |reflexivity].
  - now rewrite round_to_exact by (unfold SpecFloat.emin; lia).
  - now rewrite round_to_exact by (unfold SpecFloat.emin; lia).
Qed.

Lemma float_digits_le (t : Type_) : 0 < float_digits t <= 53.
Proof.
  unfold float_digits. destruct (bits t =? 32); [|destruct (bits t =? 16)]; lia.
Qed.

Lemma double_of_Z_small (v : Z) :
  v <> 0 -> Z.abs v < 2 ^ 53 -> float_is (double_of_Z v) (v <? 0) (Z.abs v) 0.
Proof.
  intros Hv Hs.
  assert (L : Z.log2 (Z.abs v) < 53) by (apply Z.log2_lt_pow2; lia).
  pose proof (double_of_Z_nearest v Hv) as H.
  rewrite Z.max_l, nearest_even_0 in H by lia. apply H.
  assert (2 ^ 53 < 2 ^ 64) by (apply Z.pow_lt_mono_r; lia). lia.
Qed.

(** [(uint64_t)f] on every finite double. *)
Lemma uint64_of_double_below (f : float) (s : bool) (m : positive) (e : Z) :
  Prim2SF f = S754_finite s m e -> integer_part s m e < - 2 ^ 63 ->
  uint64_of_double f = 2 ^ 63.
Proof.
  intros H Hz. unfold uint64_of_double.
  rewrite (two63_leb_small f s m e H) by lia.
  rewrite (int64_of_double_out_of_range f s m e H) by lia. reflexivity.
Qed.

(** C7. Casting a signed-int or float literal to a scalar type returns a
    literal of that type: the literal itself when it has the type already,
    and otherwise the constant [make_const] builds from its value by the
    native conversion; an unsigned literal is not read by [cast] and goes
    under a cast node. The conversions, for a literal of another type and a
    target of 1 to 64 bits (16, 32 or 64 for a float target), in integer
    arithmetic:
    - an [int64] value [v] to a signed target is the value of the target's
      range congruent to [v] modulo [2^bits]; to an unsigned target it is
      [v mod 2^bits];
    - to a float target it is exact when [|v|] has no more digits than the
      target keeps (53 for 64 bits, 24 for 32 bits, 11 for 16 bits), 0 is
      positive zero, to the 64-bit target it is [v] rounded to 53 digits,
      nearest and ties to even, and to any float target it is the cast of
      the 64-bit float literal of [v];
    - a finite double of sign [s], mantissa [m] and exponent [e] to a signed
      target is its integer part when that is an [int64], reduced to the
      width as above, and the reduction of [-2^63] when it is not (the value
      x86-64 gives where C++ defines none); to an unsigned target it is the
      integer part modulo [2^bits] from [-2^63] up to [2^64], and there on 0
      and below [-2^63] the reduction of [2^63] (again as on x86-64);
    - a finite double to a 32-bit float target, within the normal range of
      the target, is the mantissa rounded by 29 bits, nearest and ties to
      even; to a 16-bit one, by 42 bits; to the 64-bit one it is
      unchanged; a zero, an infinity or a NaN is unchanged to every float
      target, and a zero is 0 to every integer target.
    And the round trip: a well-formed signed-int literal cast to a float type
    that keeps at least the digits of its value, and cast back, is the
    literal. *)
Theorem cast_literal_folds (t tv : Type_) :
  lanes t = 1 ->
  (forall v : Z, exists lit,
      cast t (IntImm tv v) = Ok lit /\ is_literal lit = true /\ type_of lit = t
      /\ (tv <> t -> lit = make_const t v) /\ (tv = t -> lit = IntImm tv v))
  /\ (forall f : float, exists lit,
      cast t (FloatImm tv f) = Ok lit /\ is_literal lit = true /\ type_of lit = t
      /\ (tv <> t -> lit = make_const t f) /\ (tv = t -> lit = FloatImm tv f))
  /\ (forall v : Z, tv <> t -> lanes tv = 1 ->
      cast t (UIntImm tv v) = Ok (Cast t (UIntImm tv v)))
  /\ (tv <> t -> 1 <= bits t <= 64 ->
      (is_float t = true -> bits t = 16 \/ bits t = 32 \/ bits t = 64) ->
      (forall v : Z, - 2 ^ 63 <= v < 2 ^ 63 ->
         match code t with
         | TInt =>
             exists v', cast t (IntImm tv v) = Ok (IntImm t v')
               /\ - 2 ^ (bits t - 1) <= v' < 2 ^ (bits t - 1)
               /\ (v' - v) mod 2 ^ bits t = 0
         | TUInt => cast t (IntImm tv v) = Ok (UIntImm t (v mod 2 ^ bits t))
         | TFloat =>
             exists g, cast t (IntImm tv v) = Ok (FloatImm t g)
               /\ (v = 0 -> g = 0%float)
               /\ (v <> 0 -> Z.abs v < 2 ^ float_digits t ->
                   float_is g (v <? 0) (Z.abs v) 0)
               /\ (v <> 0 -> bits t = 64 ->
                   float_is g (v <? 0)
                     (nearest_even (Z.max 0 (Z.log2 (Z.abs v) - 52)) (Z.abs v)) 0)
               /\ (forall d, tv <> f64 ->
                   cast f64 (IntImm tv v) = Ok d -> cast t d = Ok (FloatImm t g))
         end)
      /\ (forall (f : float) (s : bool) (m : positive) (e : Z),
         Prim2SF f = S754_finite s m e ->
         let z := integer_part s m e in
         match code t with
         | TInt =>
             exists v', cast t (FloatImm tv f) = Ok (IntImm t v')
               /\ - 2 ^ (bits t - 1) <= v' < 2 ^ (bits t - 1)
               /\ (v' - (if (- 2 ^ 63 <=? z) && (z <? 2 ^ 63) then z else - 2 ^ 63))
                  mod 2 ^ bits t = 0
         | TUInt =>
             cast t (FloatImm tv f)
             = Ok (UIntImm t ((if z <? - 2 ^ 63 then 2 ^ 63
                               else if z <? 2 ^ 64 then z else 0) mod 2 ^ bits t))
         | TFloat =>
             (bits t = 32 -> - 178 <= e <= 74 ->
              exists g, cast t (FloatImm tv f) = Ok (FloatImm t g)
                /\ float_is g s (nearest_even 29 (Zpos m)) e)
             /\ (bits t = 16 -> - 66 <= e <= - 38 ->
                 exists g, cast t (FloatImm tv f) = Ok (FloatImm t g)
                   /\ float_is g s (nearest_even 42 (Zpos m)) e)
             /\ (bits t = 64 -> cast t (FloatImm tv f) = Ok (FloatImm t f))
         end)
      /\ (forall f : float,
         (forall s m e, Prim2SF f <> S754_finite s m e) ->
         match code t with
         | TInt =>
             forall s, Prim2SF f = S754_zero s ->
             cast t (FloatImm tv f) = Ok (IntImm t 0)
         | TUInt =>
             forall s, Prim2SF f = S754_zero s ->
             cast t (FloatImm tv f) = Ok (UIntImm t 0)
         | TFloat => cast t (FloatImm tv f) = Ok (FloatImm t f)
         end))
  /\ (forall v : Z,
      wf_literal (IntImm tv v) = true -> is_float t = true ->
      bits t = 16 \/ bits t = 32 \/ bits t = 64 ->
      Z.abs v < 2 ^ float_digits t ->
      (g <- cast t (IntImm tv v) ;; cast tv g) = Ok (IntImm tv v)).
Proof.
  intros Hl.
  split; [|split; [|split; [|split]]].
  - intros v. destruct (Type_eqb tv t) eqn:E.
    + apply Type_eqb_eq in E; subst tv.
      exists (IntImm t v). unfold cast; cbn [type_of]. rewrite Type_eqb_refl.
      repeat split; congruence.
    + apply Type_eqb_neq in E. rewrite cast_IntImm by assumption.
      eexists; repeat split; try congruence.
      * now apply is_literal_make_const.
      * apply type_of_make_const.
  - intros f. destruct (Type_eqb tv t) eqn:E.
    + apply Type_eqb_eq in E; subst tv.
      exists (FloatImm t f). unfold cast; cbn [type_of]. rewrite Type_eqb_refl.
      repeat split; congruence.
    + apply Type_eqb_neq in E. rewrite cast_FloatImm by assumption.
      eexists; repeat split; try congruence.
      * now apply is_literal_make_const.
      * apply type_of_make_const.
  - intros v Hne Htv. unfold cast, Cast_make; cbn [type_of].
    apply Type_eqb_neq in Hne. now rewrite Hne, Hl, Htv.
  - intros Hne Hb _. split; [|split].
    + (* integer literals *)
      intros v Hv. rewrite cast_IntImm, make_const_scalar by assumption.
      cbn [to_int64 to_uint64 to_double int_ConstValue].
      destruct (code t) eqn:Ec.
      * rewrite wrap_signed_narrow by lia.
        eexists; split; [reflexivity|]. apply wrap_signed_spec; lia.
      * unfold wrap_unsigned. now rewrite mod_mod_pow2 by lia.
      * rewrite FloatImm_make_digits. eexists; split; [reflexivity|].
        split; [|split; [|split]].
        -- intros ->. unfold round_to.
           now destruct (bits t =? 32), (bits t =? 16).
        -- intros Hv0 Hs.
           pose proof (FloatImm_make_exact t v Hs) as E.
           rewrite FloatImm_make_digits in E. injection E as ->.
           apply double_of_Z_small; [assumption|].
           pose proof (float_digits_le t).
           assert (2 ^ float_digits t <= 2 ^ 53) by (apply Z.pow_le_mono_r; lia). lia.
        -- intros Hv0 ->. cbn [Z.eqb Pos.eqb].
           apply double_of_Z_nearest; [assumption|].
           assert (2 ^ 63 < 2 ^ 64) by (apply Z.pow_lt_mono_r; lia). lia.
        -- intros d Hne64. rewrite cast_IntImm by (auto; congruence).
           rewrite make_const_scalar by reflexivity. cbn [code f64 Float to_double int_ConstValue].
           intros E; injection E as <-.
           change (FloatImm_make f64 (double_of_Z v)) with (FloatImm f64 (double_of_Z v)).
           destruct (Type_eqb f64 t) eqn:E64.
           ++ apply Type_eqb_eq in E64; subst t.
              unfold cast; cbn [type_of]. now rewrite Type_eqb_refl.
           ++ apply Type_eqb_neq in E64.
              rewrite cast_FloatImm, make_const_scalar by assumption.
              rewrite Ec. cbn [to_double double_ConstValue].
              now rewrite FloatImm_make_digits.
    + (* finite doubles *)
      intros f s m e Hf z. rewrite cast_FloatImm, make_const_scalar by assumption.
      cbn [to_int64 to_uint64 to_double double_ConstValue].
      destruct (code t) eqn:Ec.
      * rewrite (int64_of_double_finite f s m e Hf). fold z.
        eexists; split; [reflexivity|]. apply wrap_signed_spec; lia.
      * do 2 f_equal.
        destruct (Z.ltb_spec z (- 2 ^ 63)) as [H1 | H1].
        { now rewrite (uint64_of_double_below f s m e Hf H1). }
        destruct (Z.ltb_spec z (2 ^ 64)) as [H2 | H2].
        { rewrite (uint64_of_double_finite f s m e Hf) by (fold z; lia).
          fold z. now rewrite mod_mod_pow2 by lia. }
        assert (s = false) as ->.
        { pose proof (integer_part_sign s m e) as Hs. fold z in Hs.
          destruct s; [lia | reflexivity]. }
        now rewrite (uint64_of_double_large f m e Hf H2).
      * rewrite FloatImm_make_digits. split; [|split].
        -- intros -> He. cbn [Z.eqb Pos.eqb].
           eexists; split; [reflexivity|].
           apply (round_to_nearest 24 128 f s m e Hf); unfold SpecFloat.emin; lia.
        -- intros -> He. cbn [Z.eqb Pos.eqb].
           eexists; split; [reflexivity|].
           apply (round_to_nearest 11 16 f s m e Hf); unfold SpecFloat.emin; lia.
        -- now intros ->.
    + (* zeros, infinities, NaN *)
      intros f Hnf. rewrite cast_FloatImm, make_const_scalar by assumption.
      cbn [to_int64 to_uint64 to_double double_ConstValue].
      destruct (code t) eqn:Ec.
      * intros s Hz. now rewrite (int64_of_double_zero f s Hz), wrap_signed_0.
      * intros s Hz. rewrite (uint64_of_double_zero f s Hz).
        now rewrite Z.mod_0_l by (apply Z.pow_nonzero; lia).
      * rewrite FloatImm_make_digits. unfold round_to.
        destruct (Prim2SF f) as [s | s | | s m e] eqn:Ef;
          try (now destruct (bits t =? 32), (bits t =? 16)).
        now destruct (Hnf s m e).
  - (* the round trip *)
    intros v Hwf Hft _ Hv.
    destruct (wf_IntImm _ _ Hwf) as (Hi & Hlv & Hbv & Hrv).
    assert (Hne : tv <> t).
    { intros ->. unfold is_int, is_float in *. destruct (code t); discriminate. }
    assert (Ect : code t = TFloat).
    { unfold is_float in Hft. now destruct (code t). }
    assert (Ecv : code tv = TInt).
    { unfold is_int in Hi. now destruct (code tv). }
    rewrite cast_IntImm, make_const_scalar, Ect by assumption.
    cbn [to_double int_ConstValue]. rewrite FloatImm_make_exact by assumption.
    cbn [bind]. rewrite cast_FloatImm, make_const_scalar, Ecv by (auto; congruence).
    cbn [to_int64 double_ConstValue].
    rewrite int64_of_double_of_Z.
    + now rewrite wrap_signed_id by lia.
    + pose proof (float_digits_le t).
      assert (2 ^ float_digits t <= 2 ^ 53) by (apply Z.pow_le_mono_r; lia). lia.
Qed.

(** The instances of the specification: [int32(7)] cast to [float32] is
    [float32(7.0)], that cast back is [int32(7)], and so is the round trip
    of the theorem; [int32(16777217)], which has 25 digits, is rounded. *)
Lemma cast_literal_folds_witness :
  lanes f32 = 1 /\ lanes i32 = 1
  /\ cast f32 (IntImm i32 7) = Ok (FloatImm f32 7%float)
  /\ cast i32 (FloatImm f32 7%float) = Ok (IntImm i32 7)
  /\ (g <- cast f32 (IntImm i32 7) ;; cast i32 g) = Ok (IntImm i32 7)
  /\ cast f32 (IntImm i32 16777217) = Ok (FloatImm f32 16777216%float).
Proof.
  split; [reflexivity|]. split; [reflexivity|]. split; [|split; [|split]].
  - destruct (cast_literal_folds f32 i32 eq_refl) as (H & _).
    destruct (H 7) as (lit & E & _ & _ & Hlit & _).
    rewrite E, Hlit by discriminate. reflexivity.
  - destruct (cast_literal_folds i32 f32 eq_refl) as (_ & H & _).
    destruct (H 7%float) as (lit & E & _ & _ & Hlit & _).
    rewrite E, Hlit by discriminate. reflexivity.
  - destruct (cast_literal_folds f32 i32 eq_refl) as (_ & _ & _ & _ & H).
    apply H; try reflexivity. right; left; reflexivity.
  - destruct (cast_literal_folds f32 i32 eq_refl) as (H & _).
    destruct (H 16777217) as (lit & E & _ & _ & Hlit & _).
    rewrite E, Hlit by discriminate. reflexivity.
Defined.
